(** * my-biggie: duck-typed parameters, log templates and stress drivers

    A shallow embedding of the Go service [my-biggie]:
    - the DuckValue resolver of [part_002] ([processRandomInt],
      [processRandomValue], [DuckInt.UnmarshalJSON], [DuckFloat.UnmarshalJSON])
      and the payload binding of the stress handlers;
    - the log template engine of [logger_middleware.go] and the random
      format generator of [part_003];
    - the fan-out and ramp-up connection drivers of [mysql_stress.go];
    - the packet-loss interceptor of [main.go] / [network_stress.go] and the
      downtime switch of [concurrency_ddos.go].

    Modelling conventions.
    - Go [int] is 64 bits: arithmetic on it wraps ([wrap64]).
    - The process random source is an oracle: the [k]-th draw of
      [rand.Intn(n)] is [intn k n] and the [k]-th draw of [rand.Float64()]
      is [float64 k]; validity ([0 <= intn k n < n], [0 <= float64 k < 1])
      is a hypothesis of the theorems that need it.  [rand.Intn] panics
      for [n <= 0].
    - A [time.Duration] is a Go [int64] of nanoseconds: [time.Duration(n) *
      time.Second] wraps ([wrap64]); deadlines [now.Add(d)] add it to the
      clock; [time.Sleep(d)] sleeps [max 0 d].
    - The float64 values the log renderer prints are IEEE 754 binary64
      values (Stdlib's [SpecFloat]): [float64(n)] and [/] round to nearest,
      ties to even; [%g] prints the shortest decimal that reads back as the
      same float64 (Go's [strconv] shortest mode).  Elsewhere a float64 is
      only compared with another one, or (DuckFloat's random draw) combined
      as [start + f * (end - start)], and is kept as its exact rational
      value ([Q]).
    - Text is a string of bytes, read as UTF-8 where Go reads runes:
      [strings.TrimSpace] trims the runes of [unicode.IsSpace];
      [strings.ToLower] lowers an ASCII text bytewise and any other text
      rune by rune with [unicode.ToLower], whose case table for the runes
      above ASCII is the parameter [ul] of the definitions that lower text
      the process receives. *)

From Stdlib Require Import ZArith String Ascii List Bool Lia QArith.
From Stdlib Require Import Floats.SpecFloat.
From Stdlib Require Import Permutation.
Import ListNotations.
Open Scope string_scope.

(* ------------------------------------------------------------------ *)
(** ** Go library helpers *)

Module Go.

Definition is_space (a : ascii) : bool :=
  let n := nat_of_ascii a in
  (n =? 32)%nat || (n =? 9)%nat || (n =? 10)%nat || (n =? 11)%nat
  || (n =? 12)%nat || (n =? 13)%nat.

Fixpoint trim_left (p : ascii -> bool) (s : string) : string :=
  match s with
  | EmptyString => EmptyString
  | String a r => if p a then trim_left p r else s
  end.

Definition rev_string (s : string) : string :=
  string_of_list_ascii (rev (list_ascii_of_string s)).

Definition trim_right (p : ascii -> bool) (s : string) : string :=
  rev_string (trim_left p (rev_string s)).

(** [strings.Trim(s, cutset)] *)
Definition Trim (s cutset : string) : string :=
  let p a := existsb (Ascii.eqb a) (list_ascii_of_string cutset) in
  trim_right p (trim_left p s).

(** [strings.HasPrefix] *)
Fixpoint HasPrefix (s pre : string) {struct pre} : bool :=
  match pre, s with
  | EmptyString, _ => true
  | String b pre', String a s' => Ascii.eqb a b && HasPrefix s' pre'
  | String _ _, EmptyString => false
  end.

Definition lower_ascii (a : ascii) : ascii :=
  let n := nat_of_ascii a in
  if ((65 <=? n) && (n <=? 90))%nat then ascii_of_nat (n + 32) else a.

(** [strings.ToLower] on an ASCII text: bytewise. *)
Fixpoint lower_bytes (s : string) : string :=
  match s with
  | EmptyString => EmptyString
  | String a r => String (lower_ascii a) (lower_bytes r)
  end.

(** A text of ASCII bytes only. *)
Definition is_ascii (s : string) : bool :=
  forallb (fun a => (nat_of_ascii a <? 128)%nat) (list_ascii_of_string s).

(** *** UTF-8 *)

Definition byte (a : ascii) : Z := Z.of_nat (nat_of_ascii a).

(** [utf8.RuneError], U+FFFD *)
Definition RuneError : Z := 65533.

Definition in_range (a : ascii) (lo hi : Z) : bool :=
  (lo <=? byte a)%Z && (byte a <=? hi)%Z.

(** The runes of a text, each with its bytes, as [utf8.DecodeRune] reads
    them one after the other: a byte that does not start a valid encoding
    (a continuation byte, [C0], [C1], [F5]..[FF], a truncated, overlong or
    surrogate sequence or one above U+10FFFF) is [RuneError] of width 1. *)
Fixpoint runes (l : list ascii) : list (Z * list ascii) :=
  match l with
  | [] => []
  | b0 :: r =>
      let x := byte b0 in
      if (x <? 128)%Z then (x, [b0]) :: runes r
      else if (194 <=? x)%Z && (x <=? 223)%Z then
        match r with
        | b1 :: r1 =>
            if in_range b1 128 191
            then (((x - 192) * 64 + (byte b1 - 128))%Z, [b0; b1]) :: runes r1
            else (RuneError, [b0]) :: runes r
        | [] => [(RuneError, [b0])]
        end
      else if (224 <=? x)%Z && (x <=? 239)%Z then
        match r with
        | b1 :: b2 :: r2 =>
            if in_range b1 (if (x =? 224)%Z then 160 else 128)
                           (if (x =? 237)%Z then 159 else 191)
               && in_range b2 128 191
            then (((x - 224) * 4096 + (byte b1 - 128) * 64 + (byte b2 - 128))%Z,
                  [b0; b1; b2]) :: runes r2
            else (RuneError, [b0]) :: runes r
        | _ => (RuneError, [b0]) :: runes r
        end
      else if (240 <=? x)%Z && (x <=? 244)%Z then
        match r with
        | b1 :: b2 :: b3 :: r3 =>
            if in_range b1 (if (x =? 240)%Z then 144 else 128)
                           (if (x =? 244)%Z then 143 else 191)
               && in_range b2 128 191 && in_range b3 128 191
            then (((x - 240) * 262144 + (byte b1 - 128) * 4096
                   + (byte b2 - 128) * 64 + (byte b3 - 128))%Z,
                  [b0; b1; b2; b3]) :: runes r3
            else (RuneError, [b0]) :: runes r
        | _ => (RuneError, [b0]) :: runes r
        end
      else (RuneError, [b0]) :: runes r
  end.

(** [utf8.AppendRune]: a negative rune, a surrogate or one above U+10FFFF
    is written as [RuneError]. *)
Definition encode_rune (r : Z) : list ascii :=
  let b (z : Z) := ascii_of_nat (Z.to_nat z) in
  if (0 <=? r)%Z && (r <? 128)%Z then [b r]
  else if (0 <=? r)%Z && (r <? 2048)%Z then [b (192 + r / 64); b (128 + r mod 64)]%Z
  else
    let r := if (r <? 0)%Z || (1114111 <? r)%Z || ((55296 <=? r)%Z && (r <=? 57343)%Z)
             then RuneError else r in
    if (r <? 65536)%Z
    then [b (224 + r / 4096); b (128 + (r / 64) mod 64); b (128 + r mod 64)]%Z
    else [b (240 + r / 262144); b (128 + (r / 4096) mod 64);
          b (128 + (r / 64) mod 64); b (128 + r mod 64)]%Z.

(** [unicode.IsSpace] *)
Definition is_space_rune (r : Z) : bool :=
  if (r <=? 255)%Z then
    (r =? 32)%Z || ((9 <=? r)%Z && (r <=? 13)%Z) || (r =? 133)%Z || (r =? 160)%Z
  else
    (r =? 5760)%Z || ((8192 <=? r)%Z && (r <=? 8202)%Z) || (r =? 8232)%Z
    || (r =? 8233)%Z || (r =? 8239)%Z || (r =? 8287)%Z || (r =? 12288)%Z.

Fixpoint drop_spaces (l : list (Z * list ascii)) : list (Z * list ascii) :=
  match l with
  | [] => []
  | (r, _) :: t => if is_space_rune r then drop_spaces t else l
  end.

(** [strings.TrimSpace]: the leading and the trailing runes with
    [unicode.IsSpace] removed.  [utf8.DecodeLastRune], with which Go trims
    the end, splits a text at the same rune boundaries as the decoding
    from the front. *)
Definition TrimSpace (s : string) : string :=
  string_of_list_ascii
    (flat_map snd (rev (drop_spaces (rev (drop_spaces (runes (list_ascii_of_string s))))))).

(** [unicode.ToLower]: ASCII by its own rule, the runes above by the case
    table [ul]. *)
Definition lower_rune (ul : Z -> Z) (r : Z) : Z :=
  if (r <=? 127)%Z then (if (65 <=? r)%Z && (r <=? 90)%Z then (r + 32)%Z else r)
  else ul r.

(** [strings.ToLower]: an ASCII text bytewise; any other text rune by rune
    ([strings.Map(unicode.ToLower, s)]), an undecodable byte read as
    [RuneError]. *)
Definition ToLower (ul : Z -> Z) (s : string) : string :=
  if is_ascii s then lower_bytes s
  else string_of_list_ascii
         (flat_map (fun rb => let r := lower_rune ul (fst rb) in
                              if (r <? 0)%Z then [] else encode_rune r)
                   (runes (list_ascii_of_string s))).

(** [strings.Split(s, sep)] for a one-byte separator. *)
Fixpoint split_acc (sep : ascii) (cur : string) (s : string) : list string :=
  match s with
  | EmptyString => [cur]
  | String a r =>
      if Ascii.eqb a sep then cur :: split_acc sep EmptyString r
      else split_acc sep (cur ++ String a EmptyString) r
  end.

Definition Split (s : string) (sep : ascii) : list string :=
  split_acc sep EmptyString s.

(** [strings.SplitN(s, sep, 2)] for a one-byte separator. *)
Fixpoint SplitN2 (s : string) (sep : ascii) : string * option string :=
  match s with
  | EmptyString => (EmptyString, None)
  | String a r =>
      if Ascii.eqb a sep then (EmptyString, Some r)
      else let '(l, rest) := SplitN2 r sep in (String a l, rest)
  end.

(** [strings.ReplaceAll(s, old, new)] for a non-empty [old]. *)
Fixpoint ReplaceAll_fuel (fuel : nat) (s old new : string) : string :=
  match fuel with
  | O => s
  | S f =>
      match s with
      | EmptyString => EmptyString
      | String a r =>
          if HasPrefix s old
          then new ++ ReplaceAll_fuel f (substring (String.length old)
                                          (String.length s) s) old new
          else String a (ReplaceAll_fuel f r old new)
      end
  end.

Definition ReplaceAll (s old new : string) : string :=
  ReplaceAll_fuel (String.length s) s old new.

(** 64-bit two's complement wrap-around of Go's [int]. *)
Definition wrap64 (z : Z) : Z := ((z + 2 ^ 63) mod 2 ^ 64) - 2 ^ 63.

Definition in_int64 (z : Z) : bool := (- 2 ^ 63 <=? z)%Z && (z <? 2 ^ 63)%Z.

Definition digit_val (a : ascii) : option Z :=
  let n := nat_of_ascii a in
  if ((48 <=? n) && (n <=? 57))%nat then Some (Z.of_nat (n - 48)) else None.

Fixpoint digits_acc (acc : Z) (s : string) : option Z :=
  match s with
  | EmptyString => Some acc
  | String a r =>
      match digit_val a with
      | Some d => digits_acc (acc * 10 + d)%Z r
      | None => None
      end
  end.

(** The failure of [strconv.Atoi] / [strconv.ParseInt]: a [*NumError]
    with [ErrSyntax] or [ErrRange]. *)
Inductive num_error := NumSyntax | NumRange.

(** [strconv.Atoi]: optional sign, at least one decimal digit, value in
    the 64-bit range. *)
Definition Atoi (s : string) : Z + num_error :=
  let '(neg, body) :=
    match s with
    | String a r =>
        if Ascii.eqb a "-" then (true, r)
        else if Ascii.eqb a "+" then (false, r) else (false, s)
    | EmptyString => (false, s)
    end in
  match body with
  | EmptyString => inr NumSyntax
  | _ =>
      match digits_acc 0 body with
      | None => inr NumSyntax
      | Some v =>
          let z := if neg then (- v)%Z else v in
          if in_int64 z then inl z else inr NumRange
      end
  end.

(** [strconv.Itoa] *)
Fixpoint digits_of_nat_fuel (fuel : nat) (n : Z) (acc : string) : string :=
  match fuel with
  | O => acc
  | S f =>
      let d := ascii_of_nat (48 + Z.to_nat (n mod 10)) in
      let q := (n / 10)%Z in
      if (q =? 0)%Z then String d acc
      else digits_of_nat_fuel f q (String d acc)
  end.

Definition nat_digits (n : Z) : string :=
  digits_of_nat_fuel (S (Z.to_nat (Z.log2 (Z.abs n + 1)))) (Z.abs n) EmptyString.

Definition Itoa (z : Z) : string :=
  if (z <? 0)%Z then "-" ++ nat_digits z else nat_digits z.

End Go.

(** The process random source ([math/rand]'s global source), as an oracle. *)
Record Source := {
  intn : nat -> Z -> Z;
  float64 : nat -> Q
}.

Definition valid_source (g : Source) : Prop :=
  (forall k n, (0 < n)%Z -> (0 <= intn g k n < n)%Z) /\
  (forall k, 0 <= float64 g k /\ float64 g k < 1).

(** [rand.Intn(n)], the [k]-th draw: it panics for [n <= 0]. *)
Definition rand_Intn (g : Source) (k : nat) (n : Z) : option Z :=
  if (n <=? 0)%Z then None else Some (intn g k n).

(* ------------------------------------------------------------------ *)
(** ** DuckValue resolver ([src/unnamed/part_002]) *)

Module Duck.

(** Errors a decode can return: a [strconv] number error, a float parse
    error, an [errors.New] message, or a [json] type mismatch. *)
Inductive duck_error :=
| EParse (e : Go.num_error)
| EFloatParse
| EMsg (msg : string)
| EJson.

(** A call returns a value, returns an error, or panics. *)
Inductive outcome (A : Type) :=
| Ok (a : A)
| Fail (e : duck_error)
| Panic.
Arguments Ok {A} a.
Arguments Fail {A} e.
Arguments Panic {A}.

Definition of_atoi (r : Z + Go.num_error) : outcome Z :=
  match r with inl z => Ok z | inr e => Fail (EParse e) end.

(** [rand.Intn(end-start) + start] on Go [int]s, at draw [k]. *)
Definition draw_between (g : Source) (k : nat) (start end_ : Z) : outcome Z :=
  match rand_Intn g k (Go.wrap64 (end_ - start)) with
  | Some r => Ok (Go.wrap64 (r + start))
  | None => Panic
  end.

(** [processRandomInt(value, defaultStart, defaultEnd)]; the [nat] is the
    index of the next draw of the random source. *)
Definition processRandomInt (g : Source) (value : string) (defaultStart defaultEnd : Z)
    (k : nat) : outcome Z * nat :=
  let value := Go.TrimSpace value in
  if String.eqb value "RANDOM" then (draw_between g k defaultStart defaultEnd, S k)
  else if Go.HasPrefix value "RANDOM:" then
    let parts := Go.Split value ":" in
    if negb (List.length parts =? 3)%nat
    then (Fail (EMsg "invalid RANDOM syntax for integer"), k)
    else
      match Go.Atoi (nth 1 parts "") with
      | inr e => (Fail (EParse e), k)
      | inl start =>
          match Go.Atoi (nth 2 parts "") with
          | inr e => (Fail (EParse e), k)
          | inl end_ =>
              if (end_ <=? start)%Z
              then (Fail (EMsg "invalid RANDOM range for integer: start must be less than end"), k)
              else (draw_between g k start end_, S k)
          end
      end
  else (of_atoi (Go.Atoi value), k).

(** The dynamic result of [processRandomValue]: an [int] or a [string]. *)
Inductive rvalue := RVInt (z : Z) | RVString (s : string).

(** [processRandomValue(value)] *)
Definition processRandomValue (g : Source) (value : string) (k : nat)
    : outcome rvalue * nat :=
  if String.eqb value "RANDOM" then
    (Ok (RVString ("randomValue-" ++ Go.Itoa (intn g k 10000))), S k)
  else if Go.HasPrefix value "RANDOM:" then
    let parts := Go.Split value ":" in
    if negb (List.length parts =? 3)%nat
    then (Fail (EMsg "invalid RANDOM syntax"), k)
    else
      match Go.Atoi (nth 1 parts "") with
      | inr e => (Fail (EParse e), k)
      | inl start =>
          match Go.Atoi (nth 2 parts "") with
          | inr e => (Fail (EParse e), k)
          | inl end_ =>
              if (end_ <=? start)%Z
              then (Fail (EMsg "invalid RANDOM range: start must be less than end"), k)
              else
                match draw_between g k start end_ with
                | Ok v => (Ok (RVInt v), S k)
                | Fail e => (Fail e, S k)
                | Panic => (Panic, S k)
                end
          end
      end
  else (Ok (RVString value), k).

(** A raw JSON value: a number literal, a string, [null], a boolean, or an
    array/object. *)
Inductive json :=
| JNumber (lit : string)
| JString (s : string)
| JNull
| JBool (b : bool)
| JComposite.

(** [DuckInt.UnmarshalJSON]; a fresh [DuckInt] holds [0]. *)
Definition DuckInt_UnmarshalJSON (g : Source) (b : json) (k : nat) : outcome Z * nat :=
  match b with
  | JNumber lit =>
      match Go.Atoi lit with
      | inl n => (Ok n, k)
      | inr _ => (Fail EJson, k)
      end
  | JNull => (Ok 0%Z, k)
  | JBool _ | JComposite => (Fail EJson, k)
  | JString s =>
      let s := Go.TrimSpace s in
      let '(v, k') := processRandomValue g s k in
      match v with
      | Fail e => (Fail e, k')
      | Panic => (Panic, k')
      | Ok (RVInt val) => (Ok val, k')
      | Ok (RVString val) => (of_atoi (Go.Atoi val), k')
      end
  end.

(** [DuckFloat.UnmarshalJSON]; [ParseFloat] is [strconv.ParseFloat(_, 64)],
    taken as a parameter (any parser). *)
Definition DuckFloat_UnmarshalJSON (g : Source) (ParseFloat : string -> option Q)
    (b : json) (k : nat) : outcome Q * nat :=
  match b with
  | JNumber lit =>
      match ParseFloat lit with
      | Some f => (Ok f, k)
      | None => (Fail EJson, k)
      end
  | JNull => (Ok 0%Q, k)
  | JBool _ | JComposite => (Fail EJson, k)
  | JString s =>
      let s := Go.TrimSpace s in
      if String.eqb s "RANDOM" then (Ok (float64 g k), S k)
      else if Go.HasPrefix s "RANDOM:" then
        let parts := Go.Split s ":" in
        if negb (List.length parts =? 3)%nat
        then (Fail (EMsg "invalid RANDOM syntax for DuckFloat"), k)
        else
          match ParseFloat (nth 1 parts "") with
          | None => (Fail EFloatParse, k)
          | Some start =>
              match ParseFloat (nth 2 parts "") with
              | None => (Fail EFloatParse, k)
              | Some end_ =>
                  if Qle_bool end_ start
                  then (Fail (EMsg "invalid RANDOM range for DuckFloat"), k)
                  else (Ok (start + float64 g k * (end_ - start))%Q, S k)
              end
          end
      else
        match ParseFloat s with
        | Some f => (Ok f, k)
        | None => (Fail EFloatParse, k)
        end
  end.

(** How [encoding/json] folds a rune of a member name when it matches the
    name against a field name regardless of case: an ASCII letter to its
    lower case, U+017F (long s) to [s] and U+212A (Kelvin sign) to [k]; the
    other runes above ASCII fold to no ASCII letter, so they never match a
    rune of an ASCII field name. *)
Definition fold_ascii (r : Z) : Z :=
  if (65 <=? r)%Z && (r <=? 90)%Z then (r + 32)%Z else r.

Definition fold_rune (r : Z) : option Z :=
  if (r <? 128)%Z then Some (fold_ascii r)
  else if (r =? 383)%Z then Some 115%Z
  else if (r =? 8490)%Z then Some 107%Z
  else None.

Fixpoint fold_eq (rs cs : list Z) : bool :=
  match rs, cs with
  | [], [] => true
  | r :: rs', c :: cs' =>
      match fold_rune r with
      | Some x => (x =? fold_ascii c)%Z && fold_eq rs' cs'
      | None => false
      end
  | _, _ => false
  end.

(** Whether the member name [name] selects the field named [f] (an ASCII
    JSON name): the two are equal rune by rune up to case folding. *)
Definition name_matches (name f : string) : bool :=
  fold_eq (map fst (Go.runes (list_ascii_of_string name)))
          (map Go.byte (list_ascii_of_string f)).

(** [c.ShouldBindJSON(&payload)] restricted to the payload's [DuckInt]
    fields: the object's members are decoded in order, a member whose name
    selects one of [fields] through [DuckInt.UnmarshalJSON]; the first error
    stops the decode.  The result lists the assignments made. *)
Fixpoint bind_duck_ints (g : Source) (fields : list string)
    (obj : list (string * json)) (k : nat) : outcome (list (string * Z)) * nat :=
  match obj with
  | [] => (Ok [], k)
  | (name, v) :: rest =>
      match find (name_matches name) fields with
      | Some f =>
          match DuckInt_UnmarshalJSON g v k with
          | (Ok z, k') =>
              match bind_duck_ints g fields rest k' with
              | (Ok l, k'') => (Ok ((f, z) :: l), k'')
              | other => other
              end
          | (Fail e, k') => (Fail e, k')
          | (Panic, k') => (Panic, k')
          end
      | None => bind_duck_ints g fields rest k
      end
  end.

(** What a stress handler does with its payload: answer with a status and
    an error code, or go on to run the job with the decoded fields. *)
Inductive handler_step :=
| Respond (status : Z) (error_code : string)
| StartJob (fields : list (string * Z)).

(** The [DuckInt] fields of [MySQLHeavyPayload]. *)
Definition MySQLHeavyPayload_fields : list string :=
  ["maintain_second"; "query_per_interval"; "interval_second"].

(** The front of [MySQLHeavyHandler]: bind the payload; on error reply
    [ErrorJSON(c, 400, "INVALID_PAYLOAD", ...)] and return.  A panic in the
    decode is turned into a bare 500 by [gin.Recovery]. *)
Definition MySQLHeavyHandler_front (g : Source) (obj : list (string * json)) (k : nat)
    : handler_step :=
  match fst (bind_duck_ints g MySQLHeavyPayload_fields obj k) with
  | Fail _ => Respond 400 "INVALID_PAYLOAD"
  | Panic => Respond 500 ""
  | Ok fs => StartJob fs
  end.

End Duck.

(* ------------------------------------------------------------------ *)
(** ** [float64]: IEEE 754 binary64 *)

Module F64.
Local Open Scope Z_scope.

(** A binary64 value of Stdlib's [SpecFloat]: 53 bits of precision,
    exponents below 1024. *)
Definition float : Type := spec_float.
Definition prec : Z := 53.
Definition emax : Z := 1024.

(** [float64(n)] of an integer: rounded to nearest, ties to even. *)
Definition of_int (n : Z) : float := binary_normalize prec emax n 0 false.

(** [x / y]: the exact quotient rounded to nearest, ties to even. *)
Definition div (x y : float) : float := SFdiv prec emax x y.

(** [x <= y] *)
Definition le (x y : float) : bool := SFleb x y.

(** *** Shortest decimal ([strconv]'s shortest mode, [ryuFtoaShortest])

    A positive finite float [m * 2^e] stands for every real of its rounding
    interval, from [(2m-1) * 2^(e-1)] to [(2m+1) * 2^(e-1)], or from
    [(4m-1) * 2^(e-2)] when [m = 2^52] and the float is the lowest of its
    binade above the subnormals; the ends belong to it when [m] is even.
    Its shortest decimal is [d * 10^k] for the largest [k] such that a
    multiple of [10^k] lies in the interval, [d] the one among them nearest
    to the float (ties to even).  All quantities below are scaled by
    [2^(e-2)]: the interval is [[lo2, hi2]] and the float is [4m]. *)

Definition ceil_div (a b : Z) : Z := - ((- a) / b).

(** At scale [10^k]: the least and the greatest [d] with [d * 10^k] in the
    interval, and [d] rounded to nearest. *)
Definition at_scale (m e k : Z) : Z * Z * Z :=
  let E := e - 2 in
  let lo2 := if (m =? 2 ^ 52) && negb (e =? -1074) then 4 * m - 1 else 4 * m - 2 in
  let hi2 := 4 * m + 2 in
  let num (x : Z) := x * 2 ^ (Z.max E 0) * 10 ^ (Z.max (- k) 0) in
  let den := 10 ^ (Z.max k 0) * 2 ^ (Z.max (- E) 0) in
  let incl := Z.even m in
  let dlo := if incl then ceil_div (num lo2) den else num lo2 / den + 1 in
  let dhi := if incl then num hi2 / den else ceil_div (num hi2) den - 1 in
  let q := num (4 * m) / den in
  let r := num (4 * m) mod den in
  let near := if (den <? 2 * r) || ((2 * r =? den) && Z.odd q) then q + 1 else q in
  (dlo, dhi, near).

(** The scales from [k] down; when the fuel runs out, the exact value. *)
Fixpoint search (fuel : nat) (m e k : Z) : Z * Z :=
  match fuel with
  | O => if 0 <=? e then (m * 2 ^ e, 0) else (m * 5 ^ (- e), e)
  | S f =>
      let '(dlo, dhi, near) := at_scale m e k in
      if dlo <=? dhi then (Z.max dlo (Z.min dhi near), k)
      else search f m e (k - 1)
  end.

(** [(d, k)] with [d * 10^k] the shortest decimal of [m * 2^e].  The
    search starts at a [k0] with [10^k0] above the interval (no multiple
    but 0 in it) and ends at a [kmin] with [10^kmin] below the interval's
    width (some multiple in it). *)
Definition shortest (m e : Z) : Z * Z :=
  let E := e - 2 in
  let x := Z.log2 (4 * m + 2) + 1 + E in
  let k0 := Z.max 0 (x / 3 + 1) in
  let kmin := (if 0 <=? E then E / 4 else E / 3) - 1 in
  search (Z.to_nat (k0 - kmin + 1)) m e k0.

End F64.

(* ------------------------------------------------------------------ *)
(** ** Log template engine ([src/logger_middleware.go]) *)

Module LogFmt.

(** *** [%g] on a finite decimal [m * 10^e] *)

Fixpoint strip_zeros_fuel (fuel : nat) (m e : Z) : Z * Z :=
  match fuel with
  | O => (m, e)
  | S f =>
      if ((m mod 10 =? 0) && negb (m =? 0))%Z
      then strip_zeros_fuel f (m / 10) (e + 1) else (m, e)
  end.

(** The shortest decimal digits of [|m| * 10^e]: digit string and decimal
    point position [dp] (value [0.d1d2... * 10^dp]). *)
Definition shortest_digits (m e : Z) : string * Z :=
  let '(m', e') := strip_zeros_fuel (S (Z.to_nat (Z.log2 (Z.abs m + 1)))) (Z.abs m) e in
  let d := Go.nat_digits m' in
  (d, (Z.of_nat (String.length d) + e')%Z).

Definition digit_at (d : string) (j : Z) : ascii :=
  if ((0 <=? j) && (j <? Z.of_nat (String.length d)))%Z
  then match String.get (Z.to_nat j) d with Some c => c | None => "0"%char end
  else "0"%char.

Fixpoint chars_from (d : string) (from : Z) (n : nat) : string :=
  match n with
  | O => EmptyString
  | S n' => String (digit_at d from) (chars_from d (from + 1) n')
  end.

(** [%e] with the shortest digits: [d.ddde+XX]. *)
Definition fmt_e (d : string) (exp : Z) : string :=
  let nd := String.length d in
  let mant := String (digit_at d 0) EmptyString ++
              (if (1 <? nd)%nat then "." ++ chars_from d 1 (nd - 1) else "") in
  let sign := if (exp <? 0)%Z then "-" else "+" in
  let a := Z.abs exp in
  let ds := if (a <? 10)%Z then "0" ++ Go.nat_digits a else Go.nat_digits a in
  mant ++ "e" ++ sign ++ ds.

(** [%f] with the shortest digits. *)
Definition fmt_f (d : string) (dp : Z) : string :=
  let nd := Z.of_nat (String.length d) in
  let prec := Z.max (nd - dp) 0 in
  let ipart := if (0 <? dp)%Z then chars_from d 0 (Z.to_nat dp) else "0" in
  if (0 <? prec)%Z then ipart ++ "." ++ chars_from d dp (Z.to_nat prec) else ipart.

(** [fmt.Sprintf("%g", x)] for [x = m * 10^e]. *)
Definition fmt_g (m e : Z) : string :=
  if (m =? 0)%Z then "0" else
  let '(d, dp) := shortest_digits m e in
  let exp := (dp - 1)%Z in
  let body := if ((exp <? -4) || (6 <=? exp))%Z then fmt_e d exp else fmt_f d dp in
  if (m <? 0)%Z then "-" ++ body else body.

(** [fmt.Sprintf("%g", x)] for a [float64] [x]: its shortest decimal. *)
Definition Sprintf_g (x : F64.float) : string :=
  match x with
  | S754_zero s => if s then "-0" else "0"
  | S754_infinity s => if s then "-Inf" else "+Inf"
  | S754_nan => "NaN"
  | S754_finite s m e =>
      let '(d, k) := F64.shortest (Zpos m) e in
      fmt_g (if s then (- d)%Z else d) k
  end.

(** *** The request context a log line is rendered against *)

Record gin_ctx := {
  status : Z;                  (* c.Writer.Status() *)
  method : string;             (* c.Request.Method *)
  path : string;               (* c.Request.URL.Path *)
  client_ip : string;          (* c.ClientIP() *)
  user_agent : string;         (* c.Request.UserAgent() *)
  proto : string;              (* c.Request.Proto *)
  content_length : Z;          (* c.Request.ContentLength *)
  writer_size : Z;             (* c.Writer.Size() *)
  now_rfc3339 : string;        (* time.Now().UTC().Format(time.RFC3339) *)
  now_format : string -> string (* time.Now().UTC().Format(layout) *)
}.

(** [convertTimeFormat]: the six [ReplaceAll]s; their outputs hold no [%],
    so the order of the Go map iteration does not matter. *)
Definition convertTimeFormat (format : string) : string :=
  let r := Go.ReplaceAll format "%Y" "2006" in
  let r := Go.ReplaceAll r "%m" "01" in
  let r := Go.ReplaceAll r "%d" "02" in
  let r := Go.ReplaceAll r "%H" "15" in
  let r := Go.ReplaceAll r "%M" "04" in
  Go.ReplaceAll r "%S" "05".

(** ["μs"] in UTF-8. *)
Definition micro_s : string :=
  String (ascii_of_nat 206) (String (ascii_of_nat 188) "s").

Section Lower.

(** [unicode.ToLower]'s case table above ASCII. *)
Variable ul : Z -> Z.

(** The latency branch; [ns] is [latency.Nanoseconds()]. *)
Definition render_latency (unitSpec : string) (ns : Z) : string :=
  let f := F64.of_int ns in
  let k := F64.of_int 1000 in
  let u := Go.ToLower ul unitSpec in
  if String.eqb u "ns" then Sprintf_g f
  else if String.eqb u "mcs" then Sprintf_g (F64.div f k)
  else if String.eqb u "ms" then Sprintf_g (F64.div (F64.div f k) k)
  else if String.eqb u "s" then Sprintf_g (F64.div (F64.div (F64.div f k) k) k)
  else if F64.le (F64.of_int (1000 * 1000 * 1000)) f
  then Sprintf_g (F64.div (F64.div (F64.div f k) k) k) ++ "s"
  else if F64.le (F64.of_int (1000 * 1000)) f
  then Sprintf_g (F64.div (F64.div f k) k) ++ "ms"
  else if F64.le (F64.of_int 1000) f then Sprintf_g (F64.div f k) ++ micro_s
  else Sprintf_g f ++ "ns".

(** The request_size / response_size branch. *)
Definition render_size (unitSpec : string) (size : Z) : string :=
  let f := F64.of_int size in
  let kb := Sprintf_g (F64.div f (F64.of_int 1024)) in
  let mb := Sprintf_g (F64.div f (F64.of_int (1024 * 1024))) in
  let gb := Sprintf_g (F64.div f (F64.of_int (1024 * 1024 * 1024))) in
  let u := Go.ToLower ul unitSpec in
  if String.eqb u "kb" then kb
  else if String.eqb u "mb" then mb
  else if String.eqb u "gb" then gb
  else if (1024 * 1024 * 1024 <=? size)%Z then gb ++ "GB"
  else if (1024 * 1024 <=? size)%Z then mb ++ "MB"
  else if (1024 <=? size)%Z then kb ++ "KB"
  else Go.Itoa size ++ "B".

(** The key and the unit specifier of a placeholder's content. *)
Definition split_content (content : string) : string * string :=
  let '(p0, p1) := Go.SplitN2 content ":" in
  (Go.ToLower ul (Go.TrimSpace p0),
   match p1 with Some u => Go.TrimSpace u | None => "" end).

(** [resolvePlaceholder(content, c, latency)]; [None] is the error
    ["unsupported placeholder"]. *)
Definition resolvePlaceholder (content : string) (c : gin_ctx) (latency : Z)
    : option string :=
  let '(key, unitSpec) := split_content content in
  if String.eqb key "time" then
    Some (if String.eqb unitSpec "" then now_rfc3339 c
          else now_format c (convertTimeFormat unitSpec))
  else if String.eqb key "status_code" then Some (Go.Itoa (status c))
  else if String.eqb key "method" then Some (method c)
  else if String.eqb key "path" then Some (path c)
  else if String.eqb key "client_ip" then Some (client_ip c)
  else if String.eqb key "latency" then Some (render_latency unitSpec latency)
  else if String.eqb key "user_agent" then Some (user_agent c)
  else if String.eqb key "protocol" then Some (proto c)
  else if String.eqb key "request_size" then Some (render_size unitSpec (content_length c))
  else if String.eqb key "response_size" then Some (render_size unitSpec (writer_size c))
  else None.

End Lower.

(** The closed set of supported keys. *)
Definition supported_keys : list string :=
  ["time"; "status_code"; "method"; "path"; "client_ip"; "latency";
   "user_agent"; "protocol"; "request_size"; "response_size"].

(** *** Matching [\{([^}]+)\}] leftmost-first over the format *)

(** A piece of the format: a byte outside every match, or a match
    [{m}] with its inner text [m] (non-empty, no [}]). *)
Inductive seg := SChar (a : ascii) | SPh (m : string).

Fixpoint scan_out (s : string) : list seg :=
  match s with
  | EmptyString => []
  | String a r =>
      if Ascii.eqb a "{" then scan_in EmptyString r else SChar a :: scan_out r
  end
(** After an opening [{] with [buf] read since: at [}] the match closes
    (or, for [{}], both bytes are literal); at the end of the text no [}]
    is left, so the [{] and everything after it are literal. *)
with scan_in (buf : string) (s : string) : list seg :=
  match s with
  | EmptyString => SChar "{" :: map SChar (list_ascii_of_string buf)
  | String a r =>
      if Ascii.eqb a "}" then
        match buf with
        | EmptyString => SChar "{" :: SChar "}" :: scan_out r
        | _ => SPh buf :: scan_out r
        end
      else scan_in (buf ++ String a EmptyString) r
  end.

Definition scan (format : string) : list seg := scan_out format.

Definition unscan_seg (s : seg) : string :=
  match s with
  | SChar a => String a EmptyString
  | SPh m => "{" ++ m ++ "}"
  end.

Definition concat_strings (l : list string) : string := fold_right append "" l.

Section Render.

Variable ul : Z -> Z.

(** The callback of [ReplaceAllStringFunc] in [FormatLogMessage]. *)
Definition replace_match (c : gin_ctx) (latency : Z) (m : string) : string :=
  let content := Go.Trim ("{" ++ m ++ "}") "{}" in
  match resolvePlaceholder ul content c latency with
  | Some v => v
  | None => "ERR"
  end.

Definition render_seg (c : gin_ctx) (latency : Z) (s : seg) : string :=
  match s with
  | SChar a => String a EmptyString
  | SPh m => replace_match c latency m
  end.

(** [FormatLogMessage(c, latency)] against the format [format]. *)
Definition FormatLogMessage (format : string) (c : gin_ctx) (latency : Z) : string :=
  concat_strings (map (render_seg c latency) (scan format)).

End Render.

End LogFmt.

(* ------------------------------------------------------------------ *)
(** ** Random log format generator ([src/unnamed/part_003]) *)

Module RandFormat.

(** Computations drawing from the random source; [None] is a panic
    (an index out of range). *)
Definition M (A : Type) : Type := nat -> option (A * nat).

Definition ret {A} (a : A) : M A := fun k => Some (a, k).
Definition bind {A B} (m : M A) (f : A -> M B) : M B :=
  fun k => match m k with Some (a, k') => f a k' | None => None end.

Notation "x <- m ;; f" := (bind m (fun x => f))
  (at level 61, m at next level, right associativity).

Section Gen.
Variable g : Source.

Definition Intn (n : Z) : M Z :=
  fun k => match rand_Intn g k n with Some r => Some (r, S k) | None => None end.

Definition Float64 : M Q := fun k => Some (float64 g k, S k).

(** [l[i]]: panics out of range. *)
Definition index {A} (l : list A) (i : Z) : M A :=
  fun k => if (i <? 0)%Z then None
           else match nth_error l (Z.to_nat i) with
                | Some a => Some (a, k)
                | None => None
                end.

Definition qlt (x y : Q) : bool := negb (Qle_bool y x).

Definition requiredPlaceholders : list string :=
  ["time"; "status_code"; "method"; "path"; "client_ip"].
Definition optionalPlaceholders : list string :=
  ["latency"; "user_agent"; "protocol"; "request_size"; "response_size"].

(** [generateRandomTimeFormat] *)
Definition generateRandomTimeFormat : M string :=
  i <- Intn 4 ;;
  sep <- index ["-"; "/"; ":"; "."] i ;;
  ret ("%Y" ++ sep ++ "%m" ++ sep ++ "%d" ++ "T" ++ "%H" ++ sep ++ "%M" ++ sep ++ "%S").

(** [strings.EqualFold] on ASCII texts (the generator's own names). *)
Definition EqualFold (a b : string) : bool := String.eqb (Go.lower_bytes a) (Go.lower_bytes b).

(** The loop adding [optCount] optional placeholders. *)
Fixpoint add_optionals (n : nat) (placeholders : list string) : M (list string) :=
  match n with
  | O => ret placeholders
  | S n' =>
      i <- Intn 5 ;;
      opt <- index optionalPlaceholders i ;;
      let already := existsb (EqualFold opt) placeholders in
      let placeholders' :=
        if negb already && (List.length placeholders <? 7)%nat
        then (placeholders ++ [opt])%list else placeholders in
      add_optionals n' placeholders'
  end.

Fixpoint set_nth {A} (l : list A) (i : nat) (v : A) : list A :=
  match l, i with
  | [], _ => []
  | _ :: r, O => v :: r
  | x :: r, S i' => x :: set_nth r i' v
  end.

(** [placeholders[i], placeholders[j] = placeholders[j], placeholders[i]] *)
Definition swap {A} (d : A) (l : list A) (i j : nat) : list A :=
  let vi := nth i l d in
  let vj := nth j l d in
  set_nth (set_nth l i vj) j vi.

(** [rand.Shuffle(n, swap)]: [for i := n - 1; i > 0; i--], swapping [i]
    with a draw [j] in [[0, i]]; [i] is the current index. *)
Fixpoint shuffle_loop (i : nat) (l : list string) : M (list string) :=
  match i with
  | O => ret l
  | S i' =>
      j <- Intn (Z.of_nat i + 1) ;;
      if ((j <? 0) || (Z.of_nat (List.length l) <=? j))%Z
      then (fun _ => None)
      else shuffle_loop i' (swap "" l i (Z.to_nat j))
  end.

Definition Shuffle (l : list string) : M (list string) :=
  shuffle_loop (List.length l - 1) l.

(** The unit-specifier step of the loop over the placeholders; [ph] is
    one of the generator's ASCII names, which [strings.ToLower] lowers
    bytewise. *)
Definition add_unit (ph : string) : M string :=
  let low := Go.lower_bytes ph in
  if String.eqb low "time" then
    f <- Float64 ;;
    if qlt f (1 # 2) then
      tf <- generateRandomTimeFormat ;; ret ("{time:" ++ tf ++ "}")
    else ret "{time}"
  else if String.eqb low "latency" then
    i <- Intn 4 ;;
    u <- index ["s"; "ms"; "micros"; "ns"] i ;;
    ret ("{latency:" ++ u ++ "}")
  else if String.eqb low "request_size" || String.eqb low "response_size" then
    i <- Intn 4 ;;
    u <- index ["b"; "kb"; "mb"; "gb"] i ;;
    ret ("{" ++ low ++ ":" ++ u ++ "}")
  else ret ("{" ++ ph ++ "}").

(** A double quote. *)
Definition dq : string := String (ascii_of_nat 34) EmptyString.

(** The wrappers: double quotes, single quotes, square brackets. *)
Definition wrappers : list (string * string) := [(dq, dq); ("'", "'"); ("[", "]")].

(** The wrapping step: with probability 1/2, quotes or brackets. *)
Definition wrap (s : string) : M string :=
  f <- Float64 ;;
  if qlt f (1 # 2) then
    i <- Intn 3 ;;
    w <- index wrappers i ;;
    ret (fst w ++ s ++ snd w)
  else ret s.

Fixpoint decorate_all (l : list string) : M (list string) :=
  match l with
  | [] => ret []
  | ph :: r => s <- add_unit ph ;; s' <- wrap s ;; rest <- decorate_all r ;; ret (s' :: rest)
  end.

(** The loop building [parts]: each placeholder, then ["-"] with
    probability 3/10. *)
Fixpoint build_parts (l : list string) : M (list string) :=
  match l with
  | [] => ret []
  | ph :: r =>
      f <- Float64 ;;
      rest <- build_parts r ;;
      ret (if qlt f (3 # 10) then ph :: "-" :: rest else ph :: rest)
  end.

(** [strings.Join(parts, " ")] *)
Fixpoint Join (l : list string) (sep : string) : string :=
  match l with
  | [] => ""
  | [x] => x
  | x :: r => x ++ sep ++ Join r sep
  end.

(** [generateRandomGlobalLogFormat] *)
Definition generateRandomGlobalLogFormat : M string :=
  optCount <- Intn 3 ;;
  placeholders <- add_optionals (Z.to_nat optCount) requiredPlaceholders ;;
  shuffled <- Shuffle placeholders ;;
  decorated <- decorate_all shuffled ;;
  parts <- build_parts decorated ;;
  ret (Join parts " ").

End Gen.

(** The keys of the placeholders of a format, as [FormatLogMessage] finds
    them: each match, trimmed of braces, split at the first [:]. *)
Definition format_keys (ul : Z -> Z) (format : string) : list string :=
  flat_map (fun s => match s with
                     | LogFmt.SChar _ => []
                     | LogFmt.SPh m =>
                         [fst (LogFmt.split_content ul (Go.Trim ("{" ++ m ++ "}") "{}"))]
                     end) (LogFmt.scan format).

End RandFormat.

(* ------------------------------------------------------------------ *)
(** ** Connection drivers ([src/mysql_stress.go]) *)

Module Driver.

(** What one [sql.Open] + [db.Ping()] attempt gives: [sql.Open] fails,
    the handle opens but the ping fails, or both succeed. *)
Inductive attempt := OpenFail | PingFail | OpenOk.

(** Resource events: handle [id] opened or closed, a query cycle on [id],
    a ticker tick. *)
Inductive event := EOpen (id : nat) | EClose (id : nat) | EWork (id : nat) | ETick.

Definition event_eq_dec (x y : event) : {x = y} + {x <> y}.
Proof. decide equality; apply Nat.eq_dec. Defined.

Definition cnt (e : event) (l : list event) : nat := count_occ event_eq_dec l e.

Definition is_open (e : event) : bool := match e with EOpen _ => true | _ => false end.
Definition is_close (e : event) : bool := match e with EClose _ => true | _ => false end.
Definition opens (l : list event) : nat := List.length (filter is_open l).
Definition closes (l : list event) : nat := List.length (filter is_close l).

(** *** Shape B: [MySQLMultiHeavyHandler]'s [stressFunc] *)

(** The goroutine of worker [connNum]: open, [defer db.Close()], ping,
    then [cycles] query cycles until the deadline. *)
Definition worker_trace (connNum : nat) (a : attempt) (cycles : nat) : list event :=
  match a with
  | OpenFail => []
  | PingFail => [EOpen connNum; EClose connNum]
  | OpenOk => EOpen connNum :: repeat (EWork connNum) cycles ++ [EClose connNum]
  end.

(** The traces of the [connectionCounts] goroutines; [wg.Wait()] returns
    once all have ended.  The run's trace is any interleaving of them. *)
Definition multi_heavy_traces (connectionCounts : Z) (att : nat -> attempt)
    (cycles : nat -> nat) : list (list event) :=
  map (fun i => worker_trace i (att i) (cycles i)) (seq 0 (Z.to_nat connectionCounts)).

(** *** Shape C: [MySQLConnectionHandler]'s [stressFunc] *)

(** The [select] of the ramp loop, as seen by one iteration: the ticker
    fired, or not ([default]); with the value of
    [time.Now().After(endTime)] at the iteration's deadline check. *)
Inductive obs := Tick (after_end : bool) | Idle (after_end : bool).

Record ramp_state := {
  connections : list nat;        (* the [connections] slice *)
  currentCount : Z;
  next_attempt : nat;            (* index of the next [sql.Open] *)
  rounds : list (list event)     (* the events of each tick, in order *)
}.

Section Ramp.
Variable att : nat -> attempt.
Variables (connectionCounts increasePerInterval : Z).

(** One iteration of the inner [for]: the [n]-th attempt's handle is
    numbered [n]; [ev] collects the current tick's events. *)
Definition open_one (st : ramp_state) (ev : list event) : ramp_state * list event :=
  let id := next_attempt st in
  match att id with
  | OpenFail =>
      ({| connections := connections st; currentCount := currentCount st;
          next_attempt := S id; rounds := rounds st |}, ev)
  | PingFail =>
      ({| connections := connections st; currentCount := currentCount st;
          next_attempt := S id; rounds := rounds st |}, (ev ++ [EOpen id; EClose id])%list)
  | OpenOk =>
      ({| connections := (connections st ++ [id])%list; currentCount := currentCount st + 1;
          next_attempt := S id; rounds := rounds st |}, (ev ++ [EOpen id])%list)
  end.

(** [for i := 0; i < increasePerInterval && currentCount < connectionCounts; i++]
    with [n] iterations left. *)
Fixpoint open_round (n : nat) (st : ramp_state) (ev : list event)
    : ramp_state * list event :=
  match n with
  | O => (st, ev)
  | S n' =>
      if (currentCount st <? connectionCounts)%Z
      then let '(st', ev') := open_one st ev in open_round n' st' ev'
      else (st, ev)
  end.

(** The [case <-ticker.C] branch, up to its break checks. *)
Definition tick (st : ramp_state) : ramp_state :=
  let '(st', ev) := open_round (Z.to_nat increasePerInterval) st [] in
  {| connections := connections st'; currentCount := currentCount st';
     next_attempt := next_attempt st'; rounds := (rounds st' ++ [ev])%list |}.

(** The labelled [Loop]; [None] when the observations end before a
    [break Loop]. *)
Fixpoint ramp_loop (os : list obs) (st : ramp_state) : option ramp_state :=
  match os with
  | [] => None
  | Tick ae :: r =>
      let st1 := tick st in
      if (connectionCounts <=? currentCount st1)%Z then Some st1
      else if ae then Some st1
      else ramp_loop r st1
  | Idle ae :: r => if ae then Some st else ramp_loop r st
  end.

Definition ramp_init : ramp_state :=
  {| connections := []; currentCount := 0; next_attempt := 0; rounds := [] |}.

(** The whole trace of a finished run: each tick's events after its
    [ETick], then the closing pass over [connections]. *)
Definition run_trace (st : ramp_state) : list event :=
  (concat (map (cons ETick) (rounds st)) ++ map EClose (connections st))%list.

(** [stressFunc]: [time.NewTicker] panics for a non-positive interval;
    otherwise the ramp loop, the sleep until [endTime], and the closing
    pass. *)
Definition connection_stress (intervalSec : Z) (os : list obs) : option (list event) :=
  if (intervalSec <=? 0)%Z then None
  else match ramp_loop os ramp_init with
       | Some st => Some (run_trace st)
       | None => None
       end.

End Ramp.

End Driver.

(* ------------------------------------------------------------------ *)
(** ** Packet-loss interceptor ([src/main.go], [src/network_stress.go]) *)

Module Net.
Local Open Scope Z_scope.

(** The shared simulation state guarded by [networkStressMutex]; times in
    nanoseconds. *)
Record net_state := {
  activeLatencyMs : Z;
  latencyExpiry : Z;
  activePacketLoss : Z;
  packetLossExpiry : Z
}.

Inductive mw_result :=
| Continue                                        (* c.Next() *)
| Abort (status : Z) (error : string) (message : string). (* AbortWithStatusJSON *)

Definition second : Z := 1000 * 1000 * 1000.
Definition millisecond : Z := 1000 * 1000.

(** [time.Duration(n) * unit]: the product wraps around in the 64 bits of
    a [time.Duration]. *)
Definition dur (n unit : Z) : Z := Go.wrap64 (n * unit).

(** The time [time.Sleep(d)] sleeps: none for [d <= 0]. *)
Definition slept (d : Z) : Z := Z.max 0 d.

(** [NetworkStressMiddleware] for a request arriving at [now], with [k]
    the next draw of the random source: the time slept, the result, and
    the next draw. *)
Definition NetworkStressMiddleware (g : Source) (st : net_state) (now : Z) (k : nat)
    : Z * mw_result * nat :=
  let latency := activeLatencyMs st in
  let delay := if ((now <? latencyExpiry st) && (0 <? latency))%Z
               then slept (dur latency millisecond) else 0%Z in
  if ((now <? packetLossExpiry st) && (0 <? activePacketLoss st))%Z then
    if (intn g k 100 <? activePacketLoss st)%Z
    then (delay, Abort 503 "SERVICE_UNAVAILABLE" "simulated packet loss, request dropped", S k)
    else (delay, Continue, S k)
  else (delay, Continue, k).

(** The first critical section of [setPacketLoss], run at [now]. *)
Definition set_packet_loss (st : net_state) (now lossPercentage maintainSec : Z) : net_state :=
  {| activeLatencyMs := activeLatencyMs st; latencyExpiry := latencyExpiry st;
     activePacketLoss := lossPercentage;
     packetLossExpiry := now + dur maintainSec second |}.

(** The second critical section of [setPacketLoss], after the sleep. *)
Definition reset_packet_loss (st : net_state) : net_state :=
  {| activeLatencyMs := activeLatencyMs st; latencyExpiry := latencyExpiry st;
     activePacketLoss := 0; packetLossExpiry := packetLossExpiry st |}.

End Net.

(* ------------------------------------------------------------------ *)
(** ** Downtime switch ([src/concurrency_ddos.go], [src/main.go]) *)

Module Downtime.
Local Open Scope Z_scope.

(** The route a request goes to: [POST /stress/downtime] with its decoded
    [downtime_second], or any other route. *)
Inductive route := RDowntime (downtimeSec : Z) | ROther.

(** Requests are served concurrently.  The state: [downtimeActive], the
    clock, the [resetFunc]s sleeping (request, wake-up time), the downtime
    requests past [DowntimeMiddleware] whose handler has not yet set the
    flag, and the replies of the requests stopped by the middleware. *)
Record dt_state := {
  downtimeActive : bool;
  clock : Z;
  timers : list (nat * Z);
  admitted : list (nat * Z);
  short_circuited : list (nat * Z * string)
}.

Inductive dt_event :=
| Arrive (id : nat) (r : route)   (* the request reaches DowntimeMiddleware *)
| Handle (id : nat)               (* DowntimeHandler sets the flag, starts resetFunc *)
| Advance (d : Z)                 (* time passes *)
| Fire (id : nat).                (* resetFunc of request id wakes up *)

Definition second : Z := 1000 * 1000 * 1000.

Fixpoint remove_key (id : nat) (l : list (nat * Z)) : list (nat * Z) :=
  match l with
  | [] => []
  | (i, v) :: r => if Nat.eqb i id then r else (i, v) :: remove_key id r
  end.

Fixpoint find_key (id : nat) (l : list (nat * Z)) : option Z :=
  match l with
  | [] => None
  | (i, v) :: r => if Nat.eqb i id then Some v else find_key id r
  end.

(** One step of the system; [None] when the event cannot happen. *)
Definition step (st : dt_state) (e : dt_event) : option dt_state :=
  match e with
  | Arrive id r =>
      if downtimeActive st then
        (* c.AbortWithStatusJSON(503, {"error": "SERVICE_DOWN", ...}) *)
        Some {| downtimeActive := true; clock := clock st; timers := timers st;
                admitted := admitted st;
                short_circuited := (short_circuited st ++ [(id, 503%Z, "SERVICE_DOWN")])%list |}
      else
        match r with
        | RDowntime sec =>
            Some {| downtimeActive := false; clock := clock st; timers := timers st;
                    admitted := (admitted st ++ [(id, sec)])%list;
                    short_circuited := short_circuited st |}
        | ROther => Some st
        end
  | Handle id =>
      match find_key id (admitted st) with
      | Some sec =>
          Some {| downtimeActive := true; clock := clock st;
                  timers := (timers st ++ [(id, clock st + Net.slept (Net.dur sec second))])%list;
                  admitted := remove_key id (admitted st);
                  short_circuited := short_circuited st |}
      | None => None
      end
  | Advance d =>
      if (d <? 0)%Z then None
      else Some {| downtimeActive := downtimeActive st; clock := clock st + d;
                   timers := timers st; admitted := admitted st;
                   short_circuited := short_circuited st |}
  | Fire id =>
      match find_key id (timers st) with
      | Some wake =>
          if (wake <=? clock st)%Z
          then Some {| downtimeActive := false; clock := clock st;
                       timers := remove_key id (timers st); admitted := admitted st;
                       short_circuited := short_circuited st |}
          else None
      | None => None
      end
  end.

Fixpoint run (st : dt_state) (es : list dt_event) : option dt_state :=
  match es with
  | [] => Some st
  | e :: r => match step st e with Some st' => run st' r | None => None end
  end.

Definition init : dt_state :=
  {| downtimeActive := false; clock := 0; timers := []; admitted := [];
     short_circuited := [] |}.

End Downtime.

(* ------------------------------------------------------------------ *)
(** ** Concrete random sources used by the witnesses *)

(** ["\u00a0RANDOM:5:1 "]: led by a no-break space (U+00A0, bytes [C2 A0]). *)
Definition nbsp_random_5_1 : string :=
  String (ascii_of_nat 194) (String (ascii_of_nat 160) "RANDOM:5:1 ").

(** ["maintain_\u017fecond"]: [maintain_second] with a long s (U+017F, bytes
    [C5 BF]). *)
Definition maintain_long_s : string :=
  "maintain_" ++ String (ascii_of_nat 197) (String (ascii_of_nat 191) "econd").

(** A case table that leaves every rune above ASCII as it is. *)
Definition ul_self (r : Z) : Z := r.

(** Every draw is [0]. *)
Definition source_zero : Source := {| intn := fun _ _ => 0%Z; float64 := fun _ => 0%Q |}.

(** Every [Intn(n)] draw is [n - 1]; every [Float64] draw is [1/4]. *)
Definition source_top : Source :=
  {| intn := fun _ n => (n - 1)%Z; float64 := fun _ => (1 # 4)%Q |}.

(** A database whose attempts succeed, fail the ping and fail to open,
    in turn. *)
Definition att_cycle (n : nat) : Driver.attempt :=
  match (n mod 3)%nat with O => Driver.OpenOk | 1%nat => Driver.PingFail | _ => Driver.OpenFail end.

(** Ticker observations: two ticks before the deadline with an idle
    iteration between them, then ticks until after the deadline. *)
Definition obs_run : list Driver.obs :=
  [Driver.Tick false; Driver.Idle false; Driver.Tick false; Driver.Tick false; Driver.Tick true].

(** What the generator promises of a format: each required key exactly
    once, at most two distinct optional keys besides, at most seven keys, no
    key twice. *)
Definition format_invariants (ul : Z -> Z) (fmt : string) : Prop :=
  let keys := RandFormat.format_keys ul fmt in
  (forall r, In r RandFormat.requiredPlaceholders -> count_occ string_dec keys r = 1%nat) /\
  (exists opts, Permutation keys (RandFormat.requiredPlaceholders ++ opts) /\
     incl opts RandFormat.optionalPlaceholders /\ (List.length opts <= 2)%nat) /\
  (List.length keys <= 7)%nat /\ NoDup keys.

(** The response [NetworkStressMiddleware] gives a dropped request. *)
Definition packet_loss_abort : Net.mw_result :=
  Net.Abort 503 "SERVICE_UNAVAILABLE" "simulated packet loss, request dropped".

(** The requests of the race: request 1 ([downtime_second] 1) and request
    2 ([downtime_second] 100) both pass [DowntimeMiddleware] before either
    handler sets the flag (request 1 held, for instance, by the latency
    of [NetworkStressMiddleware]); request 2 arms first, request 1 after. *)
Definition downtime_race : list Downtime.dt_event :=
  [Downtime.Arrive 1 (Downtime.RDowntime 1); Downtime.Arrive 2 (Downtime.RDowntime 100); Downtime.Handle 2; Downtime.Handle 1;
   Downtime.Advance Downtime.second; Downtime.Fire 1].

(** A request context: [GET /simple] from [10.0.0.1], answered 200. *)
Definition sample_ctx : LogFmt.gin_ctx :=
  {| LogFmt.status := 200; LogFmt.method := "GET"; LogFmt.path := "/simple";
     LogFmt.client_ip := "10.0.0.1"; LogFmt.user_agent := "curl/8.0";
     LogFmt.proto := "HTTP/1.1"; LogFmt.content_length := 0; LogFmt.writer_size := 2048;
     LogFmt.now_rfc3339 := "2025-01-02T03:04:05Z"; LogFmt.now_format := fun l => l |}.

(* ------------------------------------------------------------------ *)
(** ** Configuration: [processPort], the startup delay, the services'
    individual variables, the log format ([src/config.go],
    [src/unnamed/part_003], [src/main.go], [src/external.go]) *)

Module Config.
Import Duck.
Local Open Scope Z_scope.

(** [processPort()] with [viper.GetString("PORT")] = [portStr]: an error
    of [processRandomInt] gives the port [8080]. *)
Definition processPort (g : Source) (portStr : string) (k : nat) : outcome Z * nat :=
  match processRandomInt g portStr 1024 65535 k with
  | (Ok port, k') => (Ok port, k')
  | (Fail _, k') => (Ok 8080, k')
  | (Panic, k') => (Panic, k')
  end.

(** The startup-delay step of [main] with [STARTUP_DELAY_SECOND] =
    [delayStr]: [Some d] sleeps [d] seconds; on an error it logs a warning
    and goes on without sleeping ([None]). *)
Definition startup_delay (g : Source) (delayStr : string) (k : nat)
    : outcome (option Z) * nat :=
  match processRandomInt g delayStr 1 5 k with
  | (Ok d, k') => (Ok (Some d), k')
  | (Fail _, k') => (Ok None, k')
  | (Panic, k') => (Panic, k')
  end.

(** Priority 3 of [GetMySQLConfig], [GetPostgresConfig],
    [GetRedshiftConfig] and [GetRedisConfig]: the host and the port of the
    individual variables; [notFound] is the service's error message and
    [defaultPort] its port (3306, 5432, 5439, 6379), passed to
    [processRandomInt] as both ends of the default range. *)
Definition individual_config (g : Source) (notFound host portStr : string)
    (defaultPort : Z) (k : nat) : outcome (string * Z) * nat :=
  if String.eqb host "" then (Fail (EMsg notFound), k)
  else
    match processRandomInt g portStr defaultPort defaultPort k with
    | (Ok port, k') => (Ok (host, port), k')
    | (Fail e, k') => (Fail e, k')
    | (Panic, k') => (Panic, k')
    end.

(** The preset formats of [initConfig] ([part_003]). *)
Definition apache_format : string :=
  "{client_ip} - - {time:%d/%m/%Y:%H:%M:%S} {method} {path} {status_code} -".
Definition nginx_format : string :=
  "{client_ip} - {time:%d/%b/%Y:%H:%M:%S} {method} {path} {status_code} {latency:ms}".
Definition full_format : string :=
  "{time} {status_code} {method} {path} {client_ip} {latency} " ++ RandFormat.dq
  ++ "{user_agent}" ++ RandFormat.dq ++ " {protocol} {request_size} {response_size}".

(** The [globalLogFormat] [initConfig] selects for [LOG_FORMAT] =
    [logFormat]. *)
Definition initConfig_format (ul : Z -> Z) (g : Source) (logFormat : string)
    : RandFormat.M string :=
  let l := Go.ToLower ul logFormat in
  if String.eqb l "apache" then RandFormat.ret apache_format
  else if String.eqb l "nginx" then RandFormat.ret nginx_format
  else if String.eqb l "full" then RandFormat.ret full_format
  else if String.eqb l "random" then RandFormat.generateRandomGlobalLogFormat g
  else RandFormat.ret logFormat.

End Config.

(* ------------------------------------------------------------------ *)
(** ** The strftime conversion under any map order
    ([convertTimeFormat], [src/logger_middleware.go]) *)

Module TimeFmt.

(** The map [replacements] of [convertTimeFormat]. *)
Definition replacements : list (string * string) :=
  [("%Y", "2006"); ("%m", "01"); ("%d", "02"); ("%H", "15"); ("%M", "04"); ("%S", "05")].

(** [convertTimeFormat] when the [range] over the map visits its entries
    in the order [order]. *)
Definition convertTimeFormat_in (order : list (string * string)) (format : string) : string :=
  fold_left (fun r kv => Go.ReplaceAll r (fst kv) (snd kv)) order format.

End TimeFmt.

(* ------------------------------------------------------------------ *)
(** ** Error injection and the middleware chain ([src/error_injection.go],
    [src/network_stress.go], [src/concurrency_ddos.go], [src/main.go]) *)

Module Inject.
Import Net.
Local Open Scope Z_scope.

Definition upper_ascii (a : ascii) : ascii :=
  let n := nat_of_ascii a in
  if ((97 <=? n) && (n <=? 122))%nat then ascii_of_nat (n - 32) else a.

(** [strings.ToUpper] (ASCII) *)
Fixpoint ToUpper (s : string) : string :=
  match s with
  | EmptyString => EmptyString
  | String a r => String (upper_ascii a) (ToUpper r)
  end.

(** [ErrorJSON(c, status, errorType, message)] followed by [c.Abort()]:
    the status, the error code and the message of the reply.  The calls
    modelled here pass ASCII texts, which [strings.ToUpper] and
    [strings.ToLower] map bytewise. *)
Definition ErrorJSON (status : Z) (errorType message : string) : mw_result :=
  Abort status (ToUpper errorType) (Go.lower_bytes message).

(** [activeErrorRate] and [errorInjectionExpiry] (nanoseconds). *)
Record ei_state := {
  activeErrorRate : Q;
  errorInjectionExpiry : Z
}.

(** [ErrorInjectionMiddleware] for a request reaching it at [now], with
    [k] the next draw: the result and the next draw. *)
Definition ErrorInjectionMiddleware (g : Source) (st : ei_state) (now : Z) (k : nat)
    : mw_result * nat :=
  if (now <? errorInjectionExpiry st) && RandFormat.qlt 0 (activeErrorRate st) then
    if RandFormat.qlt (float64 g k) (activeErrorRate st)
    then (ErrorJSON 500 "RANDOM_ERROR" "simulated random error injection", S k)
    else (Continue, S k)
  else (Continue, k).

(** [ErrorInjectionHandler] at [now]: the rate and the expiry it sets. *)
Definition set_error_injection (now : Z) (rate : Q) (durationSec : Z) : ei_state :=
  {| activeErrorRate := rate; errorInjectionExpiry := now + dur durationSec second |}.

(** Its [resetFunc], after the sleep. *)
Definition reset_error_rate (st : ei_state) : ei_state :=
  {| activeErrorRate := 0; errorInjectionExpiry := errorInjectionExpiry st |}.

(** The first critical section of [setLatency] ([NetworkLatencyHandler]),
    run at [now]. *)
Definition set_latency (st : net_state) (now latencyMs maintainSec : Z) : net_state :=
  {| activeLatencyMs := latencyMs; latencyExpiry := now + dur maintainSec second;
     activePacketLoss := activePacketLoss st; packetLossExpiry := packetLossExpiry st |}.

(** The second critical section of [setLatency], after the sleep. *)
Definition reset_latency (st : net_state) : net_state :=
  {| activeLatencyMs := 0; latencyExpiry := latencyExpiry st;
     activePacketLoss := activePacketLoss st; packetLossExpiry := packetLossExpiry st |}.

(** [DowntimeMiddleware] with [downtimeActive] = [active]. *)
Definition DowntimeMiddleware (active : bool) : mw_result :=
  if active then Abort 503 "SERVICE_DOWN" "Service is temporarily unavailable"
  else Continue.

(** The end of the router's chain in [main]: [DowntimeMiddleware],
    [NetworkStressMiddleware], [ErrorInjectionMiddleware], for a request
    reaching it at [now] (the middlewares before them always call
    [c.Next()]): the time slept, the result and the next draw.
    [ErrorInjectionMiddleware] reads the clock after the sleep. *)
Definition middleware_chain (g : Source) (downtimeActive : bool) (ns : net_state)
    (ei : ei_state) (now : Z) (k : nat) : Z * mw_result * nat :=
  match DowntimeMiddleware downtimeActive with
  | Abort s e m => (0, Abort s e m, k)
  | Continue =>
      let '(delay, r, k1) := NetworkStressMiddleware g ns now k in
      match r with
      | Abort s e m => (delay, Abort s e m, k1)
      | Continue =>
          let '(r2, k2) := ErrorInjectionMiddleware g ei (now + delay) k1 in
          (delay, r2, k2)
      end
  end.

End Inject.

(* ================================================================== *)
(** * Proofs *)

Module StrFacts.

Lemma append_empty_r (s : string) : (s ++ "")%string = s.
Proof. induction s as [| a s IH]; simpl; [reflexivity | now rewrite IH]. Qed.

Lemma append_assoc (a b c : string) : (a ++ (b ++ c))%string = ((a ++ b) ++ c)%string.
Proof. induction a as [| x a IH]; simpl; [reflexivity | now rewrite IH]. Qed.

End StrFacts.

Module DuckProofs.
Import Duck StrFacts.

Lemma wrap64_small (z : Z) : (- 2 ^ 63 <= z < 2 ^ 63)%Z -> Go.wrap64 z = z.
Proof.
  intro H. unfold Go.wrap64.
  rewrite Z.mod_small by lia. lia.
Qed.

Lemma in_int64_iff (z : Z) : Go.in_int64 z = true <-> (- 2 ^ 63 <= z < 2 ^ 63)%Z.
Proof.
  unfold Go.in_int64. rewrite andb_true_iff, Z.leb_le, Z.ltb_lt. tauto.
Qed.

Lemma source_zero_valid : valid_source source_zero.
Proof.
  split; simpl; intros.
  - lia.
  - unfold Qle, Qlt; simpl; lia.
Qed.

Lemma source_top_valid : valid_source source_top.
Proof.
  split; simpl; intros.
  - lia.
  - unfold Qle, Qlt; simpl; lia.
Qed.

(** [draw_between] stays in [[start, end_)] when [end_ - start] fits. *)
Lemma draw_between_range (g : Source) (k : nat) (start end_ : Z) :
  valid_source g ->
  Go.in_int64 start = true -> Go.in_int64 end_ = true ->
  (start < end_)%Z -> (end_ - start < 2 ^ 63)%Z ->
  exists v, draw_between g k start end_ = Ok v /\ (start <= v < end_)%Z.
Proof.
  intros [Hi _] Hs He Hlt Hfit.
  apply in_int64_iff in Hs, He.
  unfold draw_between, rand_Intn.
  rewrite wrap64_small by lia.
  destruct (Z.leb_spec (end_ - start) 0); [lia |].
  specialize (Hi k (end_ - start)%Z ltac:(lia)).
  exists (intn g k (end_ - start) + start)%Z.
  rewrite wrap64_small by lia. split; [reflexivity | lia].
Qed.

(** [draw_between] panics when [end_ - start] overflows. *)
Lemma draw_between_overflow (g : Source) (k : nat) (start end_ : Z) :
  Go.in_int64 start = true -> Go.in_int64 end_ = true ->
  (2 ^ 63 <= end_ - start)%Z ->
  draw_between g k start end_ = Panic.
Proof.
  intros Hs He Hbig. apply in_int64_iff in Hs, He.
  unfold draw_between, rand_Intn, Go.wrap64.
  assert (Hw : ((end_ - start + 2 ^ 63) mod 2 ^ 64 - 2 ^ 63 <= 0)%Z).
  { rewrite (Z.mod_eq (end_ - start + 2 ^ 63) (2 ^ 64)) by lia.
    assert (Hq : ((end_ - start + 2 ^ 63) / 2 ^ 64 = 1)%Z).
    { symmetry. apply Z.div_unique with (r := (end_ - start + 2 ^ 63 - 2 ^ 64)%Z); lia. }
    rewrite Hq. lia. }
  destruct (Z.leb_spec ((end_ - start + 2 ^ 63) mod 2 ^ 64 - 2 ^ 63) 0); [reflexivity | lia].
Qed.

Fixpoint no_char (c : ascii) (s : string) : bool :=
  match s with
  | EmptyString => true
  | String a r => negb (Ascii.eqb a c) && no_char c r
  end.

Lemma split_acc_app (sep : ascii) (cur s rest : string) :
  no_char sep s = true ->
  Go.split_acc sep cur (s ++ rest) = Go.split_acc sep (cur ++ s) rest.
Proof.
  revert cur. induction s as [| a s IH]; intros cur H; simpl in *.
  - rewrite append_empty_r. reflexivity.
  - apply andb_prop in H as [Ha Hs].
    destruct (Ascii.eqb a sep) eqn:E; [discriminate |].
    rewrite IH by exact Hs. rewrite <- append_assoc. reflexivity.
Qed.

Lemma split_acc_last (sep : ascii) (cur s : string) :
  no_char sep s = true -> Go.split_acc sep cur s = [(cur ++ s)%string].
Proof.
  intro H. rewrite <- (append_empty_r s) at 1.
  rewrite split_acc_app by exact H. reflexivity.
Qed.

Lemma split_random (sa sb : string) :
  no_char ":" sa = true -> no_char ":" sb = true ->
  Go.Split ("RANDOM:" ++ sa ++ ":" ++ sb) ":" = ["RANDOM"; sa; sb].
Proof.
  intros Ha Hb. unfold Go.Split. simpl.
  rewrite split_acc_app by exact Ha. simpl.
  rewrite split_acc_last by exact Hb. reflexivity.
Qed.

Lemma eqb_random_colon (x : string) : String.eqb ("RANDOM:" ++ x) "RANDOM" = false.
Proof. reflexivity. Qed.

Lemma hasprefix_random_colon (x : string) : Go.HasPrefix ("RANDOM:" ++ x) "RANDOM:" = true.
Proof. reflexivity. Qed.

Lemma Atoi_in_int64 (s : string) (z : Z) :
  Go.Atoi s = inl z -> Go.in_int64 z = true.
Proof.
  unfold Go.Atoi.
  destruct (match s with
            | String a r => if Ascii.eqb a "-" then (true, r)
                            else if Ascii.eqb a "+" then (false, r) else (false, s)
            | EmptyString => (false, s) end) as [neg body].
  destruct body as [| c r]; [discriminate |].
  destruct (Go.digits_acc 0 (String c r)) as [v |]; [| discriminate].
  destruct (Go.in_int64 (if neg then (- v)%Z else v)) eqn:E; [| discriminate].
  intro H; injection H as <-; exact E.
Qed.

(** The range part of [processRandomInt] after its syntax checks. *)
Lemma processRandomInt_random_colon (g : Source) (value sa sb : string) (ds de : Z) (k : nat) :
  Go.TrimSpace value = ("RANDOM:" ++ sa ++ ":" ++ sb)%string ->
  no_char ":" sa = true -> no_char ":" sb = true ->
  forall a b, Go.Atoi sa = inl a -> Go.Atoi sb = inl b ->
  processRandomInt g value ds de k =
    if (b <=? a)%Z
    then (Fail (EMsg "invalid RANDOM range for integer: start must be less than end"), k)
    else (draw_between g k a b, S k).
Proof.
  intros Ht Ha Hb a b Hsa Hsb.
  unfold processRandomInt. rewrite Ht, eqb_random_colon, hasprefix_random_colon.
  rewrite split_random by assumption. simpl nth.
  rewrite Hsa, Hsb. reflexivity.
Qed.

Lemma processRandomValue_random_colon (g : Source) (t sa sb : string) (k : nat) :
  t = ("RANDOM:" ++ sa ++ ":" ++ sb)%string ->
  no_char ":" sa = true -> no_char ":" sb = true ->
  forall a b, Go.Atoi sa = inl a -> Go.Atoi sb = inl b ->
  processRandomValue g t k =
    if (b <=? a)%Z
    then (Fail (EMsg "invalid RANDOM range: start must be less than end"), k)
    else match draw_between g k a b with
         | Ok v => (Ok (RVInt v), S k)
         | Fail e => (Fail e, S k)
         | Panic => (Panic, S k)
         end.
Proof.
  intros Ht Ha Hb a b Hsa Hsb. subst t.
  unfold processRandomValue. rewrite eqb_random_colon, hasprefix_random_colon.
  rewrite split_random by assumption. simpl nth.
  rewrite Hsa, Hsb. reflexivity.
Qed.

Lemma DuckInt_string (g : Source) (s : string) (k : nat) :
  DuckInt_UnmarshalJSON g (JString s) k =
  let '(v, k') := processRandomValue g (Go.TrimSpace s) k in
  match v with
  | Fail e => (Fail e, k')
  | Panic => (Panic, k')
  | Ok (RVInt val) => (Ok val, k')
  | Ok (RVString val) => (of_atoi (Go.Atoi val), k')
  end.
Proof. reflexivity. Qed.

(** The range law of [processRandomInt] for ranges whose width fits in
    an [int]. *)
Lemma processRandomInt_range (g : Source) (value sa sb : string) (ds de : Z) (k : nat) :
  valid_source g ->
  Go.TrimSpace value = ("RANDOM:" ++ sa ++ ":" ++ sb)%string ->
  no_char ":" sa = true -> no_char ":" sb = true ->
  forall a b, Go.Atoi sa = inl a -> Go.Atoi sb = inl b ->
  (a < b)%Z -> (b - a < 2 ^ 63)%Z ->
  exists v, processRandomInt g value ds de k = (Ok v, S k) /\ (a <= v < b)%Z.
Proof.
  intros Hg Ht Ha Hb a b Hsa Hsb Hlt Hfit.
  rewrite (processRandomInt_random_colon g value sa sb ds de k Ht Ha Hb a b Hsa Hsb).
  destruct (Z.leb_spec b a); [lia |].
  destruct (draw_between_range g k a b Hg (Atoi_in_int64 _ _ Hsa) (Atoi_in_int64 _ _ Hsb) Hlt Hfit)
    as [v [Hv Hr]].
  exists v. rewrite Hv. split; [reflexivity | exact Hr].
Qed.

End DuckProofs.

(* ------------------------------------------------------------------ *)
(** ** DuckValue claims *)

Import DuckProofs.

(** C1 (defect): a [DuckInt] field given the JSON string ["RANDOM"] never
    decodes: [processRandomValue] turns ["RANDOM"] into the string
    ["randomValue-<n>"], which [strconv.Atoi] rejects; a stress handler
    then answers 400 [INVALID_PAYLOAD].  This holds for every random
    source and draw index. *)
Theorem DuckInt_RANDOM_rejected (g : Source) (k : nat) :
  Duck.DuckInt_UnmarshalJSON g (Duck.JString "RANDOM") k
    = (Duck.Fail (Duck.EParse Go.NumSyntax), S k) /\
  Duck.MySQLHeavyHandler_front g [("maintain_second", Duck.JString "RANDOM")] k
    = Duck.Respond 400 "INVALID_PAYLOAD".
Proof. split; reflexivity. Qed.

(** C2 (counterexample): the range error of ["RANDOM:5:1"] reaches the
    caller as 400 [INVALID_PAYLOAD], not as [INVALID_RANGE]. *)
Lemma duck_range_error_code_counterexample :
  Duck.MySQLHeavyHandler_front source_zero
    [("maintain_second", Duck.JString "RANDOM:5:1")] 0
    = Duck.Respond 400 "INVALID_PAYLOAD" /\
  Duck.MySQLHeavyHandler_front source_zero
    [("maintain_second", Duck.JString "RANDOM:5:1")] 0
    <> Duck.Respond 400 "INVALID_RANGE".
Proof. split; [reflexivity | discriminate]. Qed.

(** C2 (amended): for [RANDOM:<a>:<b>] (after [strings.TrimSpace]) whose
    bounds parse and [a >= b], [DuckInt], [processRandomInt] and [DuckFloat]
    fail with a plain range error and a stress handler given it under a
    member name that selects one of its [DuckInt] fields answers HTTP 400
    [INVALID_PAYLOAD] without starting a job; a string that is neither
    ["RANDOM"] nor starts with ["RANDOM:"] and does not parse as a number
    fails with the number parser's error. *)
Theorem duck_rejection_law :
  (forall (g : Source) (k : nat) (s sa sb : string) (a b ds de : Z),
     Go.TrimSpace s = ("RANDOM:" ++ sa ++ ":" ++ sb)%string ->
     no_char ":" sa = true -> no_char ":" sb = true ->
     Go.Atoi sa = inl a -> Go.Atoi sb = inl b -> (b <= a)%Z ->
     (exists msg, Duck.DuckInt_UnmarshalJSON g (Duck.JString s) k
                  = (Duck.Fail (Duck.EMsg msg), k)) /\
     (exists msg, Duck.processRandomInt g s ds de k = (Duck.Fail (Duck.EMsg msg), k)) /\
     (forall name f rest, In f Duck.MySQLHeavyPayload_fields ->
        Duck.name_matches name f = true ->
        Duck.MySQLHeavyHandler_front g ((name, Duck.JString s) :: rest) k
        = Duck.Respond 400 "INVALID_PAYLOAD")) /\
  (forall (g : Source) (ParseFloat : string -> option Q) (k : nat) (s sa sb : string) (a b : Q),
     Go.TrimSpace s = ("RANDOM:" ++ sa ++ ":" ++ sb)%string ->
     no_char ":" sa = true -> no_char ":" sb = true ->
     ParseFloat sa = Some a -> ParseFloat sb = Some b -> (b <= a)%Q ->
     exists msg, Duck.DuckFloat_UnmarshalJSON g ParseFloat (Duck.JString s) k
                 = (Duck.Fail (Duck.EMsg msg), k)) /\
  (forall (g : Source) (k : nat) (s : string) (ds de : Z) (e : Go.num_error),
     Go.TrimSpace s <> "RANDOM" -> Go.HasPrefix (Go.TrimSpace s) "RANDOM:" = false ->
     Go.Atoi (Go.TrimSpace s) = inr e ->
     Duck.DuckInt_UnmarshalJSON g (Duck.JString s) k = (Duck.Fail (Duck.EParse e), k) /\
     Duck.processRandomInt g s ds de k = (Duck.Fail (Duck.EParse e), k)) /\
  (forall (g : Source) (ParseFloat : string -> option Q) (k : nat) (s : string),
     Go.TrimSpace s <> "RANDOM" -> Go.HasPrefix (Go.TrimSpace s) "RANDOM:" = false ->
     ParseFloat (Go.TrimSpace s) = None ->
     Duck.DuckFloat_UnmarshalJSON g ParseFloat (Duck.JString s) k
     = (Duck.Fail Duck.EFloatParse, k)).
Proof.
  split; [| split; [| split]].
  - intros g k s sa sb a b ds de Ht Ha Hb Hsa Hsb Hle.
    assert (Hb' : (b <=? a)%Z = true) by (apply Z.leb_le; exact Hle).
    assert (Hint : Duck.DuckInt_UnmarshalJSON g (Duck.JString s) k
                   = (Duck.Fail (Duck.EMsg "invalid RANDOM range: start must be less than end"), k)).
    { rewrite DuckInt_string.
      rewrite (processRandomValue_random_colon g _ sa sb k Ht Ha Hb a b Hsa Hsb), Hb'.
      reflexivity. }
    split; [| split].
    + eexists. exact Hint.
    + eexists. rewrite (processRandomInt_random_colon g s sa sb ds de k Ht Ha Hb a b Hsa Hsb), Hb'.
      reflexivity.
    + intros name f rest Hin Hm.
      unfold Duck.MySQLHeavyHandler_front. cbn [Duck.bind_duck_ints].
      destruct (find (Duck.name_matches name) Duck.MySQLHeavyPayload_fields) eqn:Hf.
      * rewrite Hint. reflexivity.
      * apply (find_none _ _ Hf) in Hin. congruence.
  - intros g pf k s sa sb a b Ht Ha Hb Hsa Hsb Hle.
    eexists. unfold Duck.DuckFloat_UnmarshalJSON.
    rewrite Ht, eqb_random_colon, hasprefix_random_colon, split_random by assumption.
    simpl nth. rewrite Hsa, Hsb.
    assert (Hq : Qle_bool b a = true) by (apply Qle_bool_iff; exact Hle).
    rewrite Hq. reflexivity.
  - intros g k s ds de e Hne Hp Ha. split.
    + rewrite DuckInt_string. unfold Duck.processRandomValue.
      apply String.eqb_neq in Hne. rewrite Hne, Hp. simpl. rewrite Ha. reflexivity.
    + unfold Duck.processRandomInt.
      apply String.eqb_neq in Hne. rewrite Hne, Hp, Ha. reflexivity.
  - intros g pf k s Hne Hp Hn.
    unfold Duck.DuckFloat_UnmarshalJSON.
    apply String.eqb_neq in Hne. rewrite Hne, Hp, Hn. reflexivity.
Qed.

(** C2: the rejection law at ["RANDOM:5:1"] led by a no-break space
    (U+00A0) and followed by a space, under the member name
    ["maintain_\u017fecond"] (with a long s), at ["RANDOM:2.5:1"] and at
    ["abc"]. *)
Lemma duck_rejection_law_witness :
  (exists msg, Duck.DuckInt_UnmarshalJSON source_zero (Duck.JString nbsp_random_5_1) 0
               = (Duck.Fail (Duck.EMsg msg), 0%nat)) /\
  Duck.MySQLHeavyHandler_front source_zero [(maintain_long_s, Duck.JString nbsp_random_5_1)] 0
    = Duck.Respond 400 "INVALID_PAYLOAD" /\
  (exists msg, Duck.DuckFloat_UnmarshalJSON source_zero
                 (fun x => if String.eqb x "2.5" then Some (5 # 2)%Q
                           else if String.eqb x "1" then Some 1%Q else None)
                 (Duck.JString "RANDOM:2.5:1") 0 = (Duck.Fail (Duck.EMsg msg), 0%nat)) /\
  Duck.DuckInt_UnmarshalJSON source_zero (Duck.JString "abc") 0
    = (Duck.Fail (Duck.EParse Go.NumSyntax), 0%nat) /\
  Duck.DuckFloat_UnmarshalJSON source_zero (fun _ => None) (Duck.JString "abc") 0
    = (Duck.Fail Duck.EFloatParse, 0%nat).
Proof.
  destruct duck_rejection_law as [H1 [H2 [H3 H4]]].
  split; [| split; [| split; [| split]]].
  - apply (H1 source_zero 0%nat nbsp_random_5_1 "5" "1" 5%Z 1%Z 0%Z 0%Z);
      try reflexivity; lia.
  - refine (proj2 (proj2 (H1 source_zero 0%nat nbsp_random_5_1 "5" "1" 5%Z 1%Z 0%Z 0%Z
                             _ _ _ _ _ _)) maintain_long_s "maintain_second" [] _ _);
      try reflexivity; try lia.
    + simpl. tauto.
  - apply (H2 source_zero _ 0%nat "RANDOM:2.5:1" "2.5" "1" (5 # 2)%Q 1%Q);
      try reflexivity. unfold Qle; simpl; lia.
  - apply (H3 source_zero 0%nat "abc" 0%Z 0%Z Go.NumSyntax); try reflexivity; discriminate.
  - apply (H4 source_zero _ 0%nat "abc"); try reflexivity; discriminate.
Defined.

(** C7 (defect): with bounds whose difference overflows an [int], the
    draw [rand.Intn(end-start)] receives a negative argument and panics,
    in [processRandomInt] and in the [DuckInt] path alike, though
    [start < end]. *)
Theorem random_range_overflow_panics (g : Source) (k : nat) (ds de : Z) :
  fst (Duck.processRandomInt g "RANDOM:-9223372036854775808:9223372036854775807" ds de k)
    = Duck.Panic /\
  fst (Duck.DuckInt_UnmarshalJSON g
         (Duck.JString "RANDOM:-9223372036854775808:9223372036854775807") k)
    = Duck.Panic.
Proof. split; vm_compute; reflexivity. Qed.

(* ------------------------------------------------------------------ *)
(** ** Log template claims *)

Module LogProofs.
Import LogFmt StrFacts.

Lemma concat_chars (buf : string) :
  concat_strings (map unscan_seg (map SChar (list_ascii_of_string buf))) = buf.
Proof. induction buf as [| a r IH]; simpl; [reflexivity | now rewrite IH]. Qed.

(** The matches and the bytes between them spell the format back. *)
Lemma scan_unscan (s : string) :
  concat_strings (map unscan_seg (scan_out s)) = s /\
  (forall buf, concat_strings (map unscan_seg (scan_in buf s)) = ("{" ++ buf ++ s)%string).
Proof.
  induction s as [| a r [IHo IHi]].
  - split; [reflexivity |]. intro buf. simpl. rewrite concat_chars.
    now rewrite append_empty_r.
  - split.
    + simpl. destruct (Ascii.eqb_spec a "{") as [-> | _].
      * rewrite IHi. reflexivity.
      * simpl. now rewrite IHo.
    + intro buf. simpl. destruct (Ascii.eqb_spec a "}") as [-> | _].
      * destruct buf as [| b buf']; simpl; rewrite IHo; [reflexivity |].
        rewrite <- append_assoc. reflexivity.
      * rewrite IHi. simpl. rewrite <- append_assoc. reflexivity.
Qed.

Ltac key_cases :=
  repeat match goal with
  | |- context [String.eqb ?k ?lit] =>
      let E := fresh "E" in
      destruct (String.eqb_spec k lit) as [E | E]; [subst; simpl | ]
  end.

(** [resolvePlaceholder] errs exactly on a key outside the closed set. *)
Lemma resolvePlaceholder_none_iff (ul : Z -> Z) (content : string) (c : gin_ctx) (latency : Z) :
  resolvePlaceholder ul content c latency = None <->
  ~ In (fst (split_content ul content)) supported_keys.
Proof.
  unfold resolvePlaceholder. destruct (split_content ul content) as [key unitSpec]. simpl.
  key_cases; try (split; [discriminate | intro H; exfalso; apply H; simpl; tauto]).
  split; [intros _ H | reflexivity].
  simpl in H. intuition congruence.
Qed.

End LogProofs.

Import LogProofs.

(** C3 (counterexample): with no unit, a latency of 10^9 ns renders as
    ["1s"], not ["1.000s"]. *)
Lemma latency_auto_scale_counterexample :
  LogFmt.resolvePlaceholder ul_self "latency" sample_ctx 1000000000 = Some "1s" /\
  LogFmt.resolvePlaceholder ul_self "latency" sample_ctx 1000000000 <> Some "1.000s".
Proof. split; vm_compute; [reflexivity | discriminate]. Qed.

(** C3 (amended): a latency of exactly 10^9 ns renders as ["1"] under
    [s], ["1000"] under [ms], and with no unit as ["1s"]; the form with no
    unit has no fixed number of decimals: 1.5 * 10^9 ns renders as
    ["1.5s"], 1999999999 ns as ["1.9999999990000001s"], 2.5 * 10^6 ns as
    ["2.5ms"], 1500 ns as ["1.5\u03bcs"] and 999 ns as ["999ns"]. *)
Theorem latency_one_second_rendering (ul : Z -> Z) (c : LogFmt.gin_ctx) :
  LogFmt.resolvePlaceholder ul "latency:s" c 1000000000 = Some "1" /\
  LogFmt.resolvePlaceholder ul "latency:ms" c 1000000000 = Some "1000" /\
  LogFmt.resolvePlaceholder ul "latency" c 1000000000 = Some "1s" /\
  LogFmt.resolvePlaceholder ul "latency" c 1500000000 = Some "1.5s" /\
  LogFmt.resolvePlaceholder ul "latency" c 1999999999 = Some "1.9999999990000001s" /\
  LogFmt.resolvePlaceholder ul "latency" c 2500000 = Some "2.5ms" /\
  LogFmt.resolvePlaceholder ul "latency" c 1500 = Some ("1.5" ++ LogFmt.micro_s) /\
  LogFmt.resolvePlaceholder ul "latency" c 999 = Some "999ns".
Proof. repeat split; vm_compute; reflexivity. Qed.

(** C9: rendering a format never fails: it is the format's bytes outside
    the placeholders, unchanged, with each placeholder replaced by its
    value; a placeholder whose key is outside the closed set (and only
    such a one) makes [resolvePlaceholder] fail, and it alone renders as
    ["ERR"]; for every case table [ul]. *)
Theorem FormatLogMessage_unknown_key_ERR (ul : Z -> Z) (format : string) (c : LogFmt.gin_ctx)
    (latency : Z) :
  LogFmt.concat_strings (map LogFmt.unscan_seg (LogFmt.scan format)) = format /\
  LogFmt.FormatLogMessage ul format c latency
    = LogFmt.concat_strings (map (LogFmt.render_seg ul c latency) (LogFmt.scan format)) /\
  (forall a, LogFmt.render_seg ul c latency (LogFmt.SChar a) = String a EmptyString) /\
  (forall m,
     let content := Go.Trim ("{" ++ m ++ "}") "{}" in
     (~ In (fst (LogFmt.split_content ul content)) LogFmt.supported_keys ->
        LogFmt.render_seg ul c latency (LogFmt.SPh m) = "ERR") /\
     (In (fst (LogFmt.split_content ul content)) LogFmt.supported_keys ->
        exists v, LogFmt.resolvePlaceholder ul content c latency = Some v /\
                  LogFmt.render_seg ul c latency (LogFmt.SPh m) = v)).
Proof.
  split; [apply scan_unscan |]. split; [reflexivity |]. split; [reflexivity |].
  intros m content. split.
  - intro Hk. simpl. unfold LogFmt.replace_match. fold content.
    apply resolvePlaceholder_none_iff with (c := c) (latency := latency) in Hk.
    rewrite Hk. reflexivity.
  - intro Hk. simpl. unfold LogFmt.replace_match. fold content.
    destruct (LogFmt.resolvePlaceholder ul content c latency) as [v |] eqn:E.
    + exists v. split; reflexivity.
    + apply resolvePlaceholder_none_iff in E. contradiction.
Qed.

(* ------------------------------------------------------------------ *)
(** ** Random log format claims *)

Module RandFormatProofs.
Import LogFmt StrFacts DuckProofs.

(** A text that scanning splits at its end: what follows is scanned on
    its own. *)
Definition closed (s : string) : Prop :=
  forall y, scan_out (s ++ y) = (scan_out s ++ scan_out y)%list.

Lemma closed_plain (s : string) : no_char "{" s = true -> closed s.
Proof.
  induction s as [| a r IH]; intros H y; simpl in *; [reflexivity |].
  apply andb_prop in H as [Ha Hr].
  destruct (Ascii.eqb a "{"); [discriminate |].
  rewrite IH by exact Hr. reflexivity.
Qed.

Lemma closed_app (x y : string) : closed x -> closed y -> closed (x ++ y).
Proof.
  intros Hx Hy z. rewrite <- append_assoc, Hx, Hy, Hx, app_assoc. reflexivity.
Qed.

Lemma scan_in_skip (c buf rest : string) :
  no_char "}" c = true ->
  scan_in buf (c ++ rest) = scan_in (buf ++ c) rest.
Proof.
  revert buf. induction c as [| a r IH]; intros buf H; simpl in *.
  - now rewrite append_empty_r.
  - apply andb_prop in H as [Ha Hr].
    destruct (Ascii.eqb a "}"); [discriminate |].
    rewrite IH by exact Hr. rewrite <- append_assoc. reflexivity.
Qed.

Lemma scan_placeholder (c rest : string) :
  c <> EmptyString -> no_char "}" c = true ->
  scan_out ("{" ++ c ++ "}" ++ rest) = SPh c :: scan_out rest.
Proof.
  intros Hne Hc. simpl. rewrite scan_in_skip by exact Hc. simpl.
  destruct c; [contradiction | reflexivity].
Qed.

Lemma closed_placeholder (c : string) :
  c <> EmptyString -> no_char "}" c = true -> closed ("{" ++ c ++ "}").
Proof.
  intros Hne Hc y.
  assert (E1 : (("{" ++ c ++ "}") ++ y)%string = ("{" ++ c ++ "}" ++ y)%string)
    by (now rewrite <- !append_assoc).
  assert (E2 : ("{" ++ c ++ "}")%string = ("{" ++ c ++ "}" ++ "")%string)
    by (now rewrite append_empty_r).
  rewrite E1, scan_placeholder by assumption.
  rewrite E2, scan_placeholder by assumption. reflexivity.
Qed.

(** The inner texts of the matches. *)
Definition ph_contents (l : list seg) : list string :=
  flat_map (fun s => match s with SChar _ => [] | SPh m => [m] end) l.

Lemma ph_contents_app (l1 l2 : list seg) :
  ph_contents (l1 ++ l2) = (ph_contents l1 ++ ph_contents l2)%list.
Proof. unfold ph_contents. apply flat_map_app. Qed.

Lemma ph_contents_plain (s : string) : no_char "{" s = true -> ph_contents (scan_out s) = [].
Proof.
  induction s as [| a r IH]; intro H; simpl in *; [reflexivity |].
  apply andb_prop in H as [Ha Hr].
  destruct (Ascii.eqb a "{"); [discriminate |]. simpl. apply IH, Hr.
Qed.

Section Keys.

(** [unicode.ToLower]'s case table above ASCII. *)
Variable ul : Z -> Z.

(** The keys of the matches of a text. *)
Definition key_of_match (m : string) : string :=
  fst (split_content ul (Go.Trim ("{" ++ m ++ "}") "{}")).

Definition text_keys (s : string) : list string := map key_of_match (ph_contents (scan_out s)).

Lemma format_keys_text_keys (s : string) : RandFormat.format_keys ul s = text_keys s.
Proof.
  unfold RandFormat.format_keys, text_keys, scan, ph_contents, key_of_match.
  generalize (scan_out s) as l. intro l.
  induction l as [| x l IH]; [reflexivity |].
  destruct x; cbn [flat_map map app]; [exact IH | f_equal; exact IH].
Qed.

Import RandFormat.

Lemma bind_some {A B} (m : M A) (f : A -> M B) (k k'' : nat) (b : B) :
  bind m f k = Some (b, k'') -> exists a k', m k = Some (a, k') /\ f a k' = Some (b, k'').
Proof.
  unfold bind. destruct (m k) as [[a k'] |]; [intro H; now exists a, k' | discriminate].
Qed.

Lemma ret_some {A} (a b : A) (k k' : nat) : ret a k = Some (b, k') -> a = b /\ k = k'.
Proof. unfold ret. intro H. now injection H. Qed.

Lemma index_some {A} (l : list A) (i : Z) (k k' : nat) (a : A) :
  index l i k = Some (a, k') -> In a l /\ k' = k.
Proof.
  unfold index. destruct (i <? 0)%Z; [discriminate |].
  destruct (nth_error l (Z.to_nat i)) as [x |] eqn:E; [| discriminate].
  intro H. injection H as <- <-. split; [eapply nth_error_In; exact E | reflexivity].
Qed.

Ltac m_inv :=
  repeat match goal with
  | H : bind _ _ _ = Some _ |- _ => apply bind_some in H as (? & ? & ? & H)
  | H : ret _ _ = Some _ |- _ => apply ret_some in H as [? ?]; subst
  | H : generateRandomTimeFormat _ _ = Some _ |- _ => unfold generateRandomTimeFormat in H
  | H : index _ _ _ = Some _ |- _ => apply index_some in H as [? ?]
  | H : In _ [] |- _ => destruct H
  | H : In _ (_ :: _) |- _ => destruct H as [<- | H]
  end.
Ltac eval_eqb H :=
    repeat match type of H with context [String.eqb ?x ?y] =>
      let v := eval vm_compute in (String.eqb x y) in change (String.eqb x y) with v in H end;
    cbv beta iota delta [orb] in H.

Definition time_formats : list string :=
  map (fun sep => "%Y" ++ sep ++ "%m" ++ sep ++ "%d" ++ "T" ++ "%H" ++ sep ++ "%M" ++ sep ++ "%S")
      ["-"; "/"; ":"; "."].

(** Every placeholder text [add_unit] can give, with its name. *)
Definition content_table : list (string * string) :=
  [("time", "time")] ++
  map (fun tf => ("time", "time:" ++ tf)) time_formats ++
  map (fun u => ("latency", "latency:" ++ u)) ["s"; "ms"; "micros"; "ns"] ++
  map (fun u => ("request_size", "request_size:" ++ u)) ["b"; "kb"; "mb"; "gb"] ++
  map (fun u => ("response_size", "response_size:" ++ u)) ["b"; "kb"; "mb"; "gb"] ++
  map (fun n => (n, n)) ["status_code"; "method"; "path"; "client_ip"; "user_agent"; "protocol"].

Definition entry_ok (e : string * string) : bool :=
  let '(n, c) := e in
  negb (String.eqb c "") && no_char "}" c && no_char "{" c &&
  String.eqb (key_of_match c) n.

Lemma content_table_ok : forallb entry_ok content_table = true.
Proof. vm_compute. reflexivity. Qed.

Lemma content_entry (n c : string) :
  In (n, c) content_table ->
  c <> EmptyString /\ no_char "}" c = true /\ no_char "{" c = true /\ key_of_match c = n.
Proof.
  intro Hin. pose proof (proj1 (forallb_forall _ _) content_table_ok _ Hin) as H.
  simpl in H. apply andb_prop in H as [H H4]. apply andb_prop in H as [H H3].
  apply andb_prop in H as [H1 H2].
  repeat split; try assumption.
  - intro E. subst c. discriminate.
  - apply String.eqb_eq. exact H4.
Qed.

Definition all_names : list string := (requiredPlaceholders ++ optionalPlaceholders)%list.

Lemma pick_entry (n s : string) :
  existsb (fun e => String.eqb (fst e) n && String.eqb ("{" ++ snd e ++ "}") s) content_table = true ->
  exists c, s = ("{" ++ c ++ "}")%string /\ In (n, c) content_table.
Proof.
  intro H. apply existsb_exists in H as [[n' c] [Hin H]]. cbn [fst snd] in H.
  apply andb_prop in H as [H1 H2]. apply String.eqb_eq in H1, H2. subst. eauto.
Qed.
Lemma add_unit_spec (g : Source) (ph s : string) (k k' : nat) :
  In ph all_names -> add_unit g ph k = Some (s, k') ->
  exists c, s = ("{" ++ c ++ "}")%string /\ In (ph, c) content_table.
Proof.
  intros Hph H.
  simpl in Hph.
  repeat destruct Hph as [<- | Hph]; try contradiction;
    unfold add_unit in H;
    match type of H with context [Go.lower_bytes ?p] =>
      let v := eval vm_compute in (Go.lower_bytes p) in change (Go.lower_bytes p) with v in H end;
    eval_eqb H.
  all: try (apply bind_some in H as (f & k1 & _ & H); destruct (qlt f (1 # 2))).
  all: m_inv; apply pick_entry; vm_compute; reflexivity.
Qed.

(** A decorated placeholder: an optional wrapper around [{content}]. *)
Definition decorated (n d : string) : Prop :=
  exists c wo wc, d = (wo ++ ("{" ++ c ++ "}") ++ wc)%string /\
    In (n, c) content_table /\ In (wo, wc) (("", "") :: wrappers).

Lemma wrappers_plain (wo wc : string) :
  In (wo, wc) (("", "") :: wrappers) -> no_char "{" wo = true /\ no_char "{" wc = true.
Proof. intro H. simpl in H. repeat destruct H as [H | H]; try injection H as <- <-; auto; contradiction. Qed.

Lemma wrap_spec (g : Source) (s s' : string) (k k' : nat) :
  wrap g s k = Some (s', k') ->
  exists wo wc, s' = (wo ++ s ++ wc)%string /\ In (wo, wc) (("", "") :: wrappers).
Proof.
  unfold wrap. intro H. apply bind_some in H as (f & k1 & _ & H).
  destruct (qlt f (1 # 2)).
  - m_inv. destruct x1 as [wo wc]. exists wo, wc. split; [reflexivity | right; assumption].
  - m_inv. exists "", "". split; [simpl; now rewrite append_empty_r | left; reflexivity].
Qed.

Lemma decorate_all_spec (g : Source) (l l' : list string) (k k' : nat) :
  incl l all_names -> decorate_all g l k = Some (l', k') -> Forall2 decorated l l'.
Proof.
  revert l' k k'. induction l as [| ph r IH]; intros l' k k' Hincl H; simpl in H.
  - m_inv. constructor.
  - apply bind_some in H as (s & k1 & Hs & H).
    apply bind_some in H as (s' & k2 & Hs' & H).
    apply bind_some in H as (rest & k3 & Hr & H).
    apply ret_some in H as [<- _].
    constructor.
    + apply add_unit_spec in Hs as (c & -> & Hc); [| apply Hincl; left; reflexivity].
      apply wrap_spec in Hs' as (wo & wc & -> & Hw). exists c, wo, wc. auto.
    + eapply IH; [| exact Hr]. intros x Hx. apply Hincl. right. exact Hx.
Qed.

Lemma decorated_closed (n d : string) : decorated n d -> closed d /\ text_keys d = [n].
Proof.
  intros (c & wo & wc & -> & Hc & Hw).
  apply content_entry in Hc as (Hne & Hc1 & Hc2 & Hk).
  apply wrappers_plain in Hw as [Hwo Hwc].
  split.
  - apply closed_app; [apply closed_plain, Hwo |].
    apply closed_app; [apply closed_placeholder; assumption | apply closed_plain, Hwc].
  - unfold text_keys.
    rewrite closed_plain by exact Hwo. rewrite ph_contents_app, ph_contents_plain by exact Hwo.
    assert (E : (("{" ++ c ++ "}") ++ wc)%string = ("{" ++ c ++ "}" ++ wc)%string)
      by (now rewrite <- !append_assoc).
    rewrite E, scan_placeholder by assumption.
    simpl. rewrite ph_contents_plain by exact Hwc. simpl. rewrite Hk. reflexivity.
Qed.

Lemma build_parts_spec (g : Source) (l parts : list string) (k k' : nat) :
  build_parts g l k = Some (parts, k') ->
  (forall P : string -> Prop, P "-" -> Forall P l -> Forall P parts) /\
  (forall f : string -> list string, f "-" = [] -> flat_map f parts = flat_map f l).
Proof.
  revert parts k k'. induction l as [| ph r IH]; intros parts k k' H; simpl in H.
  - m_inv. split; intros; [constructor | reflexivity].
  - apply bind_some in H as (f & k1 & _ & H).
    apply bind_some in H as (rest & k2 & Hr & H).
    apply ret_some in H as [<- _].
    destruct (IH _ _ _ Hr) as [HP Hf].
    split.
    + intros P Hd HF. inversion HF; subst.
      destruct (qlt f (3 # 10)); repeat constructor; auto.
    + intros f' Hd. destruct (qlt f (3 # 10)); simpl; rewrite Hf by exact Hd;
        [rewrite Hd |]; reflexivity.
Qed.

Lemma join_contents (parts : list string) :
  Forall closed parts ->
  ph_contents (scan_out (Join parts " ")) = flat_map (fun p => ph_contents (scan_out p)) parts.
Proof.
  induction parts as [| x r IH]; intro H; [reflexivity |].
  inversion H as [| ? ? Hx Hr]; subst.
  destruct r as [| y r'].
  - simpl. now rewrite app_nil_r.
  - change (Join (x :: y :: r') " ") with (x ++ " " ++ Join (y :: r') " ")%string.
    rewrite Hx, ph_contents_app.
    change (scan_out (" " ++ Join (y :: r') " "))
      with (SChar " " :: scan_out (Join (y :: r') " ")).
    change (ph_contents (SChar " " :: scan_out (Join (y :: r') " ")))
      with (ph_contents (scan_out (Join (y :: r') " "))).
    rewrite IH by exact Hr. reflexivity.
Qed.

Lemma join_keys (parts : list string) :
  Forall closed parts ->
  text_keys (Join parts " ") = flat_map text_keys parts.
Proof.
  intro H. unfold text_keys. rewrite join_contents by exact H.
  induction parts as [| x r IH]; [reflexivity |].
  simpl. rewrite map_app, IH; [reflexivity |]. now inversion H.
Qed.

Lemma set_nth_length {A} (l : list A) (i : nat) (v : A) :
  List.length (set_nth l i v) = List.length l.
Proof. revert i. induction l as [| x r IH]; intros [| i]; simpl; auto. Qed.

Lemma nth_set_nth {A} (l : list A) (i j : nat) (v d : A) :
  (j < List.length l)%nat ->
  nth j (set_nth l i v) d = if Nat.eqb i j then v else nth j l d.
Proof.
  revert i j. induction l as [| x r IH]; intros i j Hj; simpl in Hj; [lia |].
  destruct i as [| i], j as [| j]; simpl; try reflexivity.
  apply IH. lia.
Qed.

Lemma set_nth_perm {A} (l : list A) (i : nat) (v d : A) :
  (i < List.length l)%nat -> Permutation (nth i l d :: set_nth l i v) (v :: l).
Proof.
  revert i. induction l as [| x r IH]; intros i Hi; simpl in Hi; [lia |].
  destruct i as [| i]; simpl.
  - apply perm_swap.
  - eapply perm_trans; [apply perm_swap |].
    eapply perm_trans; [apply perm_skip, IH; lia |].
    apply perm_swap.
Qed.

Lemma swap_perm {A} (d : A) (l : list A) (i j : nat) :
  (i < List.length l)%nat -> (j < List.length l)%nat -> Permutation (swap d l i j) l.
Proof.
  intros Hi Hj. unfold swap.
  set (vi := nth i l d). set (vj := nth j l d).
  assert (E : nth j (set_nth l i vj) d = vj).
  { rewrite nth_set_nth by exact Hj. destruct (Nat.eqb_spec i j); subst; reflexivity. }
  apply (Permutation_cons_inv (a := vj)).
  eapply perm_trans.
  - rewrite <- E at 1. apply set_nth_perm. rewrite set_nth_length. exact Hj.
  - apply set_nth_perm. exact Hi.
Qed.

Lemma shuffle_loop_perm (g : Source) (i : nat) (l l' : list string) (k k' : nat) :
  (i < List.length l \/ i = O)%nat -> shuffle_loop g i l k = Some (l', k') -> Permutation l' l.
Proof.
  revert l k. induction i as [| i IH]; intros l k Hi H; simpl in H.
  - m_inv. reflexivity.
  - apply bind_some in H as (j & k1 & _ & H).
    destruct (((j <? 0) || (Z.of_nat (List.length l) <=? j))%Z) eqn:Ej; [discriminate |].
    apply orb_false_iff in Ej as [Ej1 Ej2].
    apply Z.ltb_ge in Ej1. apply Z.leb_gt in Ej2.
    assert (Hlt : (S i < List.length l)%nat) by (destruct Hi; [assumption | discriminate]).
    eapply perm_trans; [eapply IH; [| exact H] |].
    + left. unfold swap. rewrite !set_nth_length. lia.
    + apply swap_perm; lia.
Qed.

Lemma Shuffle_perm (g : Source) (l l' : list string) (k k' : nat) :
  Shuffle g l k = Some (l', k') -> Permutation l' l.
Proof.
  unfold Shuffle. apply shuffle_loop_perm. lia.
Qed.

Lemma EqualFold_refl (a : string) : EqualFold a a = true.
Proof. unfold EqualFold. apply String.eqb_refl. Qed.

(** The invariant of the loop adding optional placeholders. *)
Definition opt_inv (n0 : nat) (pl : list string) : Prop :=
  exists opts, pl = (requiredPlaceholders ++ opts)%list /\ NoDup pl /\
    incl opts optionalPlaceholders /\ (List.length pl <= 7)%nat /\
    (List.length opts <= n0)%nat.

Lemma add_optionals_inv (g : Source) (n n0 : nat) (pl pl' : list string) (k k' : nat) :
  opt_inv n0 pl -> add_optionals g n pl k = Some (pl', k') -> opt_inv (n0 + n) pl'.
Proof.
  revert n0 pl k. induction n as [| n IH]; intros n0 pl k Hinv H; simpl in H.
  - m_inv. now rewrite Nat.add_0_r.
  - apply bind_some in H as (i & k1 & _ & H).
    apply bind_some in H as (opt & k2 & Hopt & H).
    apply index_some in Hopt as [Hopt _].
    rewrite <- Nat.add_succ_comm.
    eapply IH; [| exact H].
    destruct Hinv as (opts & -> & Hnd & Hincl & Hlen & Hn0).
    destruct (negb (existsb (EqualFold opt) (requiredPlaceholders ++ opts))
              && (List.length (requiredPlaceholders ++ opts) <? 7))%nat eqn:E.
    + apply andb_prop in E as [E1 E2].
      apply negb_true_iff in E1. apply Nat.ltb_lt in E2.
      assert (Hni : ~ In opt (requiredPlaceholders ++ opts)).
      { intro Hin.
        assert (Ht : existsb (EqualFold opt) (requiredPlaceholders ++ opts) = true)
          by (apply existsb_exists; exists opt; split; [exact Hin | apply EqualFold_refl]).
        congruence. }
      exists (opts ++ [opt])%list. rewrite app_assoc. repeat split.
      * apply NoDup_app; [exact Hnd | repeat constructor; intros [] |].
        intros a Ha [<- | []]. contradiction.
      * intros x Hx. apply in_app_or in Hx as [Hx | [<- | []]]; [apply Hincl, Hx | exact Hopt].
      * rewrite !length_app in *. simpl in *. lia.
      * rewrite !length_app in *. simpl in *. lia.
    + exists opts. repeat split; auto.
Qed.

Lemma keys_of_decorated (ns ds : list string) :
  Forall2 decorated ns ds -> Forall closed ds /\ flat_map text_keys ds = ns.
Proof.
  induction 1 as [| n d ns ds Hd _ [IHc IHk]]; [split; [constructor | reflexivity] |].
  apply decorated_closed in Hd as [Hc Hk].
  split; [constructor; assumption |]. simpl. rewrite Hk, IHk. reflexivity.
Qed.

Lemma required_inv : opt_inv 0 requiredPlaceholders.
Proof.
  exists []. rewrite app_nil_r. repeat split.
  - repeat constructor; simpl; intuition discriminate.
  - intros x [].
  - simpl. lia.
  - simpl. lia.
Qed.

(** The keys of a generated format are the shuffled placeholder list. *)
Lemma generate_keys (g : Source) (fmt : string) (k k' : nat) :
  generateRandomGlobalLogFormat g k = Some (fmt, k') ->
  exists optCount placeholders,
    rand_Intn g k 3 = Some optCount /\
    opt_inv (Z.to_nat optCount) placeholders /\
    Permutation (RandFormat.format_keys ul fmt) placeholders.
Proof.
  unfold generateRandomGlobalLogFormat. intro H.
  apply bind_some in H as (oc & k1 & Hoc & H).
  apply bind_some in H as (pl & k2 & Hpl & H).
  apply bind_some in H as (sh & k3 & Hsh & H).
  apply bind_some in H as (dec & k4 & Hdec & H).
  apply bind_some in H as (parts & k5 & Hparts & H).
  apply ret_some in H as [<- _].
  unfold Intn in Hoc. destruct (rand_Intn g k 3) as [z |] eqn:Ez; [| discriminate].
  injection Hoc as <- _.
  pose proof (add_optionals_inv g (Z.to_nat z) 0 _ _ _ _ required_inv Hpl) as Hinv.
  apply Shuffle_perm in Hsh.
  assert (Hincl : incl sh all_names).
  { intros x Hx. apply (Permutation_in _ Hsh) in Hx.
    destruct Hinv as (opts & -> & _ & Hi & _).
    unfold all_names. apply in_app_or in Hx as [Hx | Hx]; apply in_or_app; auto. }
  apply decorate_all_spec in Hdec; [| exact Hincl].
  apply keys_of_decorated in Hdec as [Hclosed Hkeys].
  apply build_parts_spec in Hparts as [HP Hf].
  rewrite format_keys_text_keys, join_keys.
  2: { apply HP; [apply closed_plain; reflexivity | exact Hclosed]. }
  rewrite Hf by reflexivity. rewrite Hkeys.
  exists z, pl. repeat split; auto.
Qed.

End Keys.

End RandFormatProofs.

Import RandFormatProofs.

(** C6: with a uniform source, every format [generateRandomGlobalLogFormat]
    returns holds the five required keys (time, status_code, method, path,
    client_ip) exactly once each, at most two distinct optional keys besides,
    at most seven keys in all, and no key twice; the keys are read as
    [FormatLogMessage] reads them, whatever the case table [ul]. *)
Theorem random_format_invariants (ul : Z -> Z) (g : Source) (k k' : nat) (fmt : string) :
  valid_source g ->
  RandFormat.generateRandomGlobalLogFormat g k = Some (fmt, k') ->
  format_invariants ul fmt.
Proof.
  intros [Hv _] H.
  apply (generate_keys ul) in H as (oc & pl & Hoc & Hinv & Hperm).
  destruct Hinv as (opts & -> & Hnd & Hincl & Hlen & Hn).
  unfold rand_Intn in Hoc. simpl in Hoc. injection Hoc as <-.
  pose proof (Hv k 3%Z ltac:(lia)) as Hr.
  assert (Hnd' : NoDup (RandFormat.format_keys ul fmt))
    by exact (Permutation_NoDup (Permutation_sym Hperm) Hnd).
  unfold format_invariants. repeat split.
  - intros r Hr'. apply (NoDup_count_occ' string_dec) ; [exact Hnd' |].
    apply (Permutation_in _ (Permutation_sym Hperm)). apply in_or_app. left. exact Hr'.
  - exists opts. repeat split; [exact Hperm | exact Hincl | lia].
  - rewrite (Permutation_length Hperm). exact Hlen.
  - exact Hnd'.
Qed.

Lemma random_format_invariants_witness :
  valid_source source_top /\
  RandFormat.generateRandomGlobalLogFormat source_top 0%nat =
    Some ("[{time:%Y.%m.%dT%H.%M.%S}] - [{status_code}] - [{method}] - [{path}] - [{client_ip}] - [{response_size:gb}] -", 29%nat) /\
  format_invariants ul_self "[{time:%Y.%m.%dT%H.%M.%S}] - [{status_code}] - [{method}] - [{path}] - [{client_ip}] - [{response_size:gb}] -".
Proof.
  split; [exact source_top_valid |]. split; [vm_compute; reflexivity |].
  apply (random_format_invariants ul_self source_top 0%nat 29%nat);
    [exact source_top_valid | vm_compute; reflexivity].
Defined.

(* ------------------------------------------------------------------ *)
(** ** Worker driver claims *)

Module DriverProofs.
Import Driver.
Local Open Scope nat_scope.

Lemma cnt_app (e : event) (l1 l2 : list event) : cnt e (l1 ++ l2) = cnt e l1 + cnt e l2.
Proof. apply count_occ_app. Qed.

Lemma cnt_cons (e x : event) (l : list event) :
  cnt e (x :: l) = (if event_eq_dec x e then 1 else 0) + cnt e l.
Proof. unfold cnt. simpl. destruct (event_eq_dec x e); reflexivity. Qed.

Lemma cnt_repeat_work (e : event) (id c : nat) :
  (forall i, e <> EWork i) -> cnt e (repeat (EWork id) c) = 0.
Proof.
  intro H. induction c as [| c IH]; [reflexivity |].
  simpl repeat. rewrite cnt_cons, IH.
  destruct (event_eq_dec (EWork id) e) as [E |]; [exfalso; apply (H id); auto | reflexivity].
Qed.

(** Whether an attempt leaves a handle to close. *)
Definition opened (a : attempt) : nat := match a with OpenFail => 0 | _ => 1 end.

Ltac cnt_simpl :=
  repeat (rewrite ?cnt_app, ?cnt_cons; cbn [cnt count_occ]);
  repeat match goal with
  | |- context [event_eq_dec ?x ?y] => destruct (event_eq_dec x y); try congruence
  end.

Lemma worker_counts (i id : nat) (a : attempt) (c : nat) :
  cnt (EOpen id) (worker_trace i a c) = (if Nat.eqb i id then opened a else 0) /\
  cnt (EClose id) (worker_trace i a c) = (if Nat.eqb i id then opened a else 0).
Proof.
  destruct (Nat.eqb_spec i id) as [<- | Hne]; destruct a; simpl worker_trace;
    rewrite ?cnt_cons, ?cnt_app, ?cnt_cons, ?cnt_repeat_work by congruence;
    cbn [cnt count_occ]; cnt_simpl; split; reflexivity.
Qed.

Lemma multi_heavy_counts (n : nat) (att : nat -> attempt) (cycles : nat -> nat) (id : nat) :
  let tr := concat (map (fun i => worker_trace i (att i) (cycles i)) (seq 0 n)) in
  cnt (EOpen id) tr = (if Nat.ltb id n then opened (att id) else 0) /\
  cnt (EClose id) tr = (if Nat.ltb id n then opened (att id) else 0).
Proof.
  induction n as [| n [IHo IHc]]; [split; reflexivity |].
  cbv zeta in *. rewrite seq_S, map_app, concat_app. simpl map. simpl concat.
  rewrite app_nil_r, !cnt_app, IHo, IHc.
  destruct (worker_counts n id (att n) (cycles n)) as [Ho Hc]. rewrite Ho, Hc.
  destruct (Nat.eqb_spec n id) as [<- | Hne];
    destruct (Nat.ltb_spec n n), (Nat.ltb_spec n (S n)); try lia;
    destruct (Nat.ltb_spec id n), (Nat.ltb_spec id (S n)); try lia; split; reflexivity.
Qed.


Section RampProofs.
Variable att : nat -> attempt.
Variables (connectionCounts increasePerInterval : Z).

(** The events so far: the finished rounds, then the current round's. *)
Definition Tr (st : ramp_state) (ev : list event) : list event :=
  (concat (map (cons ETick) (rounds st)) ++ ev)%list.

Definition exp_open (next id : nat) : nat := if Nat.ltb id next then opened (att id) else 0.
Definition exp_close (next id : nat) : nat :=
  if Nat.ltb id next then match att id with PingFail => 1 | _ => 0 end else 0.

(** The ramp invariant: every attempt so far opened its handle at most once,
    the handles whose ping failed are closed, and [connections] holds the
    others, once each, [currentCount] being their number. *)
Definition ramp_inv (st : ramp_state) (ev : list event) : Prop :=
  (forall id, cnt (EOpen id) (Tr st ev) = exp_open (next_attempt st) id) /\
  (forall id, cnt (EClose id) (Tr st ev) = exp_close (next_attempt st) id) /\
  NoDup (connections st) /\
  (forall id, In id (connections st) <-> (id < next_attempt st /\ att id = OpenOk)) /\
  currentCount st = Z.of_nat (List.length (connections st)).

Lemma Tr_app (st : ramp_state) (ev seg : list event) :
  Tr st (ev ++ seg) = (Tr st ev ++ seg)%list.
Proof. unfold Tr. apply app_assoc. Qed.

Lemma exp_step (n id : nat) (f : nat -> nat) :
  (if Nat.ltb id (S n) then f id else 0) =
  (if Nat.ltb id n then f id else 0) + (if Nat.eqb id n then f n else 0).
Proof.
  destruct (Nat.eqb_spec id n) as [-> | Hne];
    destruct (Nat.ltb_spec n n), (Nat.ltb_spec n (S n)); try lia;
    try (destruct (Nat.ltb_spec id n), (Nat.ltb_spec id (S n)); lia);
    destruct (Nat.ltb_spec id n), (Nat.ltb_spec id (S n)); lia.
Qed.

Lemma exp_open_step (n id : nat) :
  exp_open (S n) id = exp_open n id + (if Nat.eqb id n then opened (att n) else 0).
Proof. apply (exp_step n id (fun i => opened (att i))). Qed.

Lemma exp_close_step (n id : nat) :
  exp_close (S n) id = exp_close n id +
    (if Nat.eqb id n then match att n with PingFail => 1 | _ => 0 end else 0).
Proof. apply (exp_step n id (fun i => match att i with PingFail => 1 | _ => 0 end)). Qed.

Lemma open_one_inv (st : ramp_state) (ev : list event) :
  ramp_inv st ev -> ramp_inv (fst (open_one att st ev)) (snd (open_one att st ev)).
Proof.
  intros (Ho & Hc & Hnd & Hin & Hcc).
  unfold open_one. set (id := next_attempt st).
  assert (Hfresh : ~ In id (connections st)) by (intro H; apply Hin in H; unfold id in H; lia).
  destruct (att id) eqn:Ea; cbn [fst snd];
    (split; [| split; [| split; [| split]]]); cbn [connections currentCount next_attempt].
  all: try (intro x; rewrite ?exp_open_step, ?exp_close_step; unfold Tr; cbn [rounds];
         rewrite ?app_assoc; fold (Tr st ev); rewrite ?cnt_app, ?Ho, ?Hc;
         destruct (Nat.eqb_spec x id) as [-> | Hne]; rewrite ?Ea; cnt_simpl; simpl; subst id; lia).
  all: try assumption.
  all: try (intro x; rewrite Hin; split; [intros [Hx Hx']; split; [lia | exact Hx'] |];
            intros [Hx Hx']; split; [| exact Hx'];
            destruct (Nat.eqb_spec x id) as [-> | Hne]; [congruence | subst id; lia]).
  - apply NoDup_app; [exact Hnd | repeat constructor; intros [] |].
    intros a Ha [<- | []]. contradiction.
  - intro x. rewrite in_app_iff, Hin. simpl.
    split; [intros [[Hx Hx'] | [<- | []]]; [split; [lia | exact Hx'] | split; [lia | exact Ea]] |].
    intros [Hx Hx']. destruct (Nat.eqb_spec x id) as [-> | Hne]; [right; left; reflexivity |].
    left. split; [subst id; lia | exact Hx'].
  - rewrite Hcc, length_app. simpl. lia.
Qed.

Lemma open_one_rounds (st : ramp_state) (ev : list event) :
  rounds (fst (open_one att st ev)) = rounds st.
Proof. unfold open_one. destruct (att (next_attempt st)); reflexivity. Qed.

Lemma open_round_inv (n : nat) (st : ramp_state) (ev : list event) :
  ramp_inv st ev ->
  ramp_inv (fst (open_round att connectionCounts n st ev)) (snd (open_round att connectionCounts n st ev)) /\
  rounds (fst (open_round att connectionCounts n st ev)) = rounds st.
Proof.
  revert st ev. induction n as [| n IH]; intros st ev H; simpl; [auto |].
  destruct (currentCount st <? connectionCounts)%Z; [| simpl; auto].
  pose proof (open_one_inv st ev H) as H1. pose proof (open_one_rounds st ev) as R1.
  destruct (open_one att st ev) as [st' ev']. simpl in H1, R1.
  destruct (IH st' ev' H1) as [H2 R2]. split; [exact H2 | congruence].
Qed.

Lemma Tr_tick_rounds (r : list (list event)) (ev : list event) :
  concat (map (cons ETick) (r ++ [ev])) = (concat (map (cons ETick) r) ++ ETick :: ev)%list.
Proof. rewrite map_app, concat_app. simpl. now rewrite app_nil_r. Qed.

Lemma tick_inv (st : ramp_state) :
  ramp_inv st [] -> ramp_inv (tick att connectionCounts increasePerInterval st) [].
Proof.
  intro H. unfold tick.
  destruct (open_round_inv (Z.to_nat increasePerInterval) st [] H) as [H1 _].
  destruct (open_round att connectionCounts (Z.to_nat increasePerInterval) st [])
    as [st' ev] eqn:E. simpl in H1.
  destruct H1 as (Ho & Hc & Hnd & Hin & Hcc).
  unfold ramp_inv, Tr in *. cbn [rounds connections currentCount next_attempt].
  rewrite Tr_tick_rounds, app_nil_r.
  split; [| split; [| split; [| split]]]; try assumption.
  - intro x. rewrite cnt_app, cnt_cons, <- Ho, cnt_app. reflexivity.
  - intro x. rewrite cnt_app, cnt_cons, <- Hc, cnt_app. reflexivity.
Qed.

Lemma ramp_loop_inv (os : list obs) (st st' : ramp_state) :
  ramp_inv st [] -> ramp_loop att connectionCounts increasePerInterval os st = Some st' ->
  ramp_inv st' [].
Proof.
  revert st. induction os as [| o os IH]; intros st H E; simpl in E; [discriminate |].
  destruct o as [ae | ae].
  - pose proof (tick_inv st H) as Ht.
    destruct (connectionCounts <=? _)%Z; [injection E as <-; exact Ht |].
    destruct ae; [injection E as <-; exact Ht | exact (IH _ Ht E)].
  - destruct ae; [injection E as <-; exact H | exact (IH _ H E)].
Qed.

Lemma ramp_init_inv : ramp_inv ramp_init [].
Proof.
  split; [| split; [| split; [| split]]]; try reflexivity.
  - constructor.
  - intro x. simpl. split; [intros [] | intros [Hx _]; lia].
Qed.

Lemma cnt_map_EClose (e : event) (l : list nat) :
  cnt e (map EClose l) = match e with EClose id => count_occ Nat.eq_dec l id | _ => 0 end.
Proof.
  induction l as [| x l IH]; [destruct e; reflexivity |].
  simpl map. rewrite cnt_cons, IH.
  destruct e; destruct (event_eq_dec (EClose x) _) as [E | E]; try discriminate; simpl;
    try (injection E as <-; destruct (Nat.eq_dec x x); [lia | congruence]);
    try (destruct (Nat.eq_dec x id); [subst; congruence | lia]); lia.
Qed.

(** A finished run opens each attempt's handle at most once and closes
    every opened handle exactly once. *)
Lemma run_trace_counts (st : ramp_state) (id : nat) :
  ramp_inv st [] ->
  cnt (EOpen id) (run_trace st) = exp_open (next_attempt st) id /\
  cnt (EClose id) (run_trace st) = exp_open (next_attempt st) id /\
  exp_open (next_attempt st) id <= 1.
Proof.
  intros (Ho & Hc & Hnd & Hin & _).
  unfold run_trace. rewrite !cnt_app, !cnt_map_EClose.
  specialize (Ho id). specialize (Hc id). unfold Tr in Ho, Hc. rewrite app_nil_r in Ho, Hc.
  rewrite Ho, Hc.
  assert (Hocc : count_occ Nat.eq_dec (connections st) id =
                 if Nat.ltb id (next_attempt st) then match att id with OpenOk => 1 | _ => 0 end else 0).
  { destruct (In_dec Nat.eq_dec id (connections st)) as [Hi | Hi].
    - apply (proj1 (NoDup_count_occ' Nat.eq_dec _) Hnd) in Hi as Hone. rewrite Hone.
      apply Hin in Hi as [Hlt Hok]. rewrite Hok. destruct (Nat.ltb_spec id (next_attempt st)); lia.
    - rewrite (proj1 (count_occ_not_In Nat.eq_dec _ _) Hi).
      destruct (Nat.ltb_spec id (next_attempt st)); [| reflexivity].
      destruct (att id) eqn:Ea; try reflexivity. exfalso. apply Hi, Hin. auto. }
  rewrite Hocc. unfold exp_open, exp_close.
  destruct (Nat.ltb id (next_attempt st)); [destruct (att id) |]; simpl; lia.
Qed.

(** *** Bounds of the ramp *)

(** Handles opened minus handles closed. *)
Definition bal (l : list event) : Z := (Z.of_nat (opens l) - Z.of_nat (closes l))%Z.

(** From a start of [b] open handles, no prefix of [l] holds more than [B]. *)
Definition bounded (b B : Z) (l : list event) : Prop :=
  forall n, (b + bal (firstn n l) <= B)%Z.

Lemma bal_app (l1 l2 : list event) : bal (l1 ++ l2) = (bal l1 + bal l2)%Z.
Proof. unfold bal, opens, closes. rewrite !filter_app, !length_app. lia. Qed.

Lemma bal_open (id : nat) : bal [EOpen id] = 1%Z.
Proof. reflexivity. Qed.

Lemma bal_close (id : nat) : bal [EClose id] = (-1)%Z.
Proof. reflexivity. Qed.

Lemma bal_ping (id : nat) : bal [EOpen id; EClose id] = 0%Z.
Proof. reflexivity. Qed.

Lemma bal_nil : bal [] = 0%Z.
Proof. reflexivity. Qed.

Lemma bal_cons (x : event) (l : list event) : bal (x :: l) = (bal [x] + bal l)%Z.
Proof. apply (bal_app [x] l). Qed.

Lemma bounded_nil (b B : Z) : (b <= B)%Z -> bounded b B [].
Proof. intros H n. rewrite firstn_nil. unfold bal. simpl. lia. Qed.

Lemma bounded_cons (b B : Z) (x : event) (l : list event) :
  (b <= B)%Z -> bounded (b + bal [x]) B l -> bounded b B (x :: l).
Proof.
  intros Hb H [| n]; [unfold bal; simpl; lia |].
  simpl firstn. rewrite bal_cons. specialize (H n). lia.
Qed.

Lemma bounded_app (b B : Z) (l1 l2 : list event) :
  bounded b B l1 -> bounded (b + bal l1) B l2 -> bounded b B (l1 ++ l2).
Proof.
  revert b. induction l1 as [| x l1 IH]; intros b H1 H2; simpl.
  - intro n. specialize (H2 n). unfold bal in H2 at 1. simpl in H2. lia.
  - apply bounded_cons; [specialize (H1 O); unfold bal in H1; simpl in H1; lia |].
    apply IH.
    + intro n. specialize (H1 (S n)). simpl firstn in H1. rewrite bal_cons in H1. lia.
    + rewrite bal_cons in H2. intro n. specialize (H2 n). lia.
Qed.

Lemma bounded_closes (b B : Z) (l : list nat) : (b <= B)%Z -> bounded b B (map EClose l).
Proof.
  revert b. induction l as [| x l IH]; intros b H; simpl; [apply bounded_nil, H |].
  apply bounded_cons; [exact H |]. apply IH. unfold bal. simpl. lia.
Qed.

(** The bound carried through a round: the finished rounds and the
    current round's events never hold more than [connectionCounts]
    handles, and the current balance is [currentCount]. *)
Definition round_inv (st : ramp_state) (ev : list event) : Prop :=
  bounded 0 connectionCounts (Tr st []) /\
  bounded (bal (Tr st [])) connectionCounts ev /\
  (bal (Tr st []) + bal ev)%Z = currentCount st /\
  (currentCount st <= connectionCounts)%Z.

Lemma open_one_round_inv (st : ramp_state) (ev : list event) :
  (currentCount st < connectionCounts)%Z -> round_inv st ev ->
  round_inv (fst (open_one att st ev)) (snd (open_one att st ev)).
Proof.
  intros Hlt (H0 & H1 & Hb & Hc).
  unfold open_one. unfold round_inv, Tr in *.
  destruct (att (next_attempt st)); cbn [fst snd rounds currentCount];
    (split; [exact H0 | split; [| split]]); try exact H1; try lia;
    try (rewrite (bal_app ev), ?bal_ping, ?bal_open; lia).
  - apply bounded_app; [exact H1 |].
    apply bounded_cons; [lia |]. rewrite bal_open. apply bounded_cons; [lia |].
    apply bounded_nil. rewrite bal_close. lia.
  - apply bounded_app; [exact H1 |].
    apply bounded_cons; [lia |]. apply bounded_nil. rewrite bal_open. lia.
Qed.

Lemma open_round_round_inv (n : nat) (st : ramp_state) (ev : list event) :
  round_inv st ev ->
  round_inv (fst (open_round att connectionCounts n st ev)) (snd (open_round att connectionCounts n st ev)).
Proof.
  revert st ev. induction n as [| n IH]; intros st ev H; simpl; [exact H |].
  destruct (currentCount st <? connectionCounts)%Z eqn:E; [| exact H].
  apply Z.ltb_lt in E.
  pose proof (open_one_round_inv st ev E H) as H1. pose proof (open_one_rounds st ev) as R1.
  destruct (open_one att st ev) as [st' ev']. simpl in H1.
  apply IH. exact H1.
Qed.

Lemma open_round_rounds (n : nat) (st : ramp_state) (ev : list event) :
  rounds (fst (open_round att connectionCounts n st ev)) = rounds st.
Proof.
  revert st ev. induction n as [| n IH]; intros st ev; simpl; [reflexivity |].
  destruct (currentCount st <? connectionCounts)%Z; [| reflexivity].
  pose proof (open_one_rounds st ev) as R1.
  destruct (open_one att st ev) as [st' ev']. simpl in R1. rewrite IH. exact R1.
Qed.

Lemma Tr_nil_rounds (st st' : ramp_state) : rounds st' = rounds st -> Tr st' [] = Tr st [].
Proof. unfold Tr. intros ->. reflexivity. Qed.

Lemma tick_round_inv (st : ramp_state) :
  round_inv st [] -> round_inv (tick att connectionCounts increasePerInterval st) [].
Proof.
  intro H. unfold tick.
  pose proof (open_round_round_inv (Z.to_nat increasePerInterval) st [] H) as H1.
  pose proof (open_round_rounds (Z.to_nat increasePerInterval) st []) as R1.
  destruct (open_round att connectionCounts (Z.to_nat increasePerInterval) st [])
    as [st' ev] eqn:E. simpl in H1, R1.
  destruct H1 as (H0 & H1 & Hb & Hc).
  assert (Hstart : (bal (Tr st' []) <= connectionCounts)%Z)
    by (specialize (H1 O); simpl in H1; rewrite bal_nil in H1; lia).
  assert (ET : Tr {| connections := connections st'; currentCount := currentCount st';
                     next_attempt := next_attempt st'; rounds := (rounds st' ++ [ev])%list |} []
               = (Tr st' [] ++ ETick :: ev)%list).
  { unfold Tr. cbn [rounds]. rewrite Tr_tick_rounds, !app_nil_r. reflexivity. }
  unfold round_inv. rewrite ET. cbn [currentCount].
  rewrite (bal_app (Tr st' [])), (bal_cons ETick ev), ?bal_nil.
  change (bal [ETick]) with 0%Z.
  split; [| split; [| split]]; try lia.
  - apply bounded_app; [exact H0 |]. apply bounded_cons; [lia |].
    change (bal [ETick]) with 0%Z. rewrite Z.add_0_l, Z.add_0_r. exact H1.
  - apply bounded_nil. lia.
Qed.

Lemma ramp_loop_round_inv (os : list obs) (st st' : ramp_state) :
  round_inv st [] -> ramp_loop att connectionCounts increasePerInterval os st = Some st' ->
  round_inv st' [].
Proof.
  revert st. induction os as [| o os IH]; intros st H E; simpl in E; [discriminate |].
  destruct o as [ae | ae].
  - pose proof (tick_round_inv st H) as Ht.
    destruct (connectionCounts <=? _)%Z; [injection E as <-; exact Ht |].
    destruct ae; [injection E as <-; exact Ht | exact (IH _ Ht E)].
  - destruct ae; [injection E as <-; exact H | exact (IH _ H E)].
Qed.

Lemma ramp_init_round_inv : (0 <= connectionCounts)%Z -> round_inv ramp_init [].
Proof.
  intro H. unfold round_inv, Tr, ramp_init. cbn [rounds map concat app currentCount]. rewrite bal_nil.
  split; [| split; [| split]]; try (apply bounded_nil); lia.
Qed.

(** Every handle opened in a round comes from one of its at most
    [n] attempts. *)
Lemma open_round_opens (n : nat) (st : ramp_state) (ev : list event) :
  opens (snd (open_round att connectionCounts n st ev)) <= opens ev + n.
Proof.
  revert st ev. induction n as [| n IH]; intros st ev; simpl; [lia |].
  destruct (currentCount st <? connectionCounts)%Z; [| simpl; lia].
  assert (Ho : opens (snd (open_one att st ev)) <= opens ev + 1).
  { unfold open_one, opens. destruct (att (next_attempt st)); simpl;
      rewrite ?filter_app, ?length_app; simpl; lia. }
  destruct (open_one att st ev) as [st' ev']. simpl in Ho.
  specialize (IH st' ev'). lia.
Qed.

(** A round that ends below the target made all of its attempts:
    failures do not stop it. *)
Lemma open_round_attempts (n : nat) (st : ramp_state) (ev : list event) :
  (currentCount (fst (open_round att connectionCounts n st ev)) < connectionCounts)%Z ->
  next_attempt (fst (open_round att connectionCounts n st ev)) = next_attempt st + n.
Proof.
  revert st ev. induction n as [| n IH]; intros st ev; simpl; [lia |].
  destruct (currentCount st <? connectionCounts)%Z eqn:E.
  - assert (Hn : next_attempt (fst (open_one att st ev)) = S (next_attempt st))
      by (unfold open_one; destruct (att (next_attempt st)); reflexivity).
    destruct (open_one att st ev) as [st' ev']. simpl in Hn.
    intro H. rewrite (IH st' ev' H). lia.
  - simpl. intro H. apply Z.ltb_ge in E. lia.
Qed.

Lemma ramp_loop_rounds (os : list obs) (st st' : ramp_state) :
  Forall (fun ev => opens ev <= Z.to_nat increasePerInterval) (rounds st) ->
  ramp_loop att connectionCounts increasePerInterval os st = Some st' ->
  Forall (fun ev => opens ev <= Z.to_nat increasePerInterval) (rounds st').
Proof.
  assert (Ht : forall st, Forall (fun ev => opens ev <= Z.to_nat increasePerInterval) (rounds st) ->
            Forall (fun ev => opens ev <= Z.to_nat increasePerInterval)
              (rounds (tick att connectionCounts increasePerInterval st))).
  { intros st0 H0. unfold tick.
    pose proof (open_round_opens (Z.to_nat increasePerInterval) st0 []) as Ho.
    pose proof (open_round_rounds (Z.to_nat increasePerInterval) st0 []) as R.
    destruct (open_round att connectionCounts (Z.to_nat increasePerInterval) st0 [])
      as [st1 ev]. simpl in Ho, R |- *. rewrite R.
    apply Forall_app. split; [exact H0 |]. constructor; [exact Ho | constructor]. }
  revert st. induction os as [| o os IH]; intros st H E; simpl in E; [discriminate |].
  destruct o as [ae | ae].
  - pose proof (Ht st H) as Ht'.
    destruct (connectionCounts <=? _)%Z; [injection E as <-; exact Ht' |].
    destruct ae; [injection E as <-; exact Ht' | exact (IH _ Ht' E)].
  - destruct ae; [injection E as <-; exact H | exact (IH _ H E)].
Qed.

End RampProofs.

End DriverProofs.

Import Driver DriverProofs.

(** C4: after a Shape B run ([MySQLMultiHeavyHandler]: its trace is any
    interleaving of the workers' traces) or a finished Shape C run
    ([MySQLConnectionHandler]), whatever each open and ping gives, every
    handle is closed exactly as many times as it was opened, and opened at
    most once: each opened handle gets exactly one [Close], on every exit
    path, and nothing is closed twice. *)
Theorem driver_close_exactly_once :
  (forall (connectionCounts : Z) (att : nat -> attempt) (cycles : nat -> nat) (tr : list event),
     Permutation tr (concat (multi_heavy_traces connectionCounts att cycles)) ->
     forall id, cnt (EClose id) tr = cnt (EOpen id) tr /\ (cnt (EOpen id) tr <= 1)%nat) /\
  (forall (att : nat -> attempt) (connectionCounts increasePerInterval intervalSec : Z)
          (os : list obs) (tr : list event),
     connection_stress att connectionCounts increasePerInterval intervalSec os = Some tr ->
     forall id, cnt (EClose id) tr = cnt (EOpen id) tr /\ (cnt (EOpen id) tr <= 1)%nat).
Proof.
  split.
  - intros n att cycles tr Hp id. unfold cnt.
    rewrite !(proj1 (Permutation_count_occ event_eq_dec _ _) Hp).
    destruct (multi_heavy_counts (Z.to_nat n) att cycles id) as [Ho Hc].
    unfold cnt, multi_heavy_traces in *. rewrite Ho, Hc.
    split; [reflexivity |]. destruct (Nat.ltb id (Z.to_nat n)); [destruct (att id) |]; simpl; lia.
  - intros att cc inc sec os tr H id. unfold connection_stress in H.
    destruct (sec <=? 0)%Z; [discriminate |].
    destruct (ramp_loop att cc inc os ramp_init) as [st |] eqn:E; [| discriminate].
    injection H as <-.
    pose proof (ramp_loop_inv att cc inc os ramp_init st (ramp_init_inv att) E) as Hi.
    destruct (run_trace_counts att st id Hi) as (Ho & Hc & Hle).
    rewrite Ho, Hc. split; [reflexivity | exact Hle].
Qed.

Lemma driver_close_exactly_once_witness :
  (cnt (EClose 0) (concat (multi_heavy_traces 3 att_cycle (fun _ => 2%nat)))
     = cnt (EOpen 0) (concat (multi_heavy_traces 3 att_cycle (fun _ => 2%nat))) /\
   (cnt (EOpen 0) (concat (multi_heavy_traces 3 att_cycle (fun _ => 2%nat))) <= 1)%nat) /\
  connection_stress att_cycle 2 2 1 obs_run =
    Some [ETick; EOpen 0; EOpen 1; EClose 1; ETick; EOpen 3; EClose 0; EClose 3] /\
  (cnt (EClose 1) [ETick; EOpen 0; EOpen 1; EClose 1; ETick; EOpen 3; EClose 0; EClose 3]
     = cnt (EOpen 1) [ETick; EOpen 0; EOpen 1; EClose 1; ETick; EOpen 3; EClose 0; EClose 3] /\
   (cnt (EOpen 1) [ETick; EOpen 0; EOpen 1; EClose 1; ETick; EOpen 3; EClose 0; EClose 3] <= 1)%nat).
Proof.
  split; [| split].
  - apply (proj1 driver_close_exactly_once 3%Z att_cycle (fun _ => 2%nat)). apply Permutation_refl.
  - vm_compute. reflexivity.
  - apply (proj2 driver_close_exactly_once att_cycle 2%Z 2%Z 1%Z obs_run). vm_compute. reflexivity.
Defined.

(** C5: in a finished Shape C run with a non-negative target, no point of
    the run holds more than [connectionCounts] open handles (at every
    prefix of the trace, opens minus closes is at most the target); each
    tick opens at most [increasePerInterval] handles; [currentCount] counts
    exactly the attempts whose open and ping both succeeded, so a failed
    open or ping does not count; and a tick that ends below the target has
    made all [increasePerInterval] attempts, so a failure does not stop the
    ramp. *)
Theorem ramp_up_bounds (att : nat -> attempt) (connectionCounts increasePerInterval intervalSec : Z)
    (os : list obs) (tr : list event) :
  (0 <= connectionCounts)%Z ->
  connection_stress att connectionCounts increasePerInterval intervalSec os = Some tr ->
  (forall n, (opens (firstn n tr) <= closes (firstn n tr) + Z.to_nat connectionCounts)%nat) /\
  (exists st, ramp_loop att connectionCounts increasePerInterval os ramp_init = Some st /\
     tr = run_trace st /\
     Forall (fun ev => (opens ev <= Z.to_nat increasePerInterval)%nat) (rounds st) /\
     currentCount st = Z.of_nat (List.length (connections st)) /\
     (forall id, In id (connections st) <-> (id < next_attempt st)%nat /\ att id = OpenOk)) /\
  (forall st0, (currentCount (tick att connectionCounts increasePerInterval st0) < connectionCounts)%Z ->
     next_attempt (tick att connectionCounts increasePerInterval st0)
       = (next_attempt st0 + Z.to_nat increasePerInterval)%nat).
Proof.
  intros Hcc H. unfold connection_stress in H.
  destruct (intervalSec <=? 0)%Z; [discriminate |].
  destruct (ramp_loop att connectionCounts increasePerInterval os ramp_init) as [st |] eqn:E;
    [| discriminate].
  injection H as <-.
  pose proof (ramp_loop_round_inv att connectionCounts increasePerInterval os ramp_init st
                (ramp_init_round_inv connectionCounts Hcc) E)
    as (H0 & H1 & Hb & Hc).
  pose proof (ramp_loop_inv att connectionCounts increasePerInterval os ramp_init st
                (ramp_init_inv att) E) as (_ & _ & _ & Hin & Hcount).
  split; [| split].
  - assert (Hbd : bounded 0 connectionCounts (run_trace st)).
    { assert (ER : run_trace st = (Tr st [] ++ map EClose (connections st))%list)
        by (unfold run_trace, Tr; now rewrite app_nil_r).
      rewrite ER. apply bounded_app; [exact H0 |]. apply bounded_closes.
      rewrite bal_nil in Hb. lia. }
    intro n. specialize (Hbd n). unfold bal in Hbd. lia.
  - exists st. split; [reflexivity | split; [reflexivity | split; [| split]]].
    + apply (ramp_loop_rounds att connectionCounts increasePerInterval os ramp_init st);
        [constructor | exact E].
    + exact Hcount.
    + exact Hin.
  - intros st0. unfold tick.
    pose proof (open_round_attempts att connectionCounts (Z.to_nat increasePerInterval) st0 []) as Ha.
    destruct (open_round att connectionCounts (Z.to_nat increasePerInterval) st0 []) as [st1 ev].
    exact Ha.
Qed.

Lemma ramp_up_bounds_witness :
  (0 <= 2)%Z /\
  connection_stress att_cycle 2%Z 2%Z 1%Z obs_run =
    Some [ETick; EOpen 0; EOpen 1; EClose 1; ETick; EOpen 3; EClose 0; EClose 3] /\
  (forall n, (opens (firstn n [ETick; EOpen 0; EOpen 1; EClose 1; ETick; EOpen 3; EClose 0; EClose 3])
     <= closes (firstn n [ETick; EOpen 0; EOpen 1; EClose 1; ETick; EOpen 3; EClose 0; EClose 3])
        + Z.to_nat 2)%nat).
Proof.
  split; [lia | split; [vm_compute; reflexivity |]].
  apply (ramp_up_bounds att_cycle 2%Z 2%Z 1%Z obs_run); [lia | vm_compute; reflexivity].
Defined.

(* ------------------------------------------------------------------ *)
(** ** Packet loss claim *)

(** C8: while packet loss is active ([activePacketLoss > 0]) and unexpired,
    a request takes exactly one draw [rand.Intn(100)] and is aborted with 503
    ([SERVICE_UNAVAILABLE], "simulated packet loss, request dropped") exactly
    when the roll is below the loss percentage, and continues otherwise;
    after [setPacketLoss] with 100%, every request before the expiry
    [now.Add(time.Duration(maintainSec) * time.Second)] gets that 503; a
    request at or after the expiry continues without a draw, whether or not
    the reset after the sleep has run.  The expiry is [maintainSec]
    seconds after [now] whenever [maintainSec * 10^9] fits in a
    [time.Duration]; beyond that the product wraps. *)
Theorem packet_loss_law :
  (forall (g : Source) (st : Net.net_state) (now : Z) (k : nat),
     (now < Net.packetLossExpiry st)%Z -> (0 < Net.activePacketLoss st)%Z ->
     snd (Net.NetworkStressMiddleware g st now k) = S k /\
     snd (fst (Net.NetworkStressMiddleware g st now k)) =
       (if (intn g k 100 <? Net.activePacketLoss st)%Z then packet_loss_abort else Net.Continue)) /\
  (forall (g : Source) (st : Net.net_state) (t0 maintainSec now : Z) (k : nat),
     valid_source g -> (now < t0 + Net.dur maintainSec Net.second)%Z ->
     snd (fst (Net.NetworkStressMiddleware g (Net.set_packet_loss st t0 100 maintainSec) now k))
       = packet_loss_abort) /\
  (forall (g : Source) (st : Net.net_state) (t0 lossPercentage maintainSec now : Z) (k : nat),
     (t0 + Net.dur maintainSec Net.second <= now)%Z ->
     snd (Net.NetworkStressMiddleware g (Net.set_packet_loss st t0 lossPercentage maintainSec) now k) = k /\
     snd (fst (Net.NetworkStressMiddleware g (Net.set_packet_loss st t0 lossPercentage maintainSec) now k))
       = Net.Continue /\
     snd (fst (Net.NetworkStressMiddleware g
                 (Net.reset_packet_loss (Net.set_packet_loss st t0 lossPercentage maintainSec)) now k))
       = Net.Continue) /\
  (forall (st : Net.net_state) (t0 lossPercentage maintainSec : Z),
     (0 <= maintainSec)%Z -> (maintainSec * Net.second < 2 ^ 63)%Z ->
     Net.packetLossExpiry (Net.set_packet_loss st t0 lossPercentage maintainSec)
       = (t0 + maintainSec * Net.second)%Z).
Proof.
  split; [| split; [| split]].
  - intros g st now k Hnow Hloss. unfold Net.NetworkStressMiddleware.
    apply Z.ltb_lt in Hnow, Hloss. rewrite Hnow, Hloss. simpl.
    destruct (intn g k 100 <? Net.activePacketLoss st)%Z; split; reflexivity.
  - intros g st t0 sec now k [Hv _] Hnow. unfold Net.NetworkStressMiddleware, Net.set_packet_loss.
    cbn [Net.packetLossExpiry Net.activePacketLoss].
    apply Z.ltb_lt in Hnow. rewrite Hnow. simpl.
    specialize (Hv k 100%Z ltac:(lia)).
    destruct (Z.ltb_spec (intn g k 100) 100); [reflexivity | lia].
  - intros g st t0 loss sec now k Hnow. unfold Net.NetworkStressMiddleware, Net.set_packet_loss,
      Net.reset_packet_loss.
    cbn [Net.packetLossExpiry Net.activePacketLoss].
    destruct (Z.ltb_spec now (t0 + Net.dur sec Net.second)); [lia |]. simpl.
    split; [| split]; reflexivity.
  - intros st t0 loss sec H0 H1. cbn [Net.set_packet_loss Net.packetLossExpiry].
    unfold Net.dur, Go.wrap64. unfold Net.second in *.
    rewrite Z.mod_small by lia. lia.
Qed.

Lemma packet_loss_law_witness :
  snd (fst (Net.NetworkStressMiddleware source_zero
              (Net.set_packet_loss {| Net.activeLatencyMs := 0; Net.latencyExpiry := 0;
                                      Net.activePacketLoss := 0; Net.packetLossExpiry := 0 |}
                 0 100 1) 500000000 0%nat)) = packet_loss_abort /\
  snd (fst (Net.NetworkStressMiddleware source_zero
              (Net.set_packet_loss {| Net.activeLatencyMs := 0; Net.latencyExpiry := 0;
                                      Net.activePacketLoss := 0; Net.packetLossExpiry := 0 |}
                 0 100 1) 1000000000 0%nat)) = Net.Continue.
Proof.
  split.
  - apply (proj1 (proj2 packet_loss_law) source_zero _ 0%Z 1%Z 500000000%Z 0%nat);
      [exact source_zero_valid | vm_compute; reflexivity].
  - apply (proj1 (proj2 (proj2 packet_loss_law)) source_zero _ 0%Z 100%Z 1%Z 1000000000%Z 0%nat).
    vm_compute. discriminate.
Defined.

(* ------------------------------------------------------------------ *)
(** ** Downtime claim *)

Import Downtime.

(** C10 (counterexample): after the race, one second in, request 1's
    [resetFunc] has cleared the flag although request 2's 100-second
    downtime, armed earlier, is still running (its [resetFunc] is asleep
    until second 100); a new request is then served. *)
Lemma downtime_shortened_counterexample :
  exists st, run init downtime_race = Some st /\
    downtimeActive st = false /\
    find_key 2 (timers st) = Some (100 * second)%Z /\
    (clock st < 100 * second)%Z /\
    step st (Arrive 3 ROther) = Some st.
Proof.
  eexists. split; [vm_compute; reflexivity |].
  vm_compute. repeat split; reflexivity.
Qed.

(** C10 (amended): while the flag is set, every request reaching
    [DowntimeMiddleware], whatever its route, [POST /stress/downtime]
    included, gets 503 [SERVICE_DOWN] and changes nothing else: it admits
    no handler and starts no timer; and the flag only goes from set to
    cleared by a [resetFunc] waking up.  A downtime request admitted before
    the flag was set can still arm afterwards, and its timer may then clear
    the flag before an earlier arming's timer would. *)
Theorem downtime_short_circuit :
  (forall (st : dt_state) (id : nat) (r : route),
     downtimeActive st = true ->
     step st (Arrive id r) =
       Some {| downtimeActive := true; clock := clock st; timers := timers st;
               admitted := admitted st;
               short_circuited := (short_circuited st ++ [(id, 503%Z, "SERVICE_DOWN")])%list |}) /\
  (forall (st st' : dt_state) (e : dt_event),
     step st e = Some st' -> downtimeActive st = true -> downtimeActive st' = false ->
     exists id wake, e = Fire id /\ find_key id (timers st) = Some wake /\ (wake <= clock st)%Z).
Proof.
  split.
  - intros st id r H. simpl. rewrite H. reflexivity.
  - intros st st' e H Hon Hoff. destruct e as [id r | id | d | id]; simpl in H.
    + rewrite Hon in H. injection H as <-. discriminate.
    + destruct (find_key id (admitted st)); [injection H as <-; discriminate | discriminate].
    + destruct (d <? 0)%Z; [discriminate |]. injection H as <-. simpl in Hoff. congruence.
    + destruct (find_key id (timers st)) as [wake |] eqn:E; [| discriminate].
      destruct (Z.leb_spec wake (clock st)); [| discriminate].
      exists id, wake. auto.
Qed.

(* ------------------------------------------------------------------ *)
(** ** Further properties of the configuration, log and middleware code *)

Module ConvProofs.
Local Open Scope Z_scope.

Lemma digits_acc_app (a : Z) (s1 s2 : string) :
  Go.digits_acc a (s1 ++ s2) =
  match Go.digits_acc a s1 with Some b => Go.digits_acc b s2 | None => None end.
Proof.
  revert a. induction s1 as [| c r IH]; intro a; simpl; [reflexivity |].
  destruct (Go.digit_val c); [apply IH | reflexivity].
Qed.

Lemma digits_fuel_acc (f : nat) (n : Z) (acc : string) :
  Go.digits_of_nat_fuel f n acc = (Go.digits_of_nat_fuel f n "" ++ acc)%string.
Proof.
  revert n acc. induction f as [| f IH]; intros n acc; simpl; [reflexivity |].
  destruct (n / 10 =? 0); [reflexivity |].
  rewrite IH, (IH _ (String _ "")). rewrite <- StrFacts.append_assoc. reflexivity.
Qed.

Lemma digit_val_digit (n : Z) :
  0 <= n -> Go.digit_val (ascii_of_nat (48 + Z.to_nat (n mod 10))) = Some (n mod 10).
Proof.
  intro Hn. pose proof (Z.mod_pos_bound n 10 ltac:(lia)) as Hb.
  remember (n mod 10) as d eqn:Ed. clear Ed.
  assert (Hd : d = 0 \/ d = 1 \/ d = 2 \/ d = 3 \/ d = 4 \/ d = 5 \/ d = 6 \/ d = 7 \/ d = 8 \/ d = 9) by lia.
  repeat destruct Hd as [-> | Hd]; try reflexivity; subst; reflexivity.
Qed.

Lemma digits_acc_one (a : Z) (n : Z) :
  0 <= n ->
  Go.digits_acc a (String (ascii_of_nat (48 + Z.to_nat (n mod 10))) "") = Some (a * 10 + n mod 10).
Proof.
  intro Hn. cbn [Go.digits_acc]. rewrite digit_val_digit by exact Hn. reflexivity.
Qed.

Lemma digits_fuel_S (f : nat) (n : Z) (acc : string) :
  Go.digits_of_nat_fuel (S f) n acc =
  if n / 10 =? 0 then String (ascii_of_nat (48 + Z.to_nat (n mod 10))) acc
  else Go.digits_of_nat_fuel f (n / 10) (String (ascii_of_nat (48 + Z.to_nat (n mod 10))) acc).
Proof. reflexivity. Qed.

Lemma digits_of_nat_fuel_ok (f : nat) (n : Z) :
  0 <= n < 10 ^ Z.of_nat (S f) ->
  Go.digits_acc 0 (Go.digits_of_nat_fuel (S f) n "") = Some n /\
  Go.digits_of_nat_fuel (S f) n "" <> "".
Proof.
  revert n. induction f as [| f IH]; intros n Hn;
    rewrite digits_fuel_S; destruct (Z.eqb_spec (n / 10) 0) as [Hq | Hq].
  - rewrite digits_acc_one by lia. split; [| discriminate].
    f_equal. pose proof (Z.div_mod n 10). lia.
  - exfalso. apply Hq. apply Z.div_small. change (10 ^ Z.of_nat 1) with 10 in Hn. lia.
  - rewrite digits_acc_one by lia. split; [| discriminate].
    f_equal. pose proof (Z.div_mod n 10). lia.
  - rewrite (digits_fuel_acc (S f) (n / 10)).
    assert (Hb : 0 <= n / 10 < 10 ^ Z.of_nat (S f)).
    { split; [apply Z.div_pos; lia |].
      apply Z.div_lt_upper_bound; [lia |].
      rewrite (Nat2Z.inj_succ (S f)), Z.pow_succ_r in Hn by lia. lia. }
    destruct (IH _ Hb) as [H1 H2]. split.
    + rewrite digits_acc_app, H1. rewrite digits_acc_one by lia.
      f_equal. pose proof (Z.div_mod n 10). lia.
    + destruct (Go.digits_of_nat_fuel (S f) (n / 10) ""); [contradiction | discriminate].
Qed.
Lemma nat_digits_ok (z : Z) :
  Go.digits_acc 0 (Go.nat_digits z) = Some (Z.abs z) /\ Go.nat_digits z <> "".
Proof.
  unfold Go.nat_digits. apply digits_of_nat_fuel_ok.
  split; [lia |].
  rewrite Nat2Z.inj_succ, Z2Nat.id by apply Z.log2_nonneg.
  apply Z.lt_le_trans with (2 ^ Z.succ (Z.log2 (Z.abs z + 1))).
  - pose proof (Z.log2_spec (Z.abs z + 1) ltac:(lia)). lia.
  - apply Z.pow_le_mono_l. pose proof (Z.log2_nonneg (Z.abs z + 1)). lia.
Qed.

(** A text of decimal digits starts with a digit. *)
Lemma digits_head (s : string) (v : Z) :
  Go.digits_acc 0 s = Some v -> s <> "" ->
  exists a r, s = String a r /\ Go.digit_val a <> None.
Proof.
  destruct s as [| a r]; [contradiction |]. intros H _. exists a, r. split; [reflexivity |].
  cbn [Go.digits_acc] in H. destruct (Go.digit_val a); discriminate.
Qed.

Lemma digit_not_sign (a : ascii) :
  Go.digit_val a <> None -> Ascii.eqb a "-" = false /\ Ascii.eqb a "+" = false /\
  Ascii.eqb a "R" = false /\ Go.is_space a = false.
Proof.
  intro H. unfold Go.digit_val in H.
  destruct ((48 <=? nat_of_ascii a)%nat && (nat_of_ascii a <=? 57)%nat) eqn:E; [| congruence].
  apply andb_prop in E as [E1 E2]. apply Nat.leb_le in E1, E2.
  repeat split.
  - destruct (Ascii.eqb_spec a "-"); [subst; cbv in E1; lia | reflexivity].
  - destruct (Ascii.eqb_spec a "+"); [subst; cbv in E1; lia | reflexivity].
  - destruct (Ascii.eqb_spec a "R"); [subst; cbv in E2; lia | reflexivity].
  - unfold Go.is_space. repeat (apply orb_false_intro); apply Nat.eqb_neq; lia.
Qed.

(** [strconv.Atoi(strconv.Itoa(z)) = z] on the 64-bit range. *)
Lemma Atoi_Itoa (z : Z) : Go.in_int64 z = true -> Go.Atoi (Go.Itoa z) = inl z.
Proof.
  intro Hz. destruct (nat_digits_ok z) as [Hd Hne].
  destruct (digits_head _ _ Hd Hne) as (a & r & Hs & Ha).
  destruct (digit_not_sign a Ha) as (Hm & Hp & _).
  unfold Go.Itoa. destruct (Z.ltb_spec z 0) as [Hneg | Hpos].
  - rewrite Hs. unfold Go.Atoi. cbn [append]. rewrite Ascii.eqb_refl. cbv beta iota. rewrite <- Hs, Hd.
    replace (- Z.abs z) with z by lia. rewrite Hz. reflexivity.
  - rewrite Hs. unfold Go.Atoi. rewrite Hm, Hp. rewrite <- Hs, Hd.
    replace (Z.abs z) with z by lia. rewrite Hz. reflexivity.
Qed.

(** *** [strings.TrimSpace] around a text without spaces *)

Fixpoint tl_list (p : ascii -> bool) (l : list ascii) : list ascii :=
  match l with
  | [] => []
  | a :: r => if p a then tl_list p r else l
  end.

Lemma chars_app (s1 s2 : string) :
  list_ascii_of_string (s1 ++ s2) = (list_ascii_of_string s1 ++ list_ascii_of_string s2)%list.
Proof. induction s1 as [| a r IH]; simpl; [reflexivity | now rewrite IH]. Qed.

Lemma chars_trim_left (p : ascii -> bool) (s : string) :
  list_ascii_of_string (Go.trim_left p s) = tl_list p (list_ascii_of_string s).
Proof. induction s as [| a r IH]; simpl; [reflexivity |]. destruct (p a); [exact IH | reflexivity]. Qed.

(** On ASCII text the runes are the bytes and [unicode.IsSpace] is
    [is_space]: [strings.TrimSpace] trims the ASCII white space. *)
Definition ascii_list (l : list ascii) : bool := forallb (fun a => (nat_of_ascii a <? 128)%nat) l.

Lemma runes_ascii (l : list ascii) :
  ascii_list l = true -> Go.runes l = map (fun a => (Go.byte a, [a])) l.
Proof.
  induction l as [| a r IH]; intro H; [reflexivity |].
  cbn [ascii_list forallb] in H. apply andb_prop in H as [Ha Hr].
  assert (Hb : (Go.byte a <? 128)%Z = true).
  { unfold Go.byte. apply Nat.ltb_lt in Ha. apply Z.ltb_lt. lia. }
  cbn [Go.runes map]. rewrite Hb, IH by exact Hr. reflexivity.
Qed.

Lemma is_space_rune_ascii (a : ascii) :
  (nat_of_ascii a <? 128)%nat = true -> Go.is_space_rune (Go.byte a) = Go.is_space a.
Proof.
  destruct a as [[] [] [] [] [] [] [] []]; intro H; vm_compute in H |- *;
    first [reflexivity | discriminate].
Qed.

Lemma is_space_ascii (a : ascii) : Go.is_space a = true -> (nat_of_ascii a <? 128)%nat = true.
Proof.
  unfold Go.is_space. intro H. apply Nat.ltb_lt.
  repeat (apply orb_prop in H as [H | H]); apply Nat.eqb_eq in H; lia.
Qed.

Lemma ascii_list_rev (l : list ascii) : ascii_list (rev l) = ascii_list l.
Proof. unfold ascii_list. induction l as [| a r IH]; simpl; [reflexivity |].
  rewrite forallb_app, IH. simpl. rewrite andb_true_r. apply andb_comm. Qed.

Lemma ascii_list_tl (p : ascii -> bool) (l : list ascii) :
  ascii_list l = true -> ascii_list (tl_list p l) = true.
Proof.
  induction l as [| a r IH]; intro H; [reflexivity |]. simpl.
  destruct (p a); [| exact H]. apply IH. cbn in H. apply andb_prop in H. apply H.
Qed.

Lemma drop_spaces_ascii (l : list ascii) :
  ascii_list l = true ->
  Go.drop_spaces (map (fun a => (Go.byte a, [a])) l)
  = map (fun a => (Go.byte a, [a])) (tl_list Go.is_space l).
Proof.
  induction l as [| a r IH]; intro H; [reflexivity |].
  cbn [ascii_list forallb] in H. apply andb_prop in H as [Ha Hr].
  cbn [map Go.drop_spaces tl_list]. rewrite (is_space_rune_ascii a Ha).
  destruct (Go.is_space a); [exact (IH Hr) | reflexivity].
Qed.

Lemma flat_map_bytes (l : list ascii) : flat_map snd (map (fun a => (Go.byte a, [a])) l) = l.
Proof. induction l as [| a r IH]; simpl; [reflexivity | now rewrite IH]. Qed.

Lemma TrimSpace_chars (s : string) :
  Go.is_ascii s = true ->
  Go.TrimSpace s =
  string_of_list_ascii (rev (tl_list Go.is_space (rev (tl_list Go.is_space (list_ascii_of_string s))))).
Proof.
  intro H. change (ascii_list (list_ascii_of_string s) = true) in H.
  unfold Go.TrimSpace. rewrite runes_ascii, drop_spaces_ascii by exact H.
  rewrite <- map_rev, drop_spaces_ascii.
  - rewrite <- map_rev, flat_map_bytes. reflexivity.
  - rewrite ascii_list_rev. apply ascii_list_tl, H.
Qed.

Lemma is_ascii_app (s1 s2 : string) : Go.is_ascii (s1 ++ s2) = Go.is_ascii s1 && Go.is_ascii s2.
Proof. unfold Go.is_ascii. rewrite chars_app. apply forallb_app. Qed.

Lemma spaces_ascii (w : string) :
  forallb Go.is_space (list_ascii_of_string w) = true -> Go.is_ascii w = true.
Proof.
  unfold Go.is_ascii. rewrite !forallb_forall. intros H x Hx. apply is_space_ascii, H, Hx.
Qed.

Lemma tl_list_app_all (p : ascii -> bool) (w l : list ascii) :
  forallb p w = true -> tl_list p (w ++ l) = tl_list p l.
Proof.
  induction w as [| a r IH]; simpl; [reflexivity |].
  intro H. apply andb_prop in H as [Ha Hr]. rewrite Ha. apply IH, Hr.
Qed.

Lemma tl_list_keep (p : ascii -> bool) (l : list ascii) :
  l <> [] -> forallb (fun a => negb (p a)) l = true -> forall rest, tl_list p (l ++ rest) = (l ++ rest)%list.
Proof.
  destruct l as [| a r]; [contradiction |]. intros _ H rest. simpl in H |- *.
  apply andb_prop in H as [Ha _]. destruct (p a); [discriminate | reflexivity].
Qed.

(** Spaces around a non-empty text without spaces are trimmed off. *)
Lemma TrimSpace_pad (w1 s w2 : string) :
  forallb Go.is_space (list_ascii_of_string w1) = true ->
  forallb Go.is_space (list_ascii_of_string w2) = true ->
  s <> "" -> forallb (fun a => negb (Go.is_space a)) (list_ascii_of_string s) = true ->
  Go.is_ascii s = true ->
  Go.TrimSpace (w1 ++ s ++ w2) = s.
Proof.
  intros H1 H2 Hne Hs Ha. rewrite TrimSpace_chars, !chars_app.
  2: { rewrite !is_ascii_app, Ha, !spaces_ascii by assumption. reflexivity. }
  assert (Hl : list_ascii_of_string s <> []) by (destruct s; [contradiction | discriminate]).
  rewrite tl_list_app_all by exact H1. rewrite tl_list_keep by assumption.
  rewrite rev_app_distr, tl_list_app_all by (rewrite forallb_forall in *; intros x Hx; apply H2, in_rev, Hx).
  rewrite <- (app_nil_r (rev (list_ascii_of_string s))).
  rewrite tl_list_keep.
  - rewrite app_nil_r, rev_involutive. apply string_of_list_ascii_of_string.
  - intro E. apply Hl. apply (f_equal (@rev _)) in E. rewrite rev_involutive in E. exact E.
  - rewrite forallb_forall in *. intros x Hx. apply Hs, in_rev, Hx.
Qed.

Lemma TrimSpace_id (s : string) :
  s <> "" -> forallb (fun a => negb (Go.is_space a)) (list_ascii_of_string s) = true ->
  Go.is_ascii s = true -> Go.TrimSpace s = s.
Proof.
  intros H H0 H1. pose proof (TrimSpace_pad "" s "" eq_refl eq_refl H H0 H1) as E.
  cbn [append] in E. rewrite StrFacts.append_empty_r in E. exact E.
Qed.

Lemma digits_acc_chars (a v : Z) (s : string) :
  Go.digits_acc a s = Some v -> forallb (fun c => negb (Go.is_space c)) (list_ascii_of_string s) = true.
Proof.
  revert a. induction s as [| c r IH]; intros a H; [reflexivity |].
  cbn [Go.digits_acc] in H. destruct (Go.digit_val c) eqn:E; [| discriminate].
  cbn [list_ascii_of_string forallb].
  destruct (digit_not_sign c ltac:(congruence)) as (_ & _ & _ & ->).
  exact (IH _ H).
Qed.

(** The text [strconv.Itoa] prints: non-empty, no spaces, and not starting
    with [R]. *)
Lemma Itoa_shape (z : Z) :
  Go.Itoa z <> "" /\
  forallb (fun a => negb (Go.is_space a)) (list_ascii_of_string (Go.Itoa z)) = true /\
  exists a r, Go.Itoa z = String a r /\ Ascii.eqb a "R" = false.
Proof.
  destruct (nat_digits_ok z) as [Hd Hne].
  destruct (digits_head _ _ Hd Hne) as (a & r & Hs & Ha).
  destruct (digit_not_sign a Ha) as (_ & _ & HR & _).
  pose proof (digits_acc_chars _ _ _ Hd) as Hc.
  unfold Go.Itoa. destruct (z <? 0)%Z.
  - split; [discriminate |]. split; [exact Hc |].
    exists "-"%char, (Go.nat_digits z). split; reflexivity.
  - split; [exact Hne |]. split; [exact Hc |]. exists a, r. split; assumption.
Qed.

Lemma digits_acc_ascii (a v : Z) (s : string) :
  Go.digits_acc a s = Some v -> Go.is_ascii s = true.
Proof.
  unfold Go.is_ascii. revert a. induction s as [| c r IH]; intros a H; [reflexivity |].
  cbn [Go.digits_acc] in H. destruct (Go.digit_val c) eqn:E; [| discriminate].
  cbn [list_ascii_of_string forallb]. rewrite (IH _ H), andb_true_r.
  unfold Go.digit_val in E.
  destruct ((48 <=? nat_of_ascii c) && (nat_of_ascii c <=? 57))%nat eqn:Ec; [| discriminate].
  apply andb_prop in Ec as [_ Ec]. apply Nat.leb_le in Ec. apply Nat.ltb_lt. lia.
Qed.

(** [strconv.Itoa] prints ASCII. *)
Lemma Itoa_ascii (z : Z) : Go.is_ascii (Go.Itoa z) = true.
Proof.
  destruct (nat_digits_ok z) as [Hd _]. pose proof (digits_acc_ascii _ _ _ Hd) as H.
  unfold Go.Itoa. destruct (z <? 0)%Z; [| exact H].
  change ("-" ++ Go.nat_digits z)%string with (String "-" (Go.nat_digits z)).
  unfold Go.is_ascii in *. cbn [list_ascii_of_string forallb]. rewrite H. reflexivity.
Qed.

Lemma Itoa_not_random (z : Z) :
  String.eqb (Go.Itoa z) "RANDOM" = false /\ Go.HasPrefix (Go.Itoa z) "RANDOM:" = false.
Proof.
  destruct (Itoa_shape z) as (_ & _ & a & r & -> & HR). split.
  - apply String.eqb_neq. intro E. injection E as Ea _. subst. discriminate.
  - cbn [Go.HasPrefix]. rewrite HR. reflexivity.
Qed.

Lemma processRandomInt_Itoa (g : Source) (w1 w2 : string) (z ds de : Z) (k : nat) :
  Go.in_int64 z = true ->
  forallb Go.is_space (list_ascii_of_string w1) = true ->
  forallb Go.is_space (list_ascii_of_string w2) = true ->
  Duck.processRandomInt g (w1 ++ Go.Itoa z ++ w2) ds de k = (Duck.Ok z, k).
Proof.
  intros Hz H1 H2. destruct (Itoa_shape z) as (Hne & Hc & _).
  destruct (Itoa_not_random z) as [E1 E2].
  pose proof (Itoa_ascii z) as Ha.
  unfold Duck.processRandomInt. rewrite TrimSpace_pad by assumption.
  rewrite E1, E2. unfold Duck.of_atoi. rewrite Atoi_Itoa by exact Hz. reflexivity.
Qed.
End ConvProofs.

Import ConvProofs.

(** X1: a decimal integer, with spaces around it or not, is parsed to its
    value by [processRandomInt], without any draw and whatever the default
    range; [strconv.Atoi] reads back what [strconv.Itoa] prints. *)
Theorem processRandomInt_decimal (g : Source) (w1 w2 : string) (z ds de : Z) (k : nat) :
  Go.in_int64 z = true ->
  forallb Go.is_space (list_ascii_of_string w1) = true ->
  forallb Go.is_space (list_ascii_of_string w2) = true ->
  Go.Atoi (Go.Itoa z) = inl z /\
  Duck.processRandomInt g (w1 ++ Go.Itoa z ++ w2) ds de k = (Duck.Ok z, k).
Proof.
  intros Hz H1 H2. split; [apply Atoi_Itoa, Hz | apply processRandomInt_Itoa; assumption].
Qed.

Lemma processRandomInt_decimal_witness :
  Go.Atoi (Go.Itoa (-42)) = inl (-42)%Z /\
  Duck.processRandomInt source_zero ("  " ++ Go.Itoa (-42) ++ " ") 1 5 0 = (Duck.Ok (-42)%Z, 0%nat).
Proof.
  apply (processRandomInt_decimal source_zero "  " " " (-42) 1 5 0); reflexivity.
Defined.

(** X2: [DuckInt] decodes a JSON number, or a JSON string holding a
    decimal integer with optional spaces around it, to that integer,
    without any draw. *)
Theorem DuckInt_decimal (g : Source) (w1 w2 : string) (z : Z) (k : nat) :
  Go.in_int64 z = true ->
  forallb Go.is_space (list_ascii_of_string w1) = true ->
  forallb Go.is_space (list_ascii_of_string w2) = true ->
  Duck.DuckInt_UnmarshalJSON g (Duck.JNumber (Go.Itoa z)) k = (Duck.Ok z, k) /\
  Duck.DuckInt_UnmarshalJSON g (Duck.JString (w1 ++ Go.Itoa z ++ w2)) k = (Duck.Ok z, k).
Proof.
  intros Hz H1 H2. destruct (Itoa_shape z) as (Hne & Hc & _).
  destruct (Itoa_not_random z) as [E1 E2]. pose proof (Itoa_ascii z) as Ha.
  split.
  - simpl. rewrite Atoi_Itoa by exact Hz. reflexivity.
  - unfold Duck.DuckInt_UnmarshalJSON. rewrite TrimSpace_pad by assumption.
    unfold Duck.processRandomValue. rewrite E1, E2.
    unfold Duck.of_atoi. rewrite Atoi_Itoa by exact Hz. reflexivity.
Qed.

Lemma DuckInt_decimal_witness :
  Duck.DuckInt_UnmarshalJSON source_zero (Duck.JNumber (Go.Itoa 7)) 0 = (Duck.Ok 7%Z, 0%nat) /\
  Duck.DuckInt_UnmarshalJSON source_zero (Duck.JString (" " ++ Go.Itoa 7 ++ " ")) 0
    = (Duck.Ok 7%Z, 0%nat).
Proof. apply (DuckInt_decimal source_zero " " " " 7 0); reflexivity. Defined.

(** X3: [processPort] with a valid source: [PORT=RANDOM] gives a port in
    [[1024, 65535)] (one draw), an unset [PORT] (read as the empty text)
    gives 8080, and a decimal [PORT] is taken as it is, with no range check
    (0, negative or above 65535 included). *)
Theorem processPort_behaviour (g : Source) (k : nat) :
  valid_source g ->
  (exists p, Config.processPort g "RANDOM" k = (Duck.Ok p, S k) /\ (1024 <= p < 65535)%Z) /\
  Config.processPort g "" k = (Duck.Ok 8080%Z, k) /\
  (forall z, Go.in_int64 z = true -> Config.processPort g (Go.Itoa z) k = (Duck.Ok z, k)).
Proof.
  intros Hg. split; [| split].
  - destruct (DuckProofs.draw_between_range g k 1024 65535 Hg eq_refl eq_refl ltac:(lia) ltac:(lia))
      as (v & Hv & Hr).
    assert (E : Duck.processRandomInt g "RANDOM" 1024 65535 k
                = (Duck.draw_between g k 1024 65535, S k)) by reflexivity.
    exists v. unfold Config.processPort. rewrite E, Hv. split; [reflexivity | exact Hr].
  - reflexivity.
  - intros z Hz. unfold Config.processPort.
    pose proof (processRandomInt_Itoa g "" "" z 1024 65535 k Hz eq_refl eq_refl) as E.
    cbn [append] in E. rewrite StrFacts.append_empty_r in E. rewrite E. reflexivity.
Qed.

Lemma processPort_behaviour_witness :
  (exists p, Config.processPort source_top "RANDOM" 0 = (Duck.Ok p, 1%nat) /\ (1024 <= p < 65535)%Z) /\
  Config.processPort source_top "" 0 = (Duck.Ok 8080%Z, 0%nat) /\
  (forall z, Go.in_int64 z = true -> Config.processPort source_top (Go.Itoa z) 0 = (Duck.Ok z, 0%nat)).
Proof. apply processPort_behaviour, DuckProofs.source_top_valid. Defined.

(** X4: the startup delay of [main] with a valid source: [RANDOM] sleeps
    between 1 and 4 seconds (one draw in [[1, 5)]), ["0"] (the default of
    [config.go]) sleeps 0 seconds, and an unset variable (the empty text)
    gives no sleep at all. *)
Theorem startup_delay_behaviour (g : Source) (k : nat) :
  valid_source g ->
  (exists d, Config.startup_delay g "RANDOM" k = (Duck.Ok (Some d), S k) /\ (1 <= d <= 4)%Z) /\
  Config.startup_delay g "0" k = (Duck.Ok (Some 0%Z), k) /\
  Config.startup_delay g "" k = (Duck.Ok None, k).
Proof.
  intros Hg. split; [| split; reflexivity].
  destruct (DuckProofs.draw_between_range g k 1 5 Hg eq_refl eq_refl ltac:(lia) ltac:(lia))
    as (v & Hv & Hr).
  assert (E : Duck.processRandomInt g "RANDOM" 1 5 k = (Duck.draw_between g k 1 5, S k))
    by reflexivity.
  exists v. unfold Config.startup_delay. rewrite E, Hv. split; [reflexivity | lia].
Qed.

Lemma startup_delay_behaviour_witness :
  (exists d, Config.startup_delay source_top "RANDOM" 0 = (Duck.Ok (Some d), 1%nat) /\ (1 <= d <= 4)%Z) /\
  Config.startup_delay source_top "0" 0 = (Duck.Ok (Some 0%Z), 0%nat) /\
  Config.startup_delay source_top "" 0 = (Duck.Ok None, 0%nat).
Proof. apply startup_delay_behaviour, DuckProofs.source_top_valid. Defined.

(** X5: in the individual-variables branch of the service configurations
    ([MYSQL_PORT] with range [[3306, 3306)], and likewise for PostgreSQL,
    Redshift and Redis), with a host set: a port of [RANDOM] panics (an
    empty range, [rand.Intn(0)]) whatever the source; an unset port (the
    empty text) is an error, not the default port; a decimal port is taken
    as it is.  Without a host the configuration is not found, before the
    port is read. *)
Theorem individual_config_port (g : Source) (notFound host portStr : string) (d : Z) (k : nat) :
  host <> "" ->
  Config.individual_config g notFound host "RANDOM" d k = (Duck.Panic, S k) /\
  Config.individual_config g notFound host "" d k = (Duck.Fail (Duck.EParse Go.NumSyntax), k) /\
  (forall z, Go.in_int64 z = true ->
     Config.individual_config g notFound host (Go.Itoa z) d k = (Duck.Ok (host, z), k)) /\
  Config.individual_config g notFound "" portStr d k = (Duck.Fail (Duck.EMsg notFound), k).
Proof.
  intros Hh. unfold Config.individual_config.
  assert (Hf : String.eqb host "" = false) by (apply String.eqb_neq, Hh).
  rewrite Hf. split; [| split; [| split]].
  - assert (E : Duck.processRandomInt g "RANDOM" d d k = (Duck.draw_between g k d d, S k))
      by reflexivity.
    rewrite E. unfold Duck.draw_between, rand_Intn. rewrite Z.sub_diag. reflexivity.
  - reflexivity.
  - intros z Hz.
    pose proof (processRandomInt_Itoa g "" "" z d d k Hz eq_refl eq_refl) as E.
    cbn [append] in E. rewrite StrFacts.append_empty_r in E. rewrite E. reflexivity.
  - reflexivity.
Qed.

Lemma individual_config_port_witness :
  Config.individual_config source_zero "MySQL configuration not found" "db" "RANDOM" 3306 0
    = (Duck.Panic, 1%nat) /\
  Config.individual_config source_zero "MySQL configuration not found" "db" "" 3306 0
    = (Duck.Fail (Duck.EParse Go.NumSyntax), 0%nat) /\
  (forall z, Go.in_int64 z = true ->
     Config.individual_config source_zero "MySQL configuration not found" "db" (Go.Itoa z) 3306 0
       = (Duck.Ok ("db", z), 0%nat)) /\
  Config.individual_config source_zero "MySQL configuration not found" "" "3306" 3306 0
    = (Duck.Fail (Duck.EMsg "MySQL configuration not found"), 0%nat).
Proof. apply individual_config_port. discriminate. Defined.

Module TimeFmtProofs.

Fixpoint lookup_c (b : ascii) (T : list (ascii * string)) : option string :=
  match T with
  | [] => None
  | (c, w) :: r => if Ascii.eqb c b then Some w else lookup_c b r
  end.

(** One left-to-right pass replacing each [%c] with [c] a key of [T]. *)
Fixpoint pct_replace (T : list (ascii * string)) (s : string) : string :=
  match s with
  | EmptyString => EmptyString
  | String a r =>
      if Ascii.eqb a "%" then
        match r with
        | String b r' =>
            match lookup_c b T with
            | Some w => w ++ pct_replace T r'
            | None => String a (pct_replace T r)
            end
        | EmptyString => String a EmptyString
        end
      else String a (pct_replace T r)
  end.

Lemma substring_all (s : string) (m : nat) :
  (String.length s <= m)%nat -> substring 0 m s = s.
Proof.
  revert m. induction s as [| a r IH]; intros m Hm; destruct m; simpl in *;
    try reflexivity; try lia.
  rewrite IH by lia. reflexivity.
Qed.

Lemma ReplaceAll_fuel_pct (c : ascii) (w : string) (f : nat) (s : string) :
  c <> "%"%char -> (String.length s <= f)%nat ->
  Go.ReplaceAll_fuel f s (String "%" (String c "")) w = pct_replace [(c, w)] s.
Proof.
  intro Hc. revert s. induction f as [| f IH]; intros s Hl.
  - destruct s; [reflexivity | simpl in Hl; lia].
  - destruct s as [| a r]; [reflexivity |]. cbn [Go.ReplaceAll_fuel pct_replace].
    simpl in Hl.
    destruct (Ascii.eqb_spec a "%") as [-> | Ha].
    + destruct r as [| b r'].
      * cbn [Go.HasPrefix]. rewrite Ascii.eqb_refl. cbn [andb].
        destruct f; reflexivity.
      * cbn [Go.HasPrefix lookup_c]. rewrite Ascii.eqb_refl. cbn [andb].
        destruct (Ascii.eqb_spec b c) as [-> | Hb].
        -- rewrite Ascii.eqb_refl. cbn [andb Go.HasPrefix].
           change (String.length (String "%" (String c "")))%nat with 2%nat.
           cbn [substring String.length]. simpl in Hl.
           rewrite substring_all by lia. rewrite (IH r') by lia. reflexivity.
        -- destruct (Ascii.eqb_spec c b) as [E | _]; [congruence |].
           cbn [andb]. rewrite IH by (simpl in Hl |- *; lia). reflexivity.
    + cbn [Go.HasPrefix]. assert (Ascii.eqb a "%" = false) as -> by (apply Ascii.eqb_neq; exact Ha).
      cbn [andb]. rewrite IH by lia. reflexivity.
Qed.


Lemma pct_end (T : list (ascii * string)) : pct_replace T (String "%" "") = String "%" "".
Proof. reflexivity. Qed.

Lemma pct_pct (T : list (ascii * string)) (b : ascii) (r : string) :
  pct_replace T (String "%" (String b r)) =
  match lookup_c b T with
  | Some w => w ++ pct_replace T r
  | None => String "%" (pct_replace T (String b r))
  end.
Proof. reflexivity. Qed.

Lemma pct_other (T : list (ascii * string)) (a : ascii) (r : string) :
  a <> "%"%char -> pct_replace T (String a r) = String a (pct_replace T r).
Proof.
  intro Ha. cbn [pct_replace]. apply Ascii.eqb_neq in Ha. rewrite Ha. reflexivity.
Qed.

Definition is_digit (a : ascii) : bool :=
  match Go.digit_val a with Some _ => true | None => false end.

(** A replacement text: non-empty, all decimal digits. *)
Definition digit_text (v : string) : Prop :=
  v <> "" /\ forallb is_digit (list_ascii_of_string v) = true.

Definition good_table (T : list (ascii * string)) : Prop :=
  forall b v, lookup_c b T = Some v -> digit_text v.

Lemma digit_not_pct (a : ascii) : is_digit a = true -> a <> "%"%char.
Proof. intros H E. subst. discriminate. Qed.

Lemma digit_not_key (a c : ascii) : is_digit a = true -> Go.digit_val c = None -> a <> c.
Proof. intros H Hc E. subst. unfold is_digit in H. rewrite Hc in H. discriminate. Qed.

Lemma pct_digits (T : list (ascii * string)) (v X : string) :
  forallb is_digit (list_ascii_of_string v) = true ->
  pct_replace T (v ++ X) = (v ++ pct_replace T X)%string.
Proof.
  induction v as [| a r IH]; intro H; [reflexivity |].
  cbn [list_ascii_of_string forallb] in H. apply andb_prop in H as [Ha Hr].
  cbn [append]. rewrite pct_other by (apply digit_not_pct, Ha). rewrite IH by exact Hr.
  reflexivity.
Qed.

Definition head_not (c : ascii) (Y : string) : Prop :=
  match Y with String a _ => a <> c | EmptyString => True end.

Lemma repl_pct_cons (c : ascii) (w Y : string) :
  head_not c Y -> pct_replace [(c, w)] (String "%" Y) = String "%" (pct_replace [(c, w)] Y).
Proof.
  destruct Y as [| b r]; intro H; [reflexivity |].
  rewrite pct_pct. cbn [lookup_c]. simpl in H.
  destruct (Ascii.eqb_spec c b) as [E | _]; [congruence | reflexivity].
Qed.

Lemma head_pct (T : list (ascii * string)) (c b : ascii) (r : string) :
  Go.digit_val c = None -> c <> "%"%char -> good_table T ->
  b <> c -> lookup_c b T = None -> head_not c (pct_replace T (String b r)).
Proof.
  intros Hc Hcp HT Hb Hl.
  destruct (Ascii.eqb_spec b "%") as [-> | Hbp].
  - destruct r as [| b2 r'].
    + simpl. congruence.
    + rewrite pct_pct. destruct (lookup_c b2 T) as [v |] eqn:E.
      * destruct (HT _ _ E) as [Hne Hd]. destruct v as [| a v']; [contradiction |].
        cbn [list_ascii_of_string forallb] in Hd. apply andb_prop in Hd as [Ha _].
        simpl. apply (digit_not_key a c Ha Hc).
      * simpl. congruence.
  - rewrite pct_other by exact Hbp. simpl. exact Hb.
Qed.

Lemma lookup_cons_ne (c b : ascii) (w : string) (T : list (ascii * string)) :
  b <> c -> lookup_c b ((c, w) :: T) = lookup_c b T.
Proof. intro H. cbn [lookup_c]. destruct (Ascii.eqb_spec c b); [congruence | reflexivity]. Qed.

(** Replacing [%c] after a pass over [T] is one pass over [(c, w) :: T]. *)
Lemma pct_compose (T : list (ascii * string)) (c : ascii) (w : string) (s : string) :
  c <> "%"%char -> Go.digit_val c = None -> lookup_c c T = None -> good_table T ->
  pct_replace [(c, w)] (pct_replace T s) = pct_replace ((c, w) :: T) s.
Proof.
  intros Hcp Hc HcT HT.
  remember (String.length s) as n eqn:En. assert (Hn : (String.length s <= n)%nat) by lia.
  clear En. revert s Hn. induction n as [| n IH]; intros s Hn.
  { destruct s; [reflexivity | simpl in Hn; lia]. }
  destruct s as [| a r]; [reflexivity |]. simpl in Hn.
  destruct (Ascii.eqb_spec a "%") as [-> | Ha].
  - destruct r as [| b r'].
    + reflexivity.
    + rewrite !pct_pct. simpl in Hn.
      destruct (Ascii.eqb_spec b c) as [-> | Hb].
      * rewrite HcT. cbn [lookup_c]. rewrite Ascii.eqb_refl.
        rewrite (pct_other T c r' Hcp). rewrite pct_pct. cbn [lookup_c].
        rewrite Ascii.eqb_refl. rewrite IH by lia. reflexivity.
      * rewrite lookup_cons_ne by exact Hb.
        destruct (lookup_c b T) as [v |] eqn:E.
        -- destruct (HT _ _ E) as [_ Hd]. rewrite pct_digits by exact Hd.
           rewrite IH by lia. reflexivity.
        -- rewrite repl_pct_cons by (apply head_pct; assumption).
           rewrite IH by (simpl; lia). reflexivity.
  - rewrite !pct_other by exact Ha. rewrite IH by lia. reflexivity.
Qed.


Lemma pct_ext (T1 T2 : list (ascii * string)) (s : string) :
  (forall b, lookup_c b T1 = lookup_c b T2) -> pct_replace T1 s = pct_replace T2 s.
Proof.
  intro H. remember (String.length s) as n eqn:En.
  assert (Hn : (String.length s <= n)%nat) by lia. clear En.
  revert s Hn. induction n as [| n IH]; intros s Hn.
  { destruct s; [reflexivity | simpl in Hn; lia]. }
  destruct s as [| a r]; [reflexivity |]. simpl in Hn.
  destruct (Ascii.eqb_spec a "%") as [-> | Ha].
  - destruct r as [| b r']; [reflexivity |]. rewrite !pct_pct, H.
    destruct (lookup_c b T2); rewrite IH by (simpl in *; lia); reflexivity.
  - rewrite !pct_other by exact Ha. rewrite IH by lia. reflexivity.
Qed.

Lemma pct_nil (s : string) : pct_replace [] s = s.
Proof.
  remember (String.length s) as n eqn:En.
  assert (Hn : (String.length s <= n)%nat) by lia. clear En.
  revert s Hn. induction n as [| n IH]; intros s Hn.
  { destruct s; [reflexivity | simpl in Hn; lia]. }
  destruct s as [| a r]; [reflexivity |]. simpl in Hn.
  destruct (Ascii.eqb_spec a "%") as [-> | Ha].
  - destruct r as [| b r']; [reflexivity |]. rewrite pct_pct. cbn [lookup_c].
    rewrite IH by (simpl in *; lia). reflexivity.
  - rewrite pct_other by exact Ha. rewrite IH by lia. reflexivity.
Qed.

Lemma lookup_in (b : ascii) (v : string) (T : list (ascii * string)) :
  lookup_c b T = Some v -> In (b, v) T.
Proof.
  induction T as [| [c w] r IH]; cbn [lookup_c]; [discriminate |].
  destruct (Ascii.eqb_spec c b) as [-> | _]; intro H.
  - injection H as ->. left. reflexivity.
  - right. apply IH, H.
Qed.

Lemma lookup_notin (b : ascii) (T : list (ascii * string)) :
  ~ In b (map fst T) -> lookup_c b T = None.
Proof.
  induction T as [| [c w] r IH]; cbn [lookup_c map fst]; [reflexivity |].
  intro H. destruct (Ascii.eqb_spec c b) as [-> | _].
  - exfalso. apply H. left. reflexivity.
  - apply IH. intro H'. apply H. right. exact H'.
Qed.

Lemma lookup_perm (T1 T2 : list (ascii * string)) :
  NoDup (map fst T1) -> Permutation T1 T2 -> forall b, lookup_c b T1 = lookup_c b T2.
Proof.
  intros Hnd HP. induction HP as [| [c w] l l' HP IH | [c w] [d v] l | l l' l'' H1 IH1 H2 IH2];
    intro b.
  - reflexivity.
  - cbn [lookup_c]. inversion Hnd; subst. rewrite IH by assumption. reflexivity.
  - cbn [lookup_c]. inversion Hnd as [| x xs Hx Hnd']; subst. cbn [map fst] in Hx.
    destruct (Ascii.eqb_spec d b) as [-> | _], (Ascii.eqb_spec c b) as [-> | _]; try reflexivity.
    exfalso. apply Hx. left. reflexivity.
  - rewrite IH1 by exact Hnd. apply IH2.
    apply (Permutation_NoDup (Permutation_map fst H1) Hnd).
Qed.

Definition entry_ok (cw : ascii * string) : Prop :=
  fst cw <> "%"%char /\ Go.digit_val (fst cw) = None /\ digit_text (snd cw).

Definition mk (cw : ascii * string) : string * string := (String "%" (String (fst cw) ""), snd cw).

Definition step (r : string) (kv : string * string) : string := Go.ReplaceAll r (fst kv) (snd kv).

Lemma fold_pct (L P : list (ascii * string)) (s0 : string) :
  Forall entry_ok (L ++ P) -> NoDup (map fst (L ++ P)) ->
  fold_left step (map mk L) (pct_replace P s0) = pct_replace (rev L ++ P) s0.
Proof.
  revert P. induction L as [| [c w] L IH]; intros P HF Hnd; [reflexivity |].
  cbn [map fold_left rev]. rewrite <- app_assoc. cbn [app].
  inversion HF as [| x xs [Hcp [Hc _]] HF']; subst.
  cbn [map app fst] in Hnd. inversion Hnd as [| y ys Hy Hnd']; subst.
  assert (E : step (pct_replace P s0) (mk (c, w)) = pct_replace ((c, w) :: P) s0).
  { unfold step, mk, Go.ReplaceAll. cbn [fst snd].
    rewrite ReplaceAll_fuel_pct by (auto; lia).
    apply pct_compose; try assumption.
    - apply lookup_notin. intro H. apply Hy. rewrite map_app. apply in_or_app. right. exact H.
    - intros b v Hl. apply lookup_in in Hl.
      rewrite Forall_forall in HF'. apply (HF' (b, v)). apply in_or_app. right. exact Hl. }
  rewrite E. apply IH.
  - apply Forall_app in HF' as [HL HP]. apply Forall_app. split; [exact HL |].
    constructor; [split; [exact Hcp | split; [exact Hc |]] | exact HP].
    rewrite Forall_forall in HF. apply (HF (c, w)). left. reflexivity.
  - rewrite map_app. cbn [map fst]. rewrite map_app in Hy, Hnd'.
    apply (Permutation_NoDup (Permutation_middle _ _ _)). constructor; assumption.
Qed.

Definition time_table : list (ascii * string) :=
  [("Y"%char, "2006"); ("m"%char, "01"); ("d"%char, "02"); ("H"%char, "15");
   ("M"%char, "04"); ("S"%char, "05")].

Lemma replacements_table : TimeFmt.replacements = map mk time_table.
Proof. reflexivity. Qed.

Lemma time_table_ok : Forall entry_ok time_table.
Proof.
  repeat constructor; try discriminate; reflexivity.
Qed.

Lemma time_table_nodup : NoDup (map fst time_table).
Proof.
  cbn. repeat constructor; cbn; intuition discriminate.
Qed.

(** Any order of the map gives one pass over the table. *)
Lemma convert_in_pct (L : list (ascii * string)) (s : string) :
  Permutation time_table L ->
  TimeFmt.convertTimeFormat_in (map mk L) s = pct_replace time_table s.
Proof.
  intro HP.
  assert (HF : Forall entry_ok (L ++ [])).
  { rewrite app_nil_r. rewrite Forall_forall. intros x Hx.
    apply (Permutation_in _ (Permutation_sym HP)) in Hx.
    pose proof time_table_ok as Ht. rewrite Forall_forall in Ht. apply Ht, Hx. }
  assert (Hnd : NoDup (map fst (L ++ []))).
  { rewrite app_nil_r. apply (Permutation_NoDup (Permutation_map fst HP) time_table_nodup). }
  unfold TimeFmt.convertTimeFormat_in. rewrite <- (pct_nil s) at 1.
  fold step. rewrite (fold_pct L [] s HF Hnd), app_nil_r.
  apply pct_ext. intro b. symmetry. apply lookup_perm; [exact time_table_nodup |].
  apply (perm_trans HP), Permutation_rev.
Qed.

End TimeFmtProofs.

Import TimeFmtProofs.

(** X6: [convertTimeFormat] does not depend on the order in which the
    [range] over its map visits the six entries: every order gives the
    layout of the model's order, which is one left-to-right pass
    replacing each [%Y], [%m], [%d], [%H], [%M], [%S]. *)
Theorem convertTimeFormat_order_independent (order : list (string * string)) (format : string) :
  Permutation order TimeFmt.replacements ->
  TimeFmt.convertTimeFormat_in order format = LogFmt.convertTimeFormat format /\
  LogFmt.convertTimeFormat format = pct_replace time_table format.
Proof.
  intro HP. rewrite replacements_table in HP.
  destruct (Permutation_map_inv _ _ HP) as (L & -> & HL).
  assert (E : LogFmt.convertTimeFormat format
              = TimeFmt.convertTimeFormat_in (map mk time_table) format) by reflexivity.
  rewrite E, !convert_in_pct by (assumption || reflexivity). split; reflexivity.
Qed.

Lemma convertTimeFormat_order_independent_witness :
  TimeFmt.convertTimeFormat_in (rev TimeFmt.replacements) "%Y-%m-%dT%H:%M:%S %%d"
    = LogFmt.convertTimeFormat "%Y-%m-%dT%H:%M:%S %%d" /\
  LogFmt.convertTimeFormat "%Y-%m-%dT%H:%M:%S %%d"
    = pct_replace time_table "%Y-%m-%dT%H:%M:%S %%d".
Proof.
  apply convertTimeFormat_order_independent. apply Permutation_sym, Permutation_rev.
Defined.

(** X7: the unit [micros], which the random generator can give a latency,
    is not a unit [resolvePlaceholder] knows (it knows [mcs], which prints
    [float64(ns) / 1000] with [%g]), and neither is the size unit [b]: such
    a placeholder renders exactly as the one without a unit (auto-scaled,
    with a unit label). *)
Theorem generator_units_unrecognised (ul : Z -> Z) (c : LogFmt.gin_ctx) (latency : Z) :
  LogFmt.resolvePlaceholder ul "latency:micros" c latency
    = LogFmt.resolvePlaceholder ul "latency" c latency /\
  LogFmt.resolvePlaceholder ul "request_size:b" c latency
    = LogFmt.resolvePlaceholder ul "request_size" c latency /\
  LogFmt.resolvePlaceholder ul "response_size:b" c latency
    = LogFmt.resolvePlaceholder ul "response_size" c latency /\
  LogFmt.resolvePlaceholder ul "latency:mcs" c latency
    = Some (LogFmt.Sprintf_g (F64.div (F64.of_int latency) (F64.of_int 1000))).
Proof. split; [| split; [| split]]; reflexivity. Qed.

Module CaseProofs.























End CaseProofs.

Import CaseProofs.



Module InitProofs.
Import RandFormatProofs.

Lemma ph_in (m : string) (l : list LogFmt.seg) : In (LogFmt.SPh m) l -> In m (ph_contents l).
Proof.
  intro H. unfold ph_contents. apply in_flat_map. exists (LogFmt.SPh m). split; [exact H | left; reflexivity].
Qed.

(** Every match of a format whose keys are all supported resolves. *)
Lemma keys_resolve (ul : Z -> Z) (fmt : string) :
  incl (RandFormat.format_keys ul fmt) LogFmt.supported_keys ->
  forall m c latency, In (LogFmt.SPh m) (LogFmt.scan fmt) ->
    exists v, LogFmt.resolvePlaceholder ul (Go.Trim ("{" ++ m ++ "}") "{}") c latency = Some v.
Proof.
  intros Hk m c latency Hm.
  destruct (LogFmt.resolvePlaceholder ul (Go.Trim ("{" ++ m ++ "}") "{}") c latency) as [v |] eqn:E;
    [exists v; reflexivity |].
  apply LogProofs.resolvePlaceholder_none_iff in E. exfalso. apply E. apply Hk.
  rewrite format_keys_text_keys. unfold text_keys. apply in_map_iff.
  exists m. split; [reflexivity | apply ph_in, Hm].
Qed.

Lemma all_names_supported : incl all_names LogFmt.supported_keys.
Proof. intros x Hx. simpl in Hx |- *. tauto. Qed.

Lemma generated_keys_supported (ul : Z -> Z) (g : Source) (fmt : string) (k k' : nat) :
  RandFormat.generateRandomGlobalLogFormat g k = Some (fmt, k') ->
  incl (RandFormat.format_keys ul fmt) LogFmt.supported_keys.
Proof.
  intro H. apply (generate_keys ul) in H as (oc & pl & _ & Hinv & Hperm).
  destruct Hinv as (opts & -> & _ & Hincl & _).
  intros x Hx. apply all_names_supported. apply (Permutation_in _ Hperm) in Hx.
  unfold all_names. apply in_app_or in Hx as [Hx | Hx]; apply in_or_app; auto.
Qed.

End InitProofs.

(** X9: for [LOG_FORMAT] [apache], [nginx], [full] or [random], in any
    case ([strings.ToLower] of it is one of them), every placeholder of the
    format [initConfig] selects resolves: [FormatLogMessage] never prints
    [ERR] for it; whatever the case table [ul]. *)
Theorem initConfig_format_resolves (ul : Z -> Z) (g : Source) (logFormat fmt : string)
    (k k' : nat) :
  In (Go.ToLower ul logFormat) ["apache"; "nginx"; "full"; "random"] ->
  Config.initConfig_format ul g logFormat k = Some (fmt, k') ->
  forall m c latency, In (LogFmt.SPh m) (LogFmt.scan fmt) ->
    exists v, LogFmt.resolvePlaceholder ul (Go.Trim ("{" ++ m ++ "}") "{}") c latency = Some v.
Proof.
  intros Hl H. apply InitProofs.keys_resolve.
  unfold Config.initConfig_format in H.
  destruct Hl as [E | [E | [E | [E | []]]]]; rewrite <- E in H; cbn [String.eqb Ascii.eqb Bool.eqb andb] in H.
  all: try (injection H as <- _; intros x Hx; vm_compute in Hx; simpl; intuition congruence).
  apply (InitProofs.generated_keys_supported ul) in H. exact H.
Qed.

Lemma initConfig_format_resolves_witness :
  exists v, LogFmt.resolvePlaceholder ul_self
              (Go.Trim ("{" ++ "time:%d/%m/%Y:%H:%M:%S" ++ "}") "{}") sample_ctx 0 = Some v.
Proof.
  apply (initConfig_format_resolves ul_self source_zero "Apache" Config.apache_format 0 0);
    [vm_compute; tauto | reflexivity | vm_compute; tauto].
Defined.

Module InjectProofs.
Import Net Inject.
Local Open Scope Z_scope.

Lemma qlt_true (x y : Q) : (x < y)%Q -> RandFormat.qlt x y = true.
Proof.
  intro H. unfold RandFormat.qlt. destruct (Qle_bool y x) eqn:E; [| reflexivity].
  apply Qle_bool_iff in E. exfalso. apply (Qlt_not_le _ _ H E).
Qed.

Lemma qlt_false (x y : Q) : (y <= x)%Q -> RandFormat.qlt x y = false.
Proof. intro H. unfold RandFormat.qlt. apply Qle_bool_iff in H. rewrite H. reflexivity. Qed.

End InjectProofs.

(** X10: an error injection set at [t0] for [durationSec] seconds expires
    at [t0 + time.Duration(durationSec) * time.Second] (the product wrapping
    in 64 bits): with a valid source and a rate of at least 1, every request
    from [t0] to that expiry is answered 500 [RANDOM_ERROR] (one draw each);
    from the expiry on, or with a rate of at most 0, or once [resetFunc] has
    set the rate to 0, requests go on and nothing is drawn. *)
Theorem error_injection_window (g : Source) (t0 durationSec now : Z) (rate : Q) (k : nat) :
  valid_source g ->
  ((t0 <= now < t0 + Net.dur durationSec Net.second)%Z -> (1 <= rate)%Q ->
     Inject.ErrorInjectionMiddleware g (Inject.set_error_injection t0 rate durationSec) now k
       = (Net.Abort 500 "RANDOM_ERROR" "simulated random error injection", S k)) /\
  ((t0 + Net.dur durationSec Net.second <= now)%Z ->
     Inject.ErrorInjectionMiddleware g (Inject.set_error_injection t0 rate durationSec) now k
       = (Net.Continue, k)) /\
  ((rate <= 0)%Q ->
     Inject.ErrorInjectionMiddleware g (Inject.set_error_injection t0 rate durationSec) now k
       = (Net.Continue, k)) /\
  Inject.ErrorInjectionMiddleware g
    (Inject.reset_error_rate (Inject.set_error_injection t0 rate durationSec)) now k = (Net.Continue, k).
Proof.
  intros [_ Hf]. unfold Inject.ErrorInjectionMiddleware, Inject.set_error_injection,
    Inject.reset_error_rate. cbn [Inject.activeErrorRate Inject.errorInjectionExpiry].
  split; [| split; [| split]].
  - intros Hn Hr. rewrite (proj2 (Z.ltb_lt now _)) by lia.
    rewrite InjectProofs.qlt_true by (apply Qlt_le_trans with 1%Q; [reflexivity | exact Hr]).
    rewrite InjectProofs.qlt_true
      by (apply Qlt_le_trans with 1%Q; [apply Hf | exact Hr]).
    reflexivity.
  - intro Hn. rewrite (proj2 (Z.ltb_ge now _)) by lia. reflexivity.
  - intro Hr. rewrite (InjectProofs.qlt_false 0 rate Hr), andb_false_r. reflexivity.
  - rewrite InjectProofs.qlt_false by apply Qle_refl. rewrite andb_false_r. reflexivity.
Qed.

Lemma error_injection_window_witness :
  (((0 <= 5 < 0 + Net.dur 10 Net.second)%Z -> (1 <= 1)%Q ->
     Inject.ErrorInjectionMiddleware source_top (Inject.set_error_injection 0 1 10) 5 0
       = (Net.Abort 500 "RANDOM_ERROR" "simulated random error injection", 1%nat)) /\
  ((0 + Net.dur 10 Net.second <= 5)%Z ->
     Inject.ErrorInjectionMiddleware source_top (Inject.set_error_injection 0 1 10) 5 0
       = (Net.Continue, 0%nat)) /\
  ((1 <= 0)%Q ->
     Inject.ErrorInjectionMiddleware source_top (Inject.set_error_injection 0 1 10) 5 0
       = (Net.Continue, 0%nat)) /\
  Inject.ErrorInjectionMiddleware source_top
    (Inject.reset_error_rate (Inject.set_error_injection 0 1 10)) 5 0 = (Net.Continue, 0%nat)).
Proof. apply error_injection_window, DuckProofs.source_top_valid. Defined.

(** X11: the order of the router's middlewares: while downtime is active a
    request is answered 503 [SERVICE_DOWN] with no sleep and no draw,
    whatever the latency, packet loss and error injection in force; with
    none of them in force it goes on with no sleep and no draw. *)
Theorem middleware_chain_downtime_first (g : Source) (ns : Net.net_state) (ei : Inject.ei_state)
    (now : Z) (k : nat) :
  Inject.middleware_chain g true ns ei now k
    = (0%Z, Net.Abort 503 "SERVICE_DOWN" "Service is temporarily unavailable", k) /\
  ((Net.latencyExpiry ns <= now \/ Net.activeLatencyMs ns <= 0)%Z ->
   (Net.packetLossExpiry ns <= now \/ Net.activePacketLoss ns <= 0)%Z ->
   (Inject.errorInjectionExpiry ei <= now)%Z \/ (Inject.activeErrorRate ei <= 0)%Q ->
   Inject.middleware_chain g false ns ei now k = (0%Z, Net.Continue, k)).
Proof.
  split; [reflexivity |]. intros Hl Hp He.
  unfold Inject.middleware_chain, Inject.DowntimeMiddleware, Net.NetworkStressMiddleware.
  assert (E1 : ((now <? Net.latencyExpiry ns) && (0 <? Net.activeLatencyMs ns))%Z = false).
  { destruct Hl as [H | H]; [rewrite (proj2 (Z.ltb_ge _ _) H) | rewrite (proj2 (Z.ltb_ge _ _) H), andb_false_r];
    reflexivity. }
  assert (E2 : ((now <? Net.packetLossExpiry ns) && (0 <? Net.activePacketLoss ns))%Z = false).
  { destruct Hp as [H | H]; [rewrite (proj2 (Z.ltb_ge _ _) H) | rewrite (proj2 (Z.ltb_ge _ _) H), andb_false_r];
    reflexivity. }
  rewrite E1, E2, Z.add_0_r. unfold Inject.ErrorInjectionMiddleware.
  destruct He as [H | H].
  - rewrite (proj2 (Z.ltb_ge _ _) H). reflexivity.
  - rewrite InjectProofs.qlt_false by exact H. rewrite andb_false_r. reflexivity.
Qed.

(** X12: the packet-loss check comes before error injection, and error
    injection reads the clock after the latency sleep, which lasts
    [time.Duration(latency) * time.Millisecond] (the product wrapping in
    64 bits; no sleep when that is not positive).  With a valid source: a
    request dropped by packet loss consumes one draw only (error injection
    never rolls) and still sleeps the latency; and with no packet loss in
    force, a latency sleep that reaches the end of the error-injection
    window lets the request through with no draw. *)
Theorem middleware_chain_order (g : Source) (ns : Net.net_state) (ei : Inject.ei_state)
    (now : Z) (k : nat) :
  valid_source g ->
  ((now < Net.packetLossExpiry ns)%Z -> (intn g k 100 < Net.activePacketLoss ns)%Z ->
     Inject.middleware_chain g false ns ei now k
       = (if ((now <? Net.latencyExpiry ns) && (0 <? Net.activeLatencyMs ns))%Z
          then Net.slept (Net.dur (Net.activeLatencyMs ns) Net.millisecond) else 0%Z,
          packet_loss_abort, S k)) /\
  ((Net.packetLossExpiry ns <= now \/ Net.activePacketLoss ns <= 0)%Z ->
   (now < Net.latencyExpiry ns)%Z -> (0 < Net.activeLatencyMs ns)%Z ->
   (Inject.errorInjectionExpiry ei
      <= now + Net.slept (Net.dur (Net.activeLatencyMs ns) Net.millisecond))%Z ->
     Inject.middleware_chain g false ns ei now k
       = (Net.slept (Net.dur (Net.activeLatencyMs ns) Net.millisecond), Net.Continue, k)).
Proof.
  intros [Hv _]. split.
  - intros Hp Hd. pose proof (Hv k 100%Z ltac:(lia)) as Hr.
    unfold Inject.middleware_chain, Inject.DowntimeMiddleware, Net.NetworkStressMiddleware.
    rewrite (proj2 (Z.ltb_lt now _) Hp), (proj2 (Z.ltb_lt 0 _)) by lia.
    rewrite (proj2 (Z.ltb_lt _ _) Hd). reflexivity.
  - intros Hp Hl Hlat He.
    unfold Inject.middleware_chain, Inject.DowntimeMiddleware, Net.NetworkStressMiddleware.
    rewrite (proj2 (Z.ltb_lt now _) Hl), (proj2 (Z.ltb_lt 0 _) Hlat).
    assert (E2 : ((now <? Net.packetLossExpiry ns) && (0 <? Net.activePacketLoss ns))%Z = false).
    { destruct Hp as [H | H];
        [rewrite (proj2 (Z.ltb_ge _ _) H) | rewrite (proj2 (Z.ltb_ge _ _) H), andb_false_r];
        reflexivity. }
    rewrite E2. cbn [andb]. unfold Inject.ErrorInjectionMiddleware.
    rewrite (proj2 (Z.ltb_ge _ _) He). reflexivity.
Qed.

Lemma middleware_chain_order_witness :
  let ns := {| Net.activeLatencyMs := 200; Net.latencyExpiry := 10 * Net.second;
               Net.activePacketLoss := 50; Net.packetLossExpiry := 10 * Net.second |} in
  let ei := {| Inject.activeErrorRate := 1; Inject.errorInjectionExpiry := 10 * Net.second |} in
  (((0 < Net.packetLossExpiry ns)%Z -> (intn source_zero 0 100 < Net.activePacketLoss ns)%Z ->
     Inject.middleware_chain source_zero false ns ei 0 0
       = (if ((0 <? Net.latencyExpiry ns) && (0 <? Net.activeLatencyMs ns))%Z
          then Net.slept (Net.dur (Net.activeLatencyMs ns) Net.millisecond) else 0%Z,
          packet_loss_abort, 1%nat)) /\
  ((Net.packetLossExpiry ns <= 0 \/ Net.activePacketLoss ns <= 0)%Z ->
   (0 < Net.latencyExpiry ns)%Z -> (0 < Net.activeLatencyMs ns)%Z ->
   (Inject.errorInjectionExpiry ei
      <= 0 + Net.slept (Net.dur (Net.activeLatencyMs ns) Net.millisecond))%Z ->
     Inject.middleware_chain source_zero false ns ei 0 0
       = (Net.slept (Net.dur (Net.activeLatencyMs ns) Net.millisecond), Net.Continue, 0%nat))).
Proof. intros ns ei. apply middleware_chain_order, DuckProofs.source_zero_valid. Defined.

(** X13: a latency of [l > 0] milliseconds set at [t0] for [s] seconds
    ([NetworkLatencyHandler]) lasts until [t0 + time.Duration(s) *
    time.Second]: a request from [t0] to then sleeps
    [time.Duration(l) * time.Millisecond] (both products wrapping in 64
    bits, and no sleep when the second is not positive), which is [l]
    milliseconds when [l * 10^6] fits in a [time.Duration]; one from the
    expiry on does not sleep even before the reset; the latency changes
    only the sleep (the packet-loss outcome and the draws are those
    without it); and the reset of this request cancels a second,
    overlapping latency request, even inside the second one's window. *)
Theorem latency_window (g : Source) (st : Net.net_state) (t0 l s now : Z) (k : nat) :
  (0 < l)%Z ->
  ((t0 <= now < t0 + Net.dur s Net.second)%Z ->
     fst (fst (Net.NetworkStressMiddleware g (Inject.set_latency st t0 l s) now k))
       = Net.slept (Net.dur l Net.millisecond)) /\
  ((l * Net.millisecond < 2 ^ 63)%Z -> Net.slept (Net.dur l Net.millisecond) = (l * Net.millisecond)%Z) /\
  ((t0 + Net.dur s Net.second <= now)%Z ->
     fst (fst (Net.NetworkStressMiddleware g (Inject.set_latency st t0 l s) now k)) = 0%Z) /\
  (snd (fst (Net.NetworkStressMiddleware g (Inject.set_latency st t0 l s) now k))
     = snd (fst (Net.NetworkStressMiddleware g st now k)) /\
   snd (Net.NetworkStressMiddleware g (Inject.set_latency st t0 l s) now k)
     = snd (Net.NetworkStressMiddleware g st now k)) /\
  (forall t1 l1 s1,
     fst (fst (Net.NetworkStressMiddleware g
        (Inject.reset_latency (Inject.set_latency (Inject.set_latency st t0 l s) t1 l1 s1)) now k))
       = 0%Z).
Proof.
  intro Hl. split; [| split].
  3: unfold Net.NetworkStressMiddleware, Inject.set_latency, Inject.reset_latency;
     cbn [Net.activeLatencyMs Net.latencyExpiry Net.activePacketLoss Net.packetLossExpiry];
     rewrite (proj2 (Z.ltb_lt 0 l) Hl); split; [| split].
  - intros Hn. unfold Net.NetworkStressMiddleware, Inject.set_latency.
    cbn [Net.activeLatencyMs Net.latencyExpiry Net.activePacketLoss Net.packetLossExpiry].
    rewrite (proj2 (Z.ltb_lt 0 l) Hl).
    rewrite (proj2 (Z.ltb_lt now (t0 + Net.dur s Net.second))) by lia. cbn [andb].
    destruct (_ && _)%bool; [destruct (_ <? _)%Z |]; reflexivity.
  - intros Hb. unfold Net.slept, Net.dur, Go.wrap64. unfold Net.millisecond in *.
    rewrite Z.mod_small by lia. lia.
  - intros Hn. rewrite (proj2 (Z.ltb_ge now (t0 + Net.dur s Net.second))) by lia. cbn [andb].
    destruct (_ && _)%bool; [destruct (_ <? _)%Z |]; reflexivity.
  - destruct ((now <? Net.packetLossExpiry st) && (0 <? Net.activePacketLoss st))%Z;
      [destruct (intn g k 100 <? Net.activePacketLoss st)%Z |]; split; reflexivity.
  - intros t1 l1 s1. rewrite andb_false_r.
    destruct (_ && _)%bool; [destruct (_ <? _)%Z |]; reflexivity.
Qed.

Lemma latency_window_witness :
  let st := {| Net.activeLatencyMs := 0; Net.latencyExpiry := 0;
               Net.activePacketLoss := 0; Net.packetLossExpiry := 0 |} in
  (((0 <= 1 < 0 + Net.dur 5 Net.second)%Z ->
     fst (fst (Net.NetworkStressMiddleware source_zero (Inject.set_latency st 0 300 5) 1 0))
       = Net.slept (Net.dur 300 Net.millisecond)) /\
  ((300 * Net.millisecond < 2 ^ 63)%Z ->
     Net.slept (Net.dur 300 Net.millisecond) = (300 * Net.millisecond)%Z) /\
  ((0 + Net.dur 5 Net.second <= 1)%Z ->
     fst (fst (Net.NetworkStressMiddleware source_zero (Inject.set_latency st 0 300 5) 1 0)) = 0%Z) /\
  (snd (fst (Net.NetworkStressMiddleware source_zero (Inject.set_latency st 0 300 5) 1 0))
     = snd (fst (Net.NetworkStressMiddleware source_zero st 1 0)) /\
   snd (Net.NetworkStressMiddleware source_zero (Inject.set_latency st 0 300 5) 1 0)
     = snd (Net.NetworkStressMiddleware source_zero st 1 0)) /\
  (forall t1 l1 s1,
     fst (fst (Net.NetworkStressMiddleware source_zero
        (Inject.reset_latency (Inject.set_latency (Inject.set_latency st 0 300 5) t1 l1 s1)) 1 0))
       = 0%Z)).
Proof. intro st. apply latency_window. lia. Defined.
